(** * Simulation core of the deathstar space shooter

    A shallow embedding of the per-frame simulation of [src/js/main.js] and of
    the [EnvironmentManager] class: flight physics, laser projectiles, enemy
    fighters, hazard collisions, explosion bursts and the game-over guard.

    Conventions of the embedding.
    - JavaScript numbers are exact rationals ([Q]); health, damage and score,
      which only ever hold integers, are [Z].
    - [a.distanceTo(b) < r] and its siblings are decided on squares, which is
      the same comparison for a real-valued distance and keeps the model
      executable.
    - Properties of [shipState] that no statement of the program assigns
      (speed limits, cooldown, radii, laser constants) are constants.
    - three.js and [Math] functions that are not rational (vector
      normalisation, quaternion rotation, sine and cosine) and the sequence
      of values [Math.random()] returns are the members of the class
      [Platform]; a counter in the state says how many random values have
      been drawn.
    - The session clock is an input: every entry point that reads it takes the
      value read as an argument.
    - Scene-graph membership, materials, the spin of planets and asteroids,
      the camera and DOM styling carry no simulation state and are left out;
      the text of the game-over message and the visibility of the ship are
      kept.  The speed display and the music switch of [AudioManager] read
      the state without writing to it, and are modelled on their own, after
      the simulation. *)

From Stdlib Require Import QArith Qabs Qround ZArith Lqa Lia String Bool.
From stdpp Require Import list.

Open Scope Q_scope.

(** ** Numbers and vectors *)

Definition Qltb (x y : Q) : bool := negb (Qle_bool y x).

Definition Qmin' (x y : Q) : Q := if Qle_bool x y then x else y.
Definition Qmax' (x y : Q) : Q := if Qle_bool x y then y else x.

(** [Math.sign] *)
Definition Qsign (x : Q) : Q :=
  if Qltb 0 x then 1 else if Qltb x 0 then -1 else 0.

Record Vector3 := mkV { vx : Q; vy : Q; vz : Q }.

Record Euler := mkE { ex : Q; ey : Q; ez : Q }.

Module V.
Definition zero : Vector3 := mkV 0 0 0.
Definition add (a b : Vector3) : Vector3 :=
  mkV (vx a + vx b) (vy a + vy b) (vz a + vz b).
Definition sub (a b : Vector3) : Vector3 :=
  mkV (vx a - vx b) (vy a - vy b) (vz a - vz b).
Definition multiplyScalar (a : Vector3) (k : Q) : Vector3 :=
  mkV (vx a * k) (vy a * k) (vz a * k).
Definition lengthSq (a : Vector3) : Q :=
  vx a * vx a + vy a * vy a + vz a * vz a.
Definition distanceSq (a b : Vector3) : Q := lengthSq (sub a b).

(** [a.lerp(b, t)] *)
Definition lerp (a b : Vector3) (t : Q) : Vector3 :=
  mkV (vx a + (vx b - vx a) * t) (vy a + (vy b - vy a) * t)
      (vz a + (vz b - vz a) * t).

(** [a.distanceTo(b) < r] *)
Definition distLt (a b : Vector3) (r : Q) : bool :=
  Qltb 0 r && Qltb (distanceSq a b) (r * r).

(** [a.distanceTo(b) >= r] *)
Definition distGe (a b : Vector3) (r : Q) : bool := negb (distLt a b r).

(** [a.distanceTo(b) > r] *)
Definition distGt (a b : Vector3) (r : Q) : bool :=
  Qltb r 0 || Qltb (r * r) (distanceSq a b).

(** [a.length() > r] *)
Definition lengthGt (a : Vector3) (r : Q) : bool := distGt a zero r.
End V.

(** ** Data model *)

(** An entry of the module-level array [lasers]. [l_position] is
    [laser.mesh.position]. *)
Record Laser := mkLaser {
  l_position : Vector3;
  l_velocity : Vector3;
  l_startPosition : Vector3;
  l_distance : Q;
  l_maxDistance : Q;
  l_damage : Z;
  l_isEnemy : bool
}.

(** An enemy fighter. [target.position] and [target.mesh.position] are one
    object ([position: group.position]), hence one field. *)
Record Target := mkTarget {
  t_position : Vector3;
  t_meshRotation : Euler;
  t_radius : Q;
  t_health : Z;
  t_velocity : Vector3;
  t_rotation : Vector3
}.

(** One particle of a burst: its offset in the burst and its velocity. *)
Record Particle := mkParticle { pt_offset : Vector3; pt_velocity : Vector3 }.

Record Explosion := mkExplosion {
  e_position : Vector3;
  e_color : Z;
  e_particles : list Particle;
  e_age : Q;
  e_lifetime : Q;
  e_size : Q;
  e_originalSize : Q;
  e_materialOpacity : Q;
  e_materialSize : Q
}.

(** Hazards are meshes with identity: a mesh is a [nat], and the [Vector3]
    object that is its [position] lives in the store [meshPosition] of the
    environment at that index.  A collision object holds a reference to such
    a [Vector3], not a copy. *)
Definition MeshId := nat.

Record Planet := mkPlanet { p_mesh : MeshId; p_radius : Q; p_rotationSpeed : Q }.

Record Asteroid := mkAsteroid {
  a_mesh : MeshId;
  a_radius : Q;
  a_rotationSpeed : Vector3;
  a_velocity : Vector3
}.

Inductive ObjType := asteroid | planet | deathstar.

Record CollisionObject := mkCollisionObject {
  c_mesh : MeshId;
  c_position : MeshId;
  c_radius : Q;
  c_type : ObjType
}.

(** The fields of an [EnvironmentManager]. *)
Record Env := mkEnv {
  meshPosition : list Vector3;
  planets : list Planet;
  asteroids : list Asteroid;
  collisionObjects : list CollisionObject;
  deathStar : option MeshId;
  env_targets : list Target;
  env_explosions : list Explosion
}.

Record BarrelRoll := mkBarrelRoll {
  br_active : bool;
  br_direction : Z;
  br_progress : Q
}.

Record ShipState := mkShip {
  velocity : Vector3;
  rotation : Euler;
  position : Vector3;
  currentSpeed : Q;
  barrelRoll : BarrelRoll;
  invulnerable : bool;
  health : Z;
  lastShotTime : Q
}.

(** The properties of [shipState] that are never assigned. *)
Definition maxSpeed : Q := 1.
Definition drag : Q := 0.98.
Definition speedIncrement : Q := 0.01.
Definition maxForwardSpeed : Q := 1.5.
Definition maxReverseSpeed : Q := -0.3.
Definition barrelRoll_speed : Q := 0.05.

(** [Math.PI * 2] as the double it is. *)
Definition barrelRoll_duration : Q := 6.283185307179586.
Definition collisionRadius : Q := 4.
Definition shootCooldown : Q := 0.25.
Definition laserSpeed : Q := 500.
Definition laserRange : Q := 200.
Definition laserDamage : Z := 25%Z.

Record GameState := mkGameState { isGameOver : bool; score : Z }.

Record Keys := mkKeys {
  k_w : bool; k_a : bool; k_s : bool; k_d : bool;
  k_q : bool; k_e : bool; k_f : bool;
  k_ArrowUp : bool; k_ArrowDown : bool;
  k_ArrowLeft : bool; k_ArrowRight : bool;
  k_space : bool
}.

(** The X-Wing mesh group.  [xw_world] is the pose its [matrixWorld] was last
    computed from, which three.js refreshes when the scene is rendered. *)
Record XWing := mkXWing {
  xw_position : Vector3;
  xw_rotation : Euler;
  xw_visible : bool;
  xw_world : Vector3 * Euler
}.

(** The part of [uiElements] the simulation writes to. *)
Record UI := mkUI {
  gameOverScreen : bool;        (* the element exists, [initUI] has run *)
  gameOverDisplayed : bool;
  gameOverMessage : string;
  scoreValue : Z;
  liveScoreValue : Z
}.

(** The whole mutable state of the page. [targets] and [explosions] are the
    module-level arrays of main.js; the fighters created at start-up live in
    [env_targets].  [randCalls] counts the calls of [Math.random] so far and
    [graceTimers] the pending [setTimeout] callbacks of the post-hit grace. *)
Record Game := mkGame {
  shipState : ShipState;
  gameState : GameState;
  keys : Keys;
  xwing : XWing;
  lasers : list Laser;
  explosions : list Explosion;
  targets : list Target;
  env : Env;
  ui : UI;
  randCalls : nat;
  graceTimers : nat
}.

(** Field updates. *)
Definition set_shipState (f : ShipState -> ShipState) (g : Game) : Game :=
  mkGame (f (shipState g)) (gameState g) (keys g) (xwing g) (lasers g)
         (explosions g) (targets g) (env g) (ui g) (randCalls g) (graceTimers g).
Definition set_gameState (f : GameState -> GameState) (g : Game) : Game :=
  mkGame (shipState g) (f (gameState g)) (keys g) (xwing g) (lasers g)
         (explosions g) (targets g) (env g) (ui g) (randCalls g) (graceTimers g).
Definition set_keys (f : Keys -> Keys) (g : Game) : Game :=
  mkGame (shipState g) (gameState g) (f (keys g)) (xwing g) (lasers g)
         (explosions g) (targets g) (env g) (ui g) (randCalls g) (graceTimers g).
Definition set_xwing (f : XWing -> XWing) (g : Game) : Game :=
  mkGame (shipState g) (gameState g) (keys g) (f (xwing g)) (lasers g)
         (explosions g) (targets g) (env g) (ui g) (randCalls g) (graceTimers g).
Definition set_lasers (f : list Laser -> list Laser) (g : Game) : Game :=
  mkGame (shipState g) (gameState g) (keys g) (xwing g) (f (lasers g))
         (explosions g) (targets g) (env g) (ui g) (randCalls g) (graceTimers g).
Definition set_explosions (f : list Explosion -> list Explosion) (g : Game) : Game :=
  mkGame (shipState g) (gameState g) (keys g) (xwing g) (lasers g)
         (f (explosions g)) (targets g) (env g) (ui g) (randCalls g) (graceTimers g).
Definition set_targets (f : list Target -> list Target) (g : Game) : Game :=
  mkGame (shipState g) (gameState g) (keys g) (xwing g) (lasers g)
         (explosions g) (f (targets g)) (env g) (ui g) (randCalls g) (graceTimers g).
Definition set_env (f : Env -> Env) (g : Game) : Game :=
  mkGame (shipState g) (gameState g) (keys g) (xwing g) (lasers g)
         (explosions g) (targets g) (f (env g)) (ui g) (randCalls g) (graceTimers g).
Definition set_ui (f : UI -> UI) (g : Game) : Game :=
  mkGame (shipState g) (gameState g) (keys g) (xwing g) (lasers g)
         (explosions g) (targets g) (env g) (f (ui g)) (randCalls g) (graceTimers g).
Definition set_randCalls (f : nat -> nat) (g : Game) : Game :=
  mkGame (shipState g) (gameState g) (keys g) (xwing g) (lasers g)
         (explosions g) (targets g) (env g) (ui g) (f (randCalls g)) (graceTimers g).
Definition set_graceTimers (f : nat -> nat) (g : Game) : Game :=
  mkGame (shipState g) (gameState g) (keys g) (xwing g) (lasers g)
         (explosions g) (targets g) (env g) (ui g) (randCalls g) (f (graceTimers g)).

Definition set_meshPosition (f : list Vector3 -> list Vector3) (e : Env) : Env :=
  mkEnv (f (meshPosition e)) (planets e) (asteroids e) (collisionObjects e)
        (deathStar e) (env_targets e) (env_explosions e).
Definition set_planets (f : list Planet -> list Planet) (e : Env) : Env :=
  mkEnv (meshPosition e) (f (planets e)) (asteroids e) (collisionObjects e)
        (deathStar e) (env_targets e) (env_explosions e).
Definition set_asteroids (f : list Asteroid -> list Asteroid) (e : Env) : Env :=
  mkEnv (meshPosition e) (planets e) (f (asteroids e)) (collisionObjects e)
        (deathStar e) (env_targets e) (env_explosions e).
Definition set_collisionObjects
    (f : list CollisionObject -> list CollisionObject) (e : Env) : Env :=
  mkEnv (meshPosition e) (planets e) (asteroids e) (f (collisionObjects e))
        (deathStar e) (env_targets e) (env_explosions e).
Definition set_deathStar (f : option MeshId -> option MeshId) (e : Env) : Env :=
  mkEnv (meshPosition e) (planets e) (asteroids e) (collisionObjects e)
        (f (deathStar e)) (env_targets e) (env_explosions e).
Definition set_env_targets (f : list Target -> list Target) (e : Env) : Env :=
  mkEnv (meshPosition e) (planets e) (asteroids e) (collisionObjects e)
        (deathStar e) (f (env_targets e)) (env_explosions e).
Definition set_env_explosions (f : list Explosion -> list Explosion) (e : Env) : Env :=
  mkEnv (meshPosition e) (planets e) (asteroids e) (collisionObjects e)
        (deathStar e) (env_targets e) (f (env_explosions e)).

Definition set_health (h : Z) (sh : ShipState) : ShipState :=
  mkShip (velocity sh) (rotation sh) (position sh) (currentSpeed sh)
         (barrelRoll sh) (invulnerable sh) h (lastShotTime sh).
Definition set_invulnerable (b : bool) (sh : ShipState) : ShipState :=
  mkShip (velocity sh) (rotation sh) (position sh) (currentSpeed sh)
         (barrelRoll sh) b (health sh) (lastShotTime sh).
Definition set_barrelRoll (br : BarrelRoll) (sh : ShipState) : ShipState :=
  mkShip (velocity sh) (rotation sh) (position sh) (currentSpeed sh)
         br (invulnerable sh) (health sh) (lastShotTime sh).
Definition set_lastShotTime (t : Q) (sh : ShipState) : ShipState :=
  mkShip (velocity sh) (rotation sh) (position sh) (currentSpeed sh)
         (barrelRoll sh) (invulnerable sh) (health sh) t.
Definition set_currentSpeed (v : Q) (sh : ShipState) : ShipState :=
  mkShip (velocity sh) (rotation sh) (position sh) v
         (barrelRoll sh) (invulnerable sh) (health sh) (lastShotTime sh).
Definition set_velocity (v : Vector3) (sh : ShipState) : ShipState :=
  mkShip v (rotation sh) (position sh) (currentSpeed sh)
         (barrelRoll sh) (invulnerable sh) (health sh) (lastShotTime sh).
Definition set_rotation (r : Euler) (sh : ShipState) : ShipState :=
  mkShip (velocity sh) r (position sh) (currentSpeed sh)
         (barrelRoll sh) (invulnerable sh) (health sh) (lastShotTime sh).
Definition set_position (p : Vector3) (sh : ShipState) : ShipState :=
  mkShip (velocity sh) (rotation sh) p (currentSpeed sh)
         (barrelRoll sh) (invulnerable sh) (health sh) (lastShotTime sh).

Definition set_xw_position (p : Vector3) (x : XWing) : XWing :=
  mkXWing p (xw_rotation x) (xw_visible x) (xw_world x).
Definition set_xw_rotation (r : Euler) (x : XWing) : XWing :=
  mkXWing (xw_position x) r (xw_visible x) (xw_world x).
Definition set_xw_visible (b : bool) (x : XWing) : XWing :=
  mkXWing (xw_position x) (xw_rotation x) b (xw_world x).

(** ** The platform: three.js, [Math] and the random source *)

Class Platform := {
  (** the value of the [n]-th call of [Math.random()] *)
  random : nat -> Q;
  (** [v.normalize()] *)
  normalize : Vector3 -> Vector3;
  cos : Q -> Q;
  sin : Q -> Q;
  (** [v.applyQuaternion(q)] for the quaternion of the Euler angles *)
  applyEuler : Euler -> Vector3 -> Vector3;
  (** [v.applyMatrix4(matrixWorld)] for the matrix of a pose *)
  localToWorld : Vector3 * Euler -> Vector3 -> Vector3
}.

(** [Math.PI], the double. *)
Definition PI : Q := 3.141592653589793.

Section Simulation.
Context `{Platform}.

(** ** Explosion bursts *)

(** The loop of [createExplosionEffect]: [n] particles, five random draws
    each (offset x, y, z, speed, colour variation), starting at draw [k]. *)
Fixpoint makeParticles (n k : nat) : list Particle :=
  match n with
  | O => []
  | S n' =>
      let x := (random k - 0.5) * 0.5 in
      let y := (random (k + 1) - 0.5) * 0.5 in
      let z := (random (k + 2) - 0.5) * 0.5 in
      let speed := 2 + random (k + 3) * 5 in
      mkParticle (mkV x y z) (mkV (x * speed) (y * speed) (z * speed))
        :: makeParticles n' (k + 5)
  end.

Definition particleCount : nat := 50.

Definition newExplosion (k : nat) (pos : Vector3) (size : Q) (color : Z)
    : Explosion :=
  mkExplosion pos color (makeParticles particleCount k) 0 1 size size 1 size.

(** [createExplosionEffect] of main.js: pushes on the module-level array. *)
Definition createExplosionEffect (pos : Vector3) (size : Q) (color : Z)
    (g : Game) : Game :=
  set_randCalls (fun k => (k + 5 * particleCount)%nat)
    (set_explosions (fun l => l ++ [newExplosion (randCalls g) pos size color]) g).

(** [EnvironmentManager.createExplosionEffect]: pushes on [this.explosions]. *)
Definition env_createExplosionEffect (pos : Vector3) (size : Q) (color : Z)
    (g : Game) : Game :=
  set_randCalls (fun k => (k + 5 * particleCount)%nat)
    (set_env (set_env_explosions
       (fun l => l ++ [newExplosion (randCalls g) pos size color])) g).

(** One pass of the loop body of [updateExplosions] over a burst that stays. *)
Definition ageExplosion (deltaTime : Q) (e : Explosion) : Explosion :=
  let age := e_age e + deltaTime in
  let progress := age / e_lifetime e in
  mkExplosion (e_position e) (e_color e)
    (map (fun p => mkParticle
            (V.add (pt_offset p) (V.multiplyScalar (pt_velocity p) deltaTime))
            (pt_velocity p)) (e_particles e))
    age (e_lifetime e) (e_size e) (e_originalSize e)
    (1 - progress) (e_originalSize e * (1 - progress * 0.5)).

(** [updateExplosions]: the loop runs from the last index down and splices
    the expired bursts; the elements do not interact, so it is a filter-map
    that keeps the order. *)
Fixpoint updateExplosionList (deltaTime : Q) (l : list Explosion)
    : list Explosion :=
  match l with
  | [] => []
  | e :: rest =>
      let rest' := updateExplosionList deltaTime rest in
      if Qltb (e_lifetime e) (e_age e + deltaTime) then rest'
      else ageExplosion deltaTime e :: rest'
  end.

Definition updateExplosions (deltaTime : Q) (g : Game) : Game :=
  set_explosions (updateExplosionList deltaTime) g.

Definition env_updateExplosions (deltaTime : Q) (e : Env) : Env :=
  set_env_explosions (updateExplosionList deltaTime) e.

(** ** Firing *)

(** [fireLaser], with the value [clock.getElapsedTime()] returns. *)
Definition fireLaser (currentTime : Q) (g : Game) : Game :=
  if Qltb (currentTime - lastShotTime (shipState g)) shootCooldown then g
  else
    let nosePosition := localToWorld (xw_world (xwing g)) (mkV 0 0 (-3)) in
    let forwardDir :=
      normalize (applyEuler (xw_rotation (xwing g)) (mkV 0 0 (-1))) in
    set_lasers (fun l => l ++
        [mkLaser nosePosition (V.multiplyScalar forwardDir laserSpeed)
                 nosePosition 0 laserRange laserDamage false])
      (set_shipState (set_lastShotTime currentTime) g).

(** [createEnemyLaser] *)
Definition createEnemyLaser (target : Target) (g : Game) : Game :=
  let direction :=
    normalize (V.sub (position (shipState g)) (t_position target)) in
  set_lasers (fun l => l ++
      [mkLaser (t_position target) (V.multiplyScalar direction 1.5)
               (t_position target) 0 5 10%Z true]) g.

(** ** Game over *)

Definition gameOver (message : string) (g : Game) : Game :=
  let g1 := set_gameState (fun gs => mkGameState true (score gs)) g in
  if gameOverScreen (ui g1) then
    let g2 := set_ui (fun u =>
        mkUI (gameOverScreen u) true message (score (gameState g1))
             (liveScoreValue u)) g1 in
    let g3 := createExplosionEffect (position (shipState g2)) 10 16733440%Z g2 in
    set_xwing (set_xw_visible false) g3
  else g1.

(** ** Barrel roll *)

Definition startBarrelRoll (direction : Z) (g : Game) : Game :=
  set_shipState (fun sh =>
    set_invulnerable true (set_barrelRoll (mkBarrelRoll true direction 0) sh)) g.

Definition updateBarrelRoll (g : Game) : Game :=
  let br := barrelRoll (shipState g) in
  if br_active br then
    let progress := br_progress br + barrelRoll_speed in
    let rollAmount := inject_Z (br_direction br) * progress in
    if Qle_bool barrelRoll_duration progress then
      set_xwing (fun x => set_xw_rotation
                   (mkE (ex (xw_rotation x)) (ey (xw_rotation x)) 0) x)
        (set_shipState (fun sh =>
           set_invulnerable false
             (set_barrelRoll (mkBarrelRoll false (br_direction br) 0) sh)) g)
    else
      set_xwing (fun x => set_xw_rotation
                   (mkE (ex (xw_rotation x)) (ey (xw_rotation x)) rollAmount) x)
        (set_shipState
           (set_barrelRoll (mkBarrelRoll true (br_direction br) progress)) g)
  else g.

(** ** Ship against hazards *)

(** The [Vector3] a reference points to. *)
Definition deref (e : Env) (r : MeshId) : Vector3 :=
  default V.zero (meshPosition e !! r).

Definition handleCollision (object : CollisionObject) (g : Game) : Game :=
  match c_type object with
  | asteroid =>
      gameOver "Your X-Wing was destroyed by an asteroid!"
        (set_shipState (set_health 0%Z) g)
  | planet =>
      gameOver "Your X-Wing crashed into a planet!"
        (set_shipState (set_health 0%Z) g)
  | deathstar =>
      gameOver "Mission Complete! You've reached the Death Star!" g
  end.

(** The [for ... of] loop of [checkCollisions], left at the first match. *)
Fixpoint checkCollisions_loop (objs : list CollisionObject) (g : Game) : Game :=
  match objs with
  | [] => g
  | obj :: rest =>
      if V.distLt (position (shipState g)) (deref (env g) (c_position obj))
                  (collisionRadius + c_radius obj)
      then handleCollision obj g
      else checkCollisions_loop rest g
  end.

Definition checkCollisions (g : Game) : Game :=
  if invulnerable (shipState g) then g
  else checkCollisions_loop (collisionObjects (env g)) g.

(** ** Loops over an index *)

(** [for (let i = n - 1; i >= 0; i--) body(i)] *)
Fixpoint for_down {S : Type} (n : nat) (body : nat -> S -> S) (s : S) : S :=
  match n with
  | O => s
  | S i => for_down i body (body i s)
  end.

(** [for (let i = start; i < start + n; i++) body(i)] *)
Fixpoint for_up {S : Type} (n start : nat) (body : nat -> S -> S) (s : S) : S :=
  match n with
  | O => s
  | S n' => for_up n' (Datatypes.S start) body (body start s)
  end.

(** [l.findIndex(f)] *)
Fixpoint findIndex {A : Type} (f : A -> bool) (l : list A) : option nat :=
  match l with
  | [] => None
  | x :: rest => if f x then Some O else option_map Datatypes.S (findIndex f rest)
  end.

(** ** Removing entities *)

Definition updateScoreDisplay (g : Game) : Game :=
  if gameOverScreen (ui g) then
    set_ui (fun u => mkUI (gameOverScreen u) (gameOverDisplayed u)
                          (gameOverMessage u) (scoreValue u)
                          (score (gameState g))) g
  else g.

Definition addScore (n : Z) (g : Game) : Game :=
  set_gameState (fun gs => mkGameState (isGameOver gs) (score gs + n)%Z) g.

(** [EnvironmentManager.destroyTarget] *)
Definition destroyTarget (targetIndex : nat) (e : Env) : Env :=
  match env_targets e !! targetIndex with
  | None => e
  | Some _ => set_env_targets (delete targetIndex) e
  end.

(** [EnvironmentManager.destroyAsteroid] *)
Definition destroyAsteroid (asteroidIndex : nat) (e : Env) : Env :=
  match asteroids e !! asteroidIndex with
  | None => e
  | Some a =>
      let e1 := set_asteroids (delete asteroidIndex) e in
      match findIndex (fun obj => Nat.eqb (c_mesh obj) (a_mesh a))
                      (collisionObjects e1) with
      | Some collisionIndex => set_collisionObjects (delete collisionIndex) e1
      | None => e1
      end
  end.

(** ** Lasers *)

Definition advanceLaser (deltaTime : Q) (l : Laser) : Laser :=
  mkLaser (V.add (l_position l) (V.multiplyScalar (l_velocity l) deltaTime))
          (l_velocity l) (l_startPosition l) (l_distance l)
          (l_maxDistance l) (l_damage l) (l_isEnemy l).

Definition damageTarget (d : Z) (t : Target) : Target :=
  mkTarget (t_position t) (t_meshRotation t) (t_radius t)
           (t_health t - d)%Z (t_velocity t) (t_rotation t).

(** The loop over the fighters in [updateLasers], for the laser at index [i]:
    [j] runs from [n - 1] down to 0 and the loop is left at the first hit. *)
Fixpoint laserTargets_loop (n i : nat) (laser : Laser) (g : Game) : Game :=
  match n with
  | O => g
  | S j =>
      match env_targets (env g) !! j with
      | None => laserTargets_loop j i laser g
      | Some target =>
          if V.distLt (l_position laser) (t_position target) (t_radius target)
          then
            let target' := damageTarget (l_damage laser) target in
            let g1 := set_env (set_env_targets (<[j := target']>)) g in
            let g2 := env_createExplosionEffect (l_position laser) 0.5
                        16711680%Z g1 in
            let g3 := set_lasers (delete i) g2 in
            if (t_health target' <=? 0)%Z then
              let g4 := env_createExplosionEffect (t_position target') 2
                          16755200%Z g3 in
              let g5 := set_env (destroyTarget j) g4 in
              updateScoreDisplay (addScore 100 g5)
            else g3
          else laserTargets_loop j i laser g
      end
  end.

(** The loop over the asteroids in [updateLasers], for the laser at index [i]:
    [j] runs upwards from [j] over [n] asteroids and the loop is left at the
    first hit. *)
Fixpoint laserAsteroids_loop (n j i : nat) (laser : Laser) (g : Game) : Game :=
  match n with
  | O => g
  | S n' =>
      match asteroids (env g) !! j with
      | None => g
      | Some a =>
          if V.distLt (l_position laser) (deref (env g) (a_mesh a)) (a_radius a)
          then
            let g1 := env_createExplosionEffect (l_position laser) 0.5
                        11184810%Z g in
            let g2 := set_lasers (delete i) g1 in
            let roll := random (randCalls g2) in
            let g3 := set_randCalls Datatypes.S g2 in
            if Qltb roll 0.25 then
              let g4 := env_createExplosionEffect (deref (env g3) (a_mesh a))
                          (a_radius a) 11184810%Z g3 in
              let g5 := set_env (destroyAsteroid j) g4 in
              updateScoreDisplay (addScore 25 g5)
            else g3
          else laserAsteroids_loop n' (Datatypes.S j) i laser g
      end
  end.

(** The body of the outer loop of [updateLasers] for index [i].  The variable
    [laser] keeps denoting the object read at the top of the body, also after
    it has been spliced out of [lasers]. *)
Definition updateLaser_at (deltaTime : Q) (i : nat) (g : Game) : Game :=
  match lasers g !! i with
  | None => g
  | Some laser0 =>
      let laser := advanceLaser deltaTime laser0 in
      let g1 := set_lasers (<[i := laser]>) g in
      if V.distGe (l_position laser) (l_startPosition laser) (l_maxDistance laser)
      then set_lasers (delete i) g1
      else
        let g2 := laserTargets_loop (length (env_targets (env g1))) i laser g1 in
        laserAsteroids_loop (length (asteroids (env g2))) 0 i laser g2
  end.

Definition updateLasers (deltaTime : Q) (g : Game) : Game :=
  for_down (length (lasers g)) (updateLaser_at deltaTime) g.

(** ** Enemy fighters *)

(** The part of the loop body that [updateEnemies] of main.js and
    [EnvironmentManager.updateEnemies] share: move, spin, steer towards the
    player when closer than 200, cap the speed, reflect at the bounds.  [k] is
    the number of random draws so far; the result carries the new count. *)
Definition steerTarget (deltaTime : Q) (shipPosition : Vector3) (k : nat)
    (t : Target) : Target * nat :=
  let pos := V.add (t_position t) (t_velocity t) in
  let rot := mkE (ex (t_meshRotation t) + vx (t_rotation t))
                 (ey (t_meshRotation t) + vy (t_rotation t))
                 (ez (t_meshRotation t) + vz (t_rotation t)) in
  let close := V.distLt pos shipPosition 200 in
  let v1 :=
    if close then
      let toPlayer := V.multiplyScalar (normalize (V.sub shipPosition pos))
                        (0.15 * deltaTime * 60) in
      let toPlayer' :=
        mkV (vx toPlayer + (random k - 0.5) * 0.05)
            (vy toPlayer + (random (k + 1) - 0.5) * 0.05)
            (vz toPlayer + (random (k + 2) - 0.5) * 0.05) in
      V.lerp (t_velocity t) toPlayer' 0.01
    else t_velocity t in
  let k1 := if close then (k + 3)%nat else k in
  let v2 := if V.lengthGt v1 0.2
            then V.multiplyScalar (normalize v1) 0.2 else v1 in
  let v3 := if Qltb 500 (Qabs (vx pos))
            then mkV (vx v2 * -1) (vy v2) (vz v2) else v2 in
  let v4 := if Qltb 300 (Qabs (vy pos))
            then mkV (vx v3) (vy v3 * -1) (vz v3) else v3 in
  let v5 := if Qltb (vz pos) (-1500) || Qltb 500 (vz pos)
            then mkV (vx v4) (vy v4) (vz v4 * -1) else v4 in
  (mkTarget pos rot (t_radius t) (t_health t) v5 (t_rotation t), k1).

(** The body of [EnvironmentManager.updateEnemies] for index [i]. *)
Definition env_updateEnemy_at (deltaTime : Q) (i : nat) (g : Game) : Game :=
  match env_targets (env g) !! i with
  | None => g
  | Some target =>
      let '(target', k) :=
        steerTarget deltaTime (position (shipState g)) (randCalls g) target in
      set_randCalls (fun _ => k)
        (set_env (set_env_targets (<[i := target']>)) g)
  end.

Definition env_updateEnemies (deltaTime : Q) (g : Game) : Game :=
  for_up (length (env_targets (env g))) 0 (env_updateEnemy_at deltaTime) g.



(** ** Environment *)

(** How a function that can raise a [TypeError] ended. *)
Inductive Outcome := Normal | Thrown.

(** The callback of [this.asteroids.forEach] in [updateEnvironment], for the
    asteroid at [index].  Writing [.position] of a collision object that does
    not exist throws. *)
Definition driftAsteroid (index : nat) (g : Game) : Game * Outcome :=
  match asteroids (env g) !! index with
  | None => (g, Normal)
  | Some a =>
      let p := V.add (deref (env g) (a_mesh a)) (a_velocity a) in
      let g1 := set_env (set_meshPosition (<[a_mesh a := p]>)) g in
      let ci := (length (planets (env g1)) + index)%nat in
      match collisionObjects (env g1) !! ci with
      | None => (g1, Thrown)
      | Some obj =>
          let obj' := mkCollisionObject (c_mesh obj) (a_mesh a)
                        (c_radius obj) (c_type obj) in
          let g2 := set_env (set_collisionObjects (<[ci := obj']>)) g1 in
          if V.distGt p (mkV 0 0 (-500)) 500 then
            let k := randCalls g2 in
            let angle := random k * PI * 2 in
            let distance := random (k + 1) * 300 in
            let p' := mkV (cos angle * distance)
                          ((random (k + 2) - 0.5) * 300)
                          (-500 + sin angle * distance) in
            (set_randCalls (fun _ => (k + 3)%nat)
               (set_env (set_meshPosition (<[a_mesh a := p']>)) g2), Normal)
          else (g2, Normal)
      end
  end.

Fixpoint driftAsteroids (n index : nat) (g : Game) : Game * Outcome :=
  match n with
  | O => (g, Normal)
  | S n' =>
      match driftAsteroid index g with
      | (g1, Normal) => driftAsteroids n' (S index) g1
      | (g1, Thrown) => (g1, Thrown)
      end
  end.

(** [EnvironmentManager.updateEnvironment] *)
Definition updateEnvironment (deltaTime : Q) (g : Game) : Game * Outcome :=
  match driftAsteroids (length (asteroids (env g))) 0 g with
  | (g1, Normal) => (set_env (env_updateExplosions deltaTime) g1, Normal)
  | (g1, Thrown) => (g1, Thrown)
  end.

(** ** Ship physics *)

(** The speed update of [updateShipPhysics]: thrust keys, then the drag that
    applies when none of the four keys is down. *)
Definition updateSpeed (k : Keys) (v : Q) : Q :=
  let v1 :=
    if k_w k || k_ArrowUp k then Qmin' (v + speedIncrement) maxForwardSpeed
    else if k_s k || k_ArrowDown k
      then Qmax' (v - speedIncrement) maxReverseSpeed
    else v in
  if negb (k_w k) && negb (k_s k) && negb (k_ArrowUp k) && negb (k_ArrowDown k)
  then (if Qltb (Qabs v1) 0.01 then 0 else v1 * 0.998)
  else v1.

(** The yaw update, skipped during a barrel roll. *)
Definition updateYaw (k : Keys) (active : bool) (r : Euler) : Euler :=
  if active then r
  else
    let y1 := if k_a k || k_ArrowLeft k then ey r + 0.02 else ey r in
    let y2 := if k_d k || k_ArrowRight k then y1 - 0.02 else y1 in
    mkE (ex r) y2 (ez r).

(** The vertical velocity: thruster or gravity, drag, clamp. *)
Definition updateVertical (k : Keys) (y : Q) : Q :=
  let y1 := if k_space k then y + 0.01 else y - 0.002 in
  let y2 := y1 * drag in
  if Qltb (maxSpeed * 0.5) (Qabs y2) then Qsign y2 * maxSpeed * 0.5 else y2.

(** The tilt and pitch of the mesh outside a barrel roll. *)
Definition updateTilt (k : Keys) (speed : Q) (r : Euler) : Euler :=
  let tiltFactor := 0.5 in
  let z :=
    if k_a k || k_ArrowLeft k then Qmin' (ez r + 0.01) tiltFactor
    else if k_d k || k_ArrowRight k then Qmax' (ez r - 0.01) (- tiltFactor)
    else ez r * 0.95 in
  mkE (- (speed * 0.3)) (ey r) z.

(** The movement part of [updateShipPhysics], up to the firing check. *)
Definition moveShip (g : Game) : Game :=
  let sh := shipState g in
  let k := keys g in
  let forwardVector := applyEuler (xw_rotation (xwing g)) (mkV 0 0 (-1)) in
  let horizontalForward :=
    normalize (mkV (vx forwardVector) 0 (vz forwardVector)) in
  let speed := updateSpeed k (currentSpeed sh) in
  let active := br_active (barrelRoll sh) in
  let rot := updateYaw k active (rotation sh) in
  let vel := mkV (vx horizontalForward * speed)
                 (updateVertical k (vy (velocity sh)))
                 (vz horizontalForward * speed) in
  let pos := V.add (position sh) vel in
  let sh' := mkShip vel rot pos speed (barrelRoll sh) (invulnerable sh)
                    (health sh) (lastShotTime sh) in
  let xr0 := mkE (ex (xw_rotation (xwing g))) (ey rot)
                 (ez (xw_rotation (xwing g))) in
  let xr := if active then xr0 else updateTilt k speed xr0 in
  set_xwing (fun x => set_xw_rotation xr (set_xw_position pos x))
    (set_shipState (fun _ => sh') g).

(** The hit of the enemy laser at index [i] on the ship. *)
Definition hitShip (i : nat) (laser : Laser) (g : Game) : Game :=
  let g1 := set_shipState
              (fun sh => set_health (health sh - l_damage laser)%Z sh) g in
  let g2 := set_lasers (delete i) g1 in
  let g3 := createExplosionEffect (position (shipState g2)) 1 16711680%Z g2 in
  let g4 := set_graceTimers Datatypes.S
              (set_shipState (set_invulnerable true) g3) in
  if (health (shipState g4) <=? 0)%Z
  then gameOver "Ship destroyed by enemy fire!" g4
  else g4.

(** The loop over [lasers] at the end of [updateShipPhysics]: from the last
    index down, player lasers skipped, left at the first hit. *)
Fixpoint shipLasers_loop (n : nat) (g : Game) : Game :=
  match n with
  | O => g
  | S i =>
      match lasers g !! i with
      | None => shipLasers_loop i g
      | Some laser =>
          if negb (l_isEnemy laser) then shipLasers_loop i g
          else if V.distLt (l_position laser) (position (shipState g))
                           collisionRadius
          then hitShip i laser g
          else shipLasers_loop i g
      end
  end.

Definition checkEnemyLasers (g : Game) : Game :=
  if negb (invulnerable (shipState g))
  then shipLasers_loop (length (lasers g)) g
  else g.

(** [updateShipPhysics]; [currentTime] is what the clock returns if
    [fireLaser] reads it. *)
Definition updateShipPhysics (deltaTime currentTime : Q) (g : Game) : Game :=
  let g1 := moveShip g in
  let g2 := if k_f (keys g1) then fireLaser currentTime g1 else g1 in
  let g3 := updateBarrelRoll g2 in
  let g4 := checkCollisions g3 in
  checkEnemyLasers g4.

(** The state the two ship checks of [updateShipPhysics] start from. *)
Definition beforeChecks (currentTime : Q) (g : Game) : Game :=
  updateBarrelRoll
    (if k_f (keys (moveShip g)) then fireLaser currentTime (moveShip g)
     else moveShip g).

(** ** The frame *)

(** Rendering recomputes the world matrix of the X-Wing. *)
Definition render (g : Game) : Game :=
  set_xwing (fun x => mkXWing (xw_position x) (xw_rotation x) (xw_visible x)
                              (xw_position x, xw_rotation x)) g.

(** [animate], the callback of [requestAnimationFrame]; [deltaTime] is
    [clock.getDelta()].  An exception in [updateEnvironment] ends the frame
    where it is raised. *)
Definition animate (deltaTime currentTime : Q) (g : Game) : Game :=
  if isGameOver (gameState g) then g
  else
    let g1 := updateShipPhysics deltaTime currentTime g in
    match updateEnvironment deltaTime g1 with
    | (g2, Thrown) => g2
    | (g2, Normal) =>
        let g3 := env_updateEnemies deltaTime g2 in
        let g4 := updateLasers deltaTime g3 in
        let g5 := updateExplosions deltaTime g4 in
        render g5
    end.

(** ** Events *)

Inductive Key :=
  | Kw | Ka | Ks | Kd | Kq | Ke | Kf
  | KArrowUp | KArrowDown | KArrowLeft | KArrowRight | Kspace
  | Kother.

(** [keys[k] = b] when [keys] has the property. *)
Definition setKey (k : Key) (b : bool) (ks : Keys) : Keys :=
  match k with
  | Kw => mkKeys b (k_a ks) (k_s ks) (k_d ks) (k_q ks) (k_e ks) (k_f ks)
            (k_ArrowUp ks) (k_ArrowDown ks) (k_ArrowLeft ks) (k_ArrowRight ks)
            (k_space ks)
  | Ka => mkKeys (k_w ks) b (k_s ks) (k_d ks) (k_q ks) (k_e ks) (k_f ks)
            (k_ArrowUp ks) (k_ArrowDown ks) (k_ArrowLeft ks) (k_ArrowRight ks)
            (k_space ks)
  | Ks => mkKeys (k_w ks) (k_a ks) b (k_d ks) (k_q ks) (k_e ks) (k_f ks)
            (k_ArrowUp ks) (k_ArrowDown ks) (k_ArrowLeft ks) (k_ArrowRight ks)
            (k_space ks)
  | Kd => mkKeys (k_w ks) (k_a ks) (k_s ks) b (k_q ks) (k_e ks) (k_f ks)
            (k_ArrowUp ks) (k_ArrowDown ks) (k_ArrowLeft ks) (k_ArrowRight ks)
            (k_space ks)
  | Kq => mkKeys (k_w ks) (k_a ks) (k_s ks) (k_d ks) b (k_e ks) (k_f ks)
            (k_ArrowUp ks) (k_ArrowDown ks) (k_ArrowLeft ks) (k_ArrowRight ks)
            (k_space ks)
  | Ke => mkKeys (k_w ks) (k_a ks) (k_s ks) (k_d ks) (k_q ks) b (k_f ks)
            (k_ArrowUp ks) (k_ArrowDown ks) (k_ArrowLeft ks) (k_ArrowRight ks)
            (k_space ks)
  | Kf => mkKeys (k_w ks) (k_a ks) (k_s ks) (k_d ks) (k_q ks) (k_e ks) b
            (k_ArrowUp ks) (k_ArrowDown ks) (k_ArrowLeft ks) (k_ArrowRight ks)
            (k_space ks)
  | KArrowUp => mkKeys (k_w ks) (k_a ks) (k_s ks) (k_d ks) (k_q ks) (k_e ks)
            (k_f ks) b (k_ArrowDown ks) (k_ArrowLeft ks) (k_ArrowRight ks)
            (k_space ks)
  | KArrowDown => mkKeys (k_w ks) (k_a ks) (k_s ks) (k_d ks) (k_q ks) (k_e ks)
            (k_f ks) (k_ArrowUp ks) b (k_ArrowLeft ks) (k_ArrowRight ks)
            (k_space ks)
  | KArrowLeft => mkKeys (k_w ks) (k_a ks) (k_s ks) (k_d ks) (k_q ks) (k_e ks)
            (k_f ks) (k_ArrowUp ks) (k_ArrowDown ks) b (k_ArrowRight ks)
            (k_space ks)
  | KArrowRight => mkKeys (k_w ks) (k_a ks) (k_s ks) (k_d ks) (k_q ks) (k_e ks)
            (k_f ks) (k_ArrowUp ks) (k_ArrowDown ks) (k_ArrowLeft ks) b
            (k_space ks)
  | Kspace => mkKeys (k_w ks) (k_a ks) (k_s ks) (k_d ks) (k_q ks) (k_e ks)
            (k_f ks) (k_ArrowUp ks) (k_ArrowDown ks) (k_ArrowLeft ks)
            (k_ArrowRight ks) b
  | Kother => ks
  end.

(** The [keydown] listener. *)
Definition onKeyDown (k : Key) (currentTime : Q) (g : Game) : Game :=
  let g1 := set_keys (setKey k true) g in
  let g2 :=
    match k with
    | Kq => if br_active (barrelRoll (shipState g1)) then g1
            else startBarrelRoll (-1) g1
    | Ke => if br_active (barrelRoll (shipState g1)) then g1
            else startBarrelRoll 1 g1
    | _ => g1
    end in
  match k with
  | Kf => fireLaser currentTime g2
  | _ => g2
  end.

(** The callback of the [setTimeout] set on a hit. *)
Definition onGraceTimeout (g : Game) : Game :=
  match graceTimers g with
  | O => g
  | S n => set_graceTimers (fun _ => n)
             (set_shipState (set_invulnerable false) g)
  end.

(** What the browser can deliver: a frame, a key going down or up, a touch
    button of the mobile controls, the fire button, an expiring grace
    timer. *)
Inductive Event :=
  | Frame (deltaTime currentTime : Q)
  | KeyDown (k : Key) (currentTime : Q)
  | KeyUp (k : Key)
  | Touch (k : Key) (pressed : bool)
  | FireButton (currentTime : Q)
  | GraceTimeout.

Definition step (ev : Event) (g : Game) : Game :=
  match ev with
  | Frame deltaTime currentTime => animate deltaTime currentTime g
  | KeyDown k currentTime => onKeyDown k currentTime g
  | KeyUp k => set_keys (setKey k false) g
  | Touch k pressed => set_keys (setKey k pressed) g
  | FireButton currentTime => fireLaser currentTime g
  | GraceTimeout => onGraceTimeout g
  end.

Definition run (evs : list Event) (g : Game) : Game :=
  fold_left (fun g ev => step ev g) evs g.

(** ** Building the world *)

(** [new THREE.Mesh(...)] placed at [p]: the next free index of the store. *)
Definition newMesh (p : Vector3) (e : Env) : MeshId * Env :=
  (length (meshPosition e), set_meshPosition (fun l => l ++ [p]) e).

(** [EnvironmentManager.createPlanet]; the planet type and the colour only
    choose the material. *)
Definition createPlanet (x y z radius : Q) (g : Game) : Game :=
  let '(m, e1) := newMesh (mkV x y z) (env g) in
  let e2 := set_planets
              (fun l => l ++ [mkPlanet m radius (random (randCalls g) * 0.005)])
              e1 in
  let e3 := set_collisionObjects
              (fun l => l ++ [mkCollisionObject m m radius planet]) e2 in
  set_randCalls Datatypes.S (set_env (fun _ => e3) g).

(** One round of the loop of [createAsteroidField]: thirteen random draws. *)
Definition createAsteroid (centerX centerY centerZ radius : Q) (g : Game)
    : Game :=
  let k := randCalls g in
  let angle := random k * PI * 2 in
  let distance := random (k + 1) * radius in
  let x := centerX + cos angle * distance in
  let y := centerY + (random (k + 2) - 0.5) * radius in
  let z := centerZ + sin angle * distance in
  let scale := 2 + random (k + 3) * 8 in
  let '(m, e1) := newMesh (mkV x y z) (env g) in
  let e2 := set_asteroids (fun l => l ++
      [mkAsteroid m scale
         (mkV (random (k + 7) * 0.02 - 0.01) (random (k + 8) * 0.02 - 0.01)
              (random (k + 9) * 0.02 - 0.01))
         (mkV (random (k + 10) * 0.1 - 0.05) (random (k + 11) * 0.1 - 0.05)
              (random (k + 12) * 0.1 - 0.05))]) e1 in
  let e3 := set_collisionObjects
              (fun l => l ++ [mkCollisionObject m m scale asteroid]) e2 in
  set_randCalls (fun _ => (k + 13)%nat) (set_env (fun _ => e3) g).

Definition createAsteroidField (centerX centerY centerZ radius : Q)
    (count : nat) (g : Game) : Game :=
  for_up count 0 (fun _ => createAsteroid centerX centerY centerZ radius) g.

(** [EnvironmentManager.createDeathStar] *)
Definition createDeathStar (g : Game) : Game :=
  let '(m, e1) := newMesh (mkV 0 0 (-2000)) (env g) in
  let e2 := set_deathStar (fun _ => Some m) e1 in
  let e3 := set_collisionObjects
              (fun l => l ++ [mkCollisionObject m m 300 deathstar]) e2 in
  set_env (fun _ => e3) g.

(** [EnvironmentManager.createTieFighter]: the fighter goes on [this.targets]
    and nowhere else. *)
Definition createTieFighter (x y z : Q) (g : Game) : Game :=
  let k := randCalls g in
  let t := mkTarget (mkV x y z) (mkE 0 0 0) 8 50%Z
             (mkV (random k * 0.2 - 0.1) (random (k + 1) * 0.1 - 0.05)
                  (random (k + 2) * 0.2 - 0.1))
             (mkV (random (k + 3) * 0.01) (random (k + 4) * 0.01)
                  (random (k + 5) * 0.01)) in
  set_randCalls (fun _ => (k + 6)%nat)
    (set_env (set_env_targets (fun l => l ++ [t])) g).

(** [EnvironmentManager.createEnemyFighters] *)
Definition createEnemyFighters (g : Game) : Game :=
  for_up 10 0 (fun _ g =>
      let k := randCalls g in
      createTieFighter (random k * 400 - 200) (random (k + 1) * 200 - 100)
                       (random (k + 2) * -800 - 200)
        (set_randCalls (fun _ => (k + 3)%nat) g)) g.

(** The state before [init]. *)
Definition emptyGame : Game :=
  mkGame (mkShip V.zero (mkE 0 0 0) V.zero 0 (mkBarrelRoll false 1 0)
                 false 100%Z 0)
         (mkGameState false 0%Z)
         (mkKeys false false false false false false false
                 false false false false false)
         (mkXWing V.zero (mkE 0 0 0) true (V.zero, mkE 0 0 0))
         [] [] []
         (mkEnv [] [] [] [] None [] [])
         (mkUI false false "Your X-Wing has been destroyed!" 0%Z 0%Z)
         0 0.

(** [initUI], as far as the simulation sees it. *)
Definition initUI (g : Game) : Game :=
  set_ui (fun u => mkUI true false (gameOverMessage u) (scoreValue u)
                        (liveScoreValue u)) g.

(** [init] *)
Definition init : Game :=
  let g1 := createPlanet (-500) 100 (-1000) 100 emptyGame in
  let g2 := createPlanet 800 (-50) (-1200) 150 g1 in
  let g3 := createPlanet 200 300 (-800) 80 g2 in
  let g4 := createAsteroidField 0 0 (-500) 300 50 g3 in
  let g5 := createDeathStar g4 in
  let g6 := createEnemyFighters g5 in
  initUI g6.

End Simulation.

(** ** The speed display *)

(** What [updateSpeedDisplay] writes: the width and the left offset of the
    fill of the meter, in percent of the meter, its colour, the number shown
    before [MGLT], and the direction shown under it. *)
Record SpeedMeter := mkSpeedMeter {
  sm_width : Q;
  sm_left : Q;
  sm_color : string;
  sm_value : Z;
  sm_direction : string
}.

(** [Math.round]: the nearest integer, halves upwards. *)
Definition round (x : Q) : Z := Qfloor (x + 0.5).

(** [updateSpeedDisplay]; it returns at once while [initUI] has not created
    the elements of the meter. *)
Definition updateSpeedDisplay (g : Game) : option SpeedMeter :=
  if negb (gameOverScreen (ui g)) then None
  else
    let speedPercent := currentSpeed (shipState g) / maxForwardSpeed in
    let forward := Qle_bool 0 speedPercent in
    let width :=
      if forward then speedPercent * 50 else Qabs speedPercent * 50 in
    let left := if forward then 50 else 50 - Qabs speedPercent * 50 in
    let color := if forward then "#00ff00"%string else "#ff3300"%string in
    let speedValue := Z.abs (round (speedPercent * 100)) in
    let direction := if forward then "FORWARD"%string else "REVERSE"%string in
    Some (mkSpeedMeter width left color speedValue direction).

(** ** The music *)

Module Audio.

(** An [AudioManager]: [music] is [None] until the file has been loaded and
    then holds whether the [THREE.Audio] is playing. *)
Record AudioManager := mkAudioManager {
  music : option bool;
  isMusicMuted : bool
}.

(** The constructor. *)
Definition create : AudioManager := mkAudioManager None false.

Definition playMusic (a : AudioManager) : AudioManager :=
  match music a with
  | Some false => mkAudioManager (Some true) (isMusicMuted a)
  | _ => a
  end.

(** The callback that [loadMusic] passes to the loader. *)
Definition onLoad (a : AudioManager) : AudioManager :=
  let a1 := mkAudioManager (Some false) (isMusicMuted a) in
  if negb (isMusicMuted a1) then playMusic a1 else a1.

(** [toggleMusic] with the value it returns. *)
Definition toggleMusic (a : AudioManager) : AudioManager * bool :=
  match music a with
  | Some _ =>
      if isMusicMuted a then (mkAudioManager (Some true) false, false)
      else (mkAudioManager (Some false) true, true)
  | None => (a, isMusicMuted a)
  end.

(** The manager together with the music icon of the page, which shows a
    muted or an unmuted loudspeaker. *)
Record Page := mkPage { manager : AudioManager; iconMuted : bool }.

(** The page as [init] leaves it. *)
Definition start : Page := mkPage create false.

(** [toggleMusic] of main.js, the click handler of the icon. *)
Definition clickMusicIcon (p : Page) : Page :=
  let '(a, isMuted) := toggleMusic (manager p) in mkPage a isMuted.

(** What happens to the music: the loader completes, or the icon is
    clicked.  Nothing else calls into the manager. *)
Inductive Event := Loaded | Click.

Definition step (ev : Event) (p : Page) : Page :=
  match ev with
  | Loaded => mkPage (onLoad (manager p)) (iconMuted p)
  | Click => clickMusicIcon p
  end.

Definition run (evs : list Event) (p : Page) : Page :=
  fold_left (fun p ev => step ev p) evs p.

(** The icon shows the mute flag, and the music, once loaded, plays exactly
    when it is not muted. *)
Definition inTune (p : Page) : Prop :=
  iconMuted p = isMusicMuted (manager p) /\
  match music (manager p) with
  | Some playing => playing = negb (isMusicMuted (manager p))
  | None => isMusicMuted (manager p) = false
  end.

End Audio.

(** ** Trajectories and distances, as propositions *)

(** The square of [distanceTraveled]: the distance is not negative, so it
    grows exactly when its square does. *)
Definition traveledSq (l : Laser) : Q :=
  V.distanceSq (l_position l) (l_startPosition l).

(** A projectile [n] frames after its creation: one [advanceLaser] per
    frame, oldest frame first. *)
Definition flight (deltas : list Q) (l : Laser) : Laser :=
  fold_left (fun l deltaTime => advanceLaser deltaTime l) deltas l.

(** A projectile that sits on the ray from its start along its velocity. *)
Definition onRay (l : Laser) : Prop :=
  exists T : Q, 0 <= T /\
    vx (l_position l) == vx (l_startPosition l) + T * vx (l_velocity l) /\
    vy (l_position l) == vy (l_startPosition l) + T * vy (l_velocity l) /\
    vz (l_position l) == vz (l_startPosition l) + T * vz (l_velocity l).

Definition speedInRange (g : Game) : Prop :=
  maxReverseSpeed <= currentSpeed (shipState g) /\
  currentSpeed (shipState g) <= maxForwardSpeed.

(** What the game-over freeze is about: the health and position of the ship,
    the score, and every fighter and hazard with its health and position. *)
Definition simulated (g : Game) : Z * Vector3 * Z * list Target * Env :=
  (health (shipState g), position (shipState g), score (gameState g),
   targets g, env g).

(** [a.distanceTo(b) < r], as a proposition. *)
Definition within (a b : Vector3) (r : Q) : Prop :=
  0 < r /\ V.distanceSq a b < r * r.

(** No collision object of the list reaches the ship. *)
Definition clearOf (g : Game) (objs : list CollisionObject) : Prop :=
  Forall (fun o => ~ within (position (shipState g))
                      (deref (env g) (c_position o))
                      (collisionRadius + c_radius o)) objs.

(** The barrel roll ends in the coming frame. *)
Definition rollCompletes (g : Game) : Prop :=
  br_active (barrelRoll (shipState g)) = true /\
  barrelRoll_duration <= br_progress (barrelRoll (shipState g)) + barrelRoll_speed.

(** [distanceTraveled >= laser.maxDistance] after the advance by
    [deltaTime], on squares. *)
Definition expires (deltaTime : Q) (l : Laser) : Prop :=
  l_maxDistance l <= 0 \/
  l_maxDistance l * l_maxDistance l <= traveledSq (advanceLaser deltaTime l).

(** ** The states the game can reach *)

(** Every projectile in flight is the player's. *)
Definition playerOwned (ls : list Laser) : Prop :=
  Forall (fun l => l_isEnemy l = false) ls.

(** No enemy fire anywhere: no enemy projectile, no grace timer pending, no
    fighter in the module-level [targets], and the ship invulnerable exactly
    while it rolls. *)
Definition peaceful (g : Game) : Prop :=
  playerOwned (lasers g) /\ graceTimers g = 0%nat /\ targets g = [] /\
  invulnerable (shipState g) = br_active (barrelRoll (shipState g)).

(** Full health, or none and the game over. *)
Definition unhurt (g : Game) : Prop :=
  health (shipState g) = 100%Z \/
  (health (shipState g) = 0%Z /\ isGameOver (gameState g) = true).

(** What the environment and the projectiles leave alone in a frame. *)
Definition pilot (g : Game) :=
  (shipState g, isGameOver (gameState g), keys g, targets g, graceTimers g,
   xw_position (xwing g), xw_rotation (xwing g)).

(** What building the world leaves alone. *)
Definition cockpit (g : Game) :=
  (shipState g, gameState g, keys g, xwing g, lasers g, explosions g,
   targets g, graceTimers g).

(** Where the ship is and how it moves. *)
Definition motion (g : Game) :=
  (velocity (shipState g), rotation (shipState g), position (shipState g),
   currentSpeed (shipState g), xw_position (xwing g)).

(** The number of frames among the events. *)
Fixpoint frames (evs : list Event) : nat :=
  match evs with
  | [] => O
  | Frame _ _ :: rest => S (frames rest)
  | _ :: rest => frames rest
  end.

(** A barrel roll that has been updated [k] times since it started. *)
Definition rolling (k : nat) (g : Game) : Prop :=
  br_active (barrelRoll (shipState g)) = true /\
  br_progress (barrelRoll (shipState g)) ==
    inject_Z (Z.of_nat k) * barrelRoll_speed.

(** The clock reading of an event, when it has one, is before [limit]. *)
Definition clockBefore (limit : Q) (ev : Event) : Prop :=
  match ev with
  | Frame _ t | KeyDown _ t | FireButton t => t < limit
  | _ => True
  end.

(** The time that has passed over the frames [ds]. *)
Definition elapsed (ds : list Q) : Q := fold_right Qplus 0 ds.

(** The bursts of [l] after the frames [ds], oldest frame first. *)
Definition explosionsAfter (ds : list Q) (l : list Explosion)
    : list Explosion :=
  fold_left (fun l d => updateExplosionList d l) ds l.

(** A burst [e'] is the burst [e] aged by [t]. *)
Definition agedBy (t : Q) (e' e : Explosion) : Prop :=
  e_position e' = e_position e /\ e_color e' = e_color e /\
  e_lifetime e' = e_lifetime e /\ e_originalSize e' = e_originalSize e /\
  e_age e' == e_age e + t.

(** A particle of a fresh burst: within a quarter of a unit of the centre
    on each axis, and no faster than 1.75 on each axis. *)
Definition particleInBounds (p : Particle) : Prop :=
  (-0.25 <= vx (pt_offset p) <= 0.25 /\ -0.25 <= vy (pt_offset p) <= 0.25 /\
   -0.25 <= vz (pt_offset p) <= 0.25) /\
  (-1.75 <= vx (pt_velocity p) <= 1.75 /\ -1.75 <= vy (pt_velocity p) <= 1.75 /\
   -1.75 <= vz (pt_velocity p) <= 1.75).

(** ** The collision list and the hazards *)

(** The collision object that [createPlanet], [createAsteroidField] and
    [createDeathStar] register for a hazard: at the mesh of the hazard, with
    its radius. *)
Definition planetSphere (p : Planet) : CollisionObject :=
  mkCollisionObject (p_mesh p) (p_mesh p) (p_radius p) planet.

Definition asteroidSphere (a : Asteroid) : CollisionObject :=
  mkCollisionObject (a_mesh a) (a_mesh a) (a_radius a) asteroid.

Definition deathStarSphere (d : option MeshId) : list CollisionObject :=
  match d with
  | Some m => [mkCollisionObject m m 300 deathstar]
  | None => []
  end.

(** The collision list is the planets, then the asteroids in the order of
    [asteroids], then the Death Star; no mesh occurs twice and every mesh is
    one of the store. *)
Definition aligned (e : Env) : Prop :=
  collisionObjects e =
    map planetSphere (planets e) ++ map asteroidSphere (asteroids e) ++
    deathStarSphere (deathStar e) /\
  NoDup (map c_mesh (collisionObjects e)) /\
  Forall (fun o => (c_mesh o < length (meshPosition e))%nat)
         (collisionObjects e).

(** The hazards of an environment, without where they are. *)
Definition hazards (e : Env) :=
  (planets e, asteroids e, collisionObjects e, deathStar e,
   length (meshPosition e)).

(** The mesh of the ship is where the ship is, heads where it heads, and
    its world matrix is up to date. *)
Definition poseCurrent (g : Game) : Prop :=
  xw_world (xwing g) = (xw_position (xwing g), xw_rotation (xwing g)) /\
  xw_position (xwing g) = position (shipState g) /\
  ey (xw_rotation (xwing g)) = ey (rotation (shipState g)).

(** ** The score and what is left to shoot *)

(** Everything but the environment and the random counter. *)
Definition cabin (g : Game) :=
  (shipState g, gameState g, keys g, xwing g, lasers g, explosions g,
   targets g, ui g, graceTimers g).

(** The score plus what the fighters and asteroids left are worth. *)
Definition ledger (g : Game) : Z :=
  (score (gameState g) +
   100 * Z.of_nat (length (env_targets (env g))) +
   25 * Z.of_nat (length (asteroids (env g))))%Z.

(** From [g] to [g'] no fighter and no asteroid has been added, and the
    score has grown by 100 for each fighter and 25 for each asteroid that
    has gone. *)
Definition tally (g g' : Game) : Prop :=
  (length (env_targets (env g')) <= length (env_targets (env g)))%nat /\
  (length (asteroids (env g')) <= length (asteroids (env g)))%nat /\
  ledger g' = ledger g.

(** The live score display shows the score. *)
Definition shown (g : Game) : Prop :=
  gameOverScreen (ui g) = true /\
  liveScoreValue (ui g) = score (gameState g).

(** A projectile as [fireLaser] makes it. *)
Definition standardIssue (l : Laser) : Prop :=
  l_damage l = laserDamage /\ l_maxDistance l = laserRange /\
  l_distance l = 0 /\ l_isEnemy l = false.

(** A fighter that has taken no hit or one. *)
Definition inFight (t : Target) : Prop :=
  t_health t = 50%Z \/ t_health t = 25%Z.

(** The number of fighters and of asteroids, and the score. *)
Definition census (g : Game) :=
  (length (env_targets (env g)), length (asteroids (env g)),
   score (gameState g)).

(** What the score display depends on. *)
Definition board (g : Game) :=
  (gameOverScreen (ui g), liveScoreValue (ui g), score (gameState g)).

(** The game-over screen and whether the ship is drawn. *)
Definition panel (g : Game) :=
  (gameOverScreen (ui g), gameOverDisplayed (ui g), gameOverMessage (ui g),
   xw_visible (xwing g)).

(** The game is over with [message] on the screen and the ship hidden. *)
Definition ended (message : string) (g : Game) : Prop :=
  isGameOver (gameState g) = true /\
  gameOverDisplayed (ui g) = true /\
  gameOverMessage (ui g) = message /\
  xw_visible (xwing g) = false.

(** The game goes on with the ship intact and drawn, or it has ended in one
    of three ways. *)
Definition outcome (g : Game) : Prop :=
  (isGameOver (gameState g) = false /\ gameOverDisplayed (ui g) = false /\
   xw_visible (xwing g) = true /\ health (shipState g) = 100%Z) \/
  (health (shipState g) = 0%Z /\
   ended "Your X-Wing was destroyed by an asteroid!" g) \/
  (health (shipState g) = 0%Z /\
   ended "Your X-Wing crashed into a planet!" g) \/
  (health (shipState g) = 100%Z /\
   ended "Mission Complete! You've reached the Death Star!" g).

(** Every projectile is of standard issue and every fighter is in the
    fight. *)
Definition armed (g : Game) : Prop :=
  Forall standardIssue (lasers g) /\ Forall inFight (env_targets (env g)).

(** ** Where the hazards are *)

(** The meshes that are never moved: those of the planets and that of the
    Death Star. *)
Definition landmarks (e : Env) : list MeshId :=
  map p_mesh (planets e) ++
  match deathStar e with Some m => [m] | None => [] end.

(** The planets, the Death Star, and where they are. *)
Definition skyline (e : Env) :=
  (planets e, deathStar e, map (fun m => meshPosition e !! m) (landmarks e)).

(** The centre of the asteroid field. *)
Definition fieldCentre : Vector3 := mkV 0 0 (-500).

(** An asteroid that is not farther than 500 from the centre of the field. *)
Definition inField (e : Env) (a : Asteroid) : Prop :=
  V.distGt (deref e (a_mesh a)) fieldCentre 500 = false.

(** The environment has the three planets of [init], the Death Star [d],
    and a store that starts with the places of the planets and goes on with
    [ext]. *)
Definition threePlanets (d : option MeshId) (ext : list Vector3) (e : Env)
    : Prop :=
  exists r0 r1 r2,
    planets e = [mkPlanet 0%nat 100 r0; mkPlanet 1%nat 150 r1;
                 mkPlanet 2%nat 80 r2] /\
    deathStar e = d /\
    meshPosition e =
      [mkV (-500) 100 (-1000); mkV 800 (-50) (-1200); mkV 200 300 (-800)] ++ ext.

(** The platform is a fair one: its sine and cosine satisfy the Pythagorean
    identity and [Math.random] returns numbers from 0 up to 1. *)
Definition fairPlatform `{Platform} : Prop :=
  (forall x, cos x * cos x + sin x * sin x == 1) /\
  (forall n, 0 <= random n < 1).

(** Every asteroid is in the field. *)
Definition rocksIn (e : Env) : Prop := Forall (inField e) (asteroids e).

(** The fighter [t'] is the fighter [t] one frame later: moved by its
    velocity and spun by its rotation, with the health and the radius it
    had. *)
Definition flownFrom (t' t : Target) : Prop :=
  t_position t' = V.add (t_position t) (t_velocity t) /\
  t_meshRotation t' =
    mkE (ex (t_meshRotation t) + vx (t_rotation t))
        (ey (t_meshRotation t) + vy (t_rotation t))
        (ez (t_meshRotation t) + vz (t_rotation t)) /\
  t_health t' = t_health t /\ t_radius t' = t_radius t /\
  t_rotation t' = t_rotation t.

(** ** The bank of the ship *)

(** Outside a barrel roll the mesh is banked by no more than half a
    radian. *)
Definition banked (g : Game) : Prop :=
  br_active (barrelRoll (shipState g)) = false ->
  -0.5 <= ez (xw_rotation (xwing g)) <= 0.5.

(** ** Projectiles in flight *)

(** [distanceTraveled >= laser.maxDistance] is false after the advance by
    [deltaTime]: the projectile is still short of its range. *)
Definition inRange (deltaTime : Q) (l : Laser) : bool :=
  V.distLt (l_position (advanceLaser deltaTime l)) (l_startPosition l)
           (l_maxDistance l).

(** After its advance by [deltaTime] the projectile is inside no fighter and
    no asteroid of [g]: both hit tests of [updateLasers] are false for it. *)
Definition hitsNothing (deltaTime : Q) (g : Game) (l : Laser) : Prop :=
  Forall (fun t => ~ within (l_position (advanceLaser deltaTime l))
                      (t_position t) (t_radius t))
         (env_targets (env g)) /\
  Forall (fun a => ~ within (l_position (advanceLaser deltaTime l))
                      (deref (env g) (a_mesh a)) (a_radius a))
         (asteroids (env g)).

(** A projectile as a frame leaves it: on its ray and short of its range. *)
Definition inFlight (l : Laser) : Prop :=
  onRay l /\ within (l_position l) (l_startPosition l) (l_maxDistance l).

(** [clock.getDelta()] is never negative. *)
Definition forwardInTime (ev : Event) : Prop :=
  match ev with
  | Frame deltaTime _ => 0 <= deltaTime
  | _ => True
  end.

(** ** Concrete inputs *)

(** A platform for evaluating examples: [Math.random()] always returns [r];
    the other functions are exact on what the examples feed them, which is a
    ship that is not rotated, vectors along one axis and the angle 0. *)
Definition axisNormalize (v : Vector3) : Vector3 :=
  let n := Qabs (vx v) + Qabs (vy v) + Qabs (vz v) in
  if Qeq_bool n 0 then v else V.multiplyScalar v (/ n).

Definition examplePlatform (r : Q) : Platform :=
  {| random := fun _ => r;
     normalize := axisNormalize;
     cos := fun _ => 1;
     sin := fun _ => 0;
     applyEuler := fun _ v => v;
     localToWorld := fun pose v => V.add (fst pose) v |}.

(** The state after [initUI] with nothing else in the world. *)
Definition bareGame : Game := initUI emptyGame.

Definition fighterAt (p : Vector3) (h : Z) : Target :=
  mkTarget p (mkE 0 0 0) 8 h V.zero V.zero.

(** One asteroid of radius [r] at [p], with its collision object. *)
Definition oneAsteroid (p : Vector3) (r : Q) (g : Game) : Game :=
  set_env (fun e =>
    mkEnv [p] [] [mkAsteroid 0%nat r V.zero V.zero]
          [mkCollisionObject 0%nat 0%nat r asteroid] None (env_targets e)
          (env_explosions e)) g.

(** The scenario of the collision resolver: the ship at the origin, an
    asteroid of radius 2 at distance 3. *)
Definition asteroidAhead : Game := oneAsteroid (mkV 3 0 0) 2 bareGame.

(** A player laser fired from the nose that has reached [p] flying along
    [v]. *)
Definition playerLaser (p v : Vector3) : Laser :=
  mkLaser p v (mkV 0 0 (-3)) 0 laserRange laserDamage false.

(** The frame in which the ship dies on the asteroid while a player laser is
    about to reach a fighter with 25 health left. *)
Definition dyingFrame : Game :=
  set_lasers (fun _ => [playerLaser (mkV 0 0 (-49)) (mkV 0 0 (-500))])
    (set_env (set_env_targets (fun _ => [fighterAt (mkV 0 0 (-50)) 25]))
       asteroidAhead).

(** A state that is over, with a laser in front of a fighter. *)
Definition overWithLaser : Game :=
  set_gameState (fun gs => mkGameState true (score gs))
    (set_lasers (fun _ => [playerLaser (mkV 0 0 (-49)) (mkV 0 0 (-500))])
       (set_env (set_env_targets (fun _ => [fighterAt (mkV 0 0 (-50)) 50]))
          bareGame)).

(** Two player lasers in flight; the first is one step away from a point that
    lies inside a fighter and inside an asteroid, the second flies off to the
    side. *)
Definition twoLasers : Game :=
  set_lasers (fun _ => [playerLaser (mkV 0 0 (-45)) (mkV 0 0 (-500));
                        playerLaser (mkV 100 0 (-3)) (mkV 500 0 0)])
    (set_env (set_env_targets (fun _ => [fighterAt (mkV 0 0 (-50)) 50]))
       (oneAsteroid (mkV 0 0 (-50)) 5 bareGame)).

(** A fighter with 10 health that has just fired at the ship. *)
Definition enemyHasFired : Game :=
  @createEnemyLaser (examplePlatform 0.5) (fighterAt (mkV 0 0 (-50)) 10)
    (set_env (set_env_targets (fun _ => [fighterAt (mkV 0 0 (-50)) 10]))
       bareGame).

(** Two enemy lasers, fired from 3 and from 2 units in front of the ship. *)
Definition underFire : Game :=
  @createEnemyLaser (examplePlatform 0.5) (fighterAt (mkV 0 0 (-2)) 50)
    (@createEnemyLaser (examplePlatform 0.5) (fighterAt (mkV 0 0 (-3)) 50)
       bareGame).

(** The ship inside the sphere of a fighter, nothing else around. *)
Definition insideFighter : Game :=
  set_env (set_env_targets (fun _ => [fighterAt (mkV 1 0 0) 50])) bareGame.

(** A fighter, not registered with the environment, fires from inside an
    asteroid. *)
Definition enemyFiresInAsteroid : Game :=
  @createEnemyLaser (examplePlatform 0) (fighterAt (mkV 0 0 (-50)) 50)
    (oneAsteroid (mkV 0 0 (-50)) 5 bareGame).

(** The ship, invulnerable, within reach of an asteroid and of two enemy
    lasers. *)
Definition shielded : Game :=
  set_shipState (set_invulnerable true)
    (oneAsteroid (mkV 3 0 0) 2 underFire).

(** A player laser at its start, 200 units and 0.4 seconds at speed 500 away
    from a fighter that sits exactly where the range ends. *)
Definition expiryScenario : Game :=
  set_lasers (fun _ => [playerLaser (mkV 0 0 (-3)) (mkV 0 0 (-500))])
    (set_env (set_env_targets (fun _ => [fighterAt (mkV 0 0 (-203)) 50]))
       bareGame).

(** Thrust forward held down for three frames, then released. *)
Definition thrustThenCoast : list Event :=
  [KeyDown Kw 0; Frame 0.016 0.016; Frame 0.016 0.032; Frame 0.016 0.048;
   KeyUp Kw; Frame 0.016 0.064].

(** A hit by an enemy laser, then a roll to the right within the second of
    grace, then the grace timer. *)
Definition hitThenRoll : list Event :=
  [Frame 0.016 1; KeyDown Ke 1.5; GraceTimeout].

(** A roll to the right has just been started. *)
Definition rollStarted : Game := startBarrelRoll 1 bareGame.

(** Two frames of a roll, with the other roll key pressed in between. *)
Definition rollInterrupted : list Event :=
  [Frame 0.016 0.016; KeyDown Kq 0.02; Frame 0.016 0.032].

(** A shot at time 1, then the fire key, a frame with the key held and the
    fire button, all within a quarter of a second. *)
Definition justFired : Game :=
  @fireLaser (examplePlatform 0.5) 1 bareGame.

Definition hammeringFire : list Event :=
  [KeyDown Kf 1.1; Frame 0.016 1.116; FireButton 1.2].

(** Two bursts: one fresh, one 0.9 seconds old. *)
Definition twoBursts : list Explosion :=
  [@newExplosion (examplePlatform 0.5) 0 V.zero 2 16711680%Z;
   mkExplosion (mkV 1 0 0) 16711680%Z [] 0.9 1 2 2 0.1 1.1].

(** The ship 300 units in front of the centre of the Death Star, behind a
    planet of radius 100 that is 200 units away. *)
Definition deathStarAhead : Game :=
  set_env (fun e =>
    mkEnv [mkV 200 0 0; mkV 0 0 (-300)] [mkPlanet 0%nat 100 0] []
          [mkCollisionObject 0%nat 0%nat 100 planet;
           mkCollisionObject 1%nat 1%nat 300 deathstar]
          (Some 1%nat) (env_targets e) (env_explosions e)) bareGame.

(** * Properties *)

(** ** Comparisons *)

Lemma Qltb_lt (x y : Q) : Qltb x y = true <-> x < y.
Proof.
  unfold Qltb. rewrite negb_true_iff. split.
  - intros Hb. apply Qnot_le_lt. intros Hle.
    apply Qle_bool_iff in Hle. congruence.
  - intros Hlt. destruct (Qle_bool y x) eqn:E; [| reflexivity].
    apply Qle_bool_iff in E. lra.
Qed.

Lemma Qltb_ge (x y : Q) : Qltb x y = false <-> y <= x.
Proof.
  unfold Qltb. rewrite negb_false_iff. apply Qle_bool_iff.
Qed.

Lemma Qmin'_spec (x y : Q) : Qmin' x y <= x /\ Qmin' x y <= y /\
  (Qmin' x y == x \/ Qmin' x y == y).
Proof.
  unfold Qmin'. destruct (Qle_bool x y) eqn:E.
  - apply Qle_bool_iff in E. repeat split; lra.
  - assert (~ x <= y) by (rewrite <- Qle_bool_iff; congruence).
    repeat split; lra.
Qed.

Lemma Qmax'_spec (x y : Q) : x <= Qmax' x y /\ y <= Qmax' x y /\
  (Qmax' x y == x \/ Qmax' x y == y).
Proof.
  unfold Qmax'. destruct (Qle_bool x y) eqn:E.
  - apply Qle_bool_iff in E. repeat split; lra.
  - assert (~ x <= y) by (rewrite <- Qle_bool_iff; congruence).
    repeat split; lra.
Qed.

Section Properties.
Context `{Platform}.

(** ** Firing and the cooldown *)

(** C6. A fire request made less than [shootCooldown] after the last shot
    changes nothing at all; any other request appends exactly one projectile,
    a player's, at the end of [lasers] and sets [lastShotTime] to the clock
    value read.  With the last shot at 0 and the clock at 0.1 the request is
    dropped. *)
Theorem fireLaser_cooldown (currentTime : Q) (g : Game) :
  (currentTime - lastShotTime (shipState g) < shootCooldown ->
     fireLaser currentTime g = g) /\
  (~ currentTime - lastShotTime (shipState g) < shootCooldown ->
     (exists l, lasers (fireLaser currentTime g) = lasers g ++ [l] /\
                l_isEnemy l = false) /\
     length (lasers (fireLaser currentTime g)) = S (length (lasers g)) /\
     lastShotTime (shipState (fireLaser currentTime g)) = currentTime) /\
  (lastShotTime (shipState g) == 0 -> shootCooldown == 0.25 /\
     fireLaser 0.1 g = g).
Proof.
  split; [| split].
  - intros Hlt. unfold fireLaser.
    apply Qltb_lt in Hlt. rewrite Hlt. reflexivity.
  - intros Hge. unfold fireLaser.
    destruct (Qltb _ _) eqn:E; [apply Qltb_lt in E; contradiction |].
    cbn. split; [eexists; split; reflexivity |].
    split; [| reflexivity].
    rewrite length_app. cbn. lia.
  - intros H0. split; [reflexivity |]. unfold fireLaser.
    assert (Hlt : 0.1 - lastShotTime (shipState g) < shootCooldown).
    { rewrite H0. reflexivity. }
    apply Qltb_lt in Hlt. rewrite Hlt. reflexivity.
Qed.

(** ** The collision resolver *)

Lemma distLt_within (a b : Vector3) (r : Q) :
  V.distLt a b r = true <-> within a b r.
Proof.
  unfold V.distLt, within. rewrite andb_true_iff, !Qltb_lt. reflexivity.
Qed.

Lemma distLt_not_within (a b : Vector3) (r : Q) :
  V.distLt a b r = false <-> ~ within a b r.
Proof.
  rewrite <- distLt_within. destruct (V.distLt a b r); split; congruence.
Qed.

Lemma gameOver_isGameOver (m : string) (g : Game) :
  isGameOver (gameState (gameOver m g)) = true.
Proof. unfold gameOver. cbn. destruct (gameOverScreen (ui g)); reflexivity. Qed.

Lemma gameOver_shipState (m : string) (g : Game) :
  shipState (gameOver m g) = shipState g.
Proof. unfold gameOver. cbn. destruct (gameOverScreen (ui g)); reflexivity. Qed.

Lemma gameOver_message (m : string) (g : Game) :
  gameOverScreen (ui g) = true -> gameOverMessage (ui (gameOver m g)) = m.
Proof. intros Hui. unfold gameOver. cbn. rewrite Hui. reflexivity. Qed.

Lemma checkCollisions_loop_first (g : Game)
    (pre post : list CollisionObject) (obj : CollisionObject) :
  clearOf g pre ->
  within (position (shipState g)) (deref (env g) (c_position obj))
         (collisionRadius + c_radius obj) ->
  checkCollisions_loop (pre ++ obj :: post) g = handleCollision obj g.
Proof.
  intros Hpre Hobj. induction Hpre as [| o pre Ho _ IH]; cbn.
  - apply distLt_within in Hobj. rewrite Hobj. reflexivity.
  - apply distLt_not_within in Ho. rewrite Ho. exact IH.
Qed.

Lemma checkCollisions_loop_clear (g : Game) (objs : list CollisionObject) :
  clearOf g objs -> checkCollisions_loop objs g = g.
Proof.
  intros Hc. induction Hc as [| o objs Ho _ IH]; cbn; [reflexivity |].
  apply distLt_not_within in Ho. rewrite Ho. exact IH.
Qed.

(** C9. When the ship is not invulnerable and an asteroid is the first
    collision object, in the order of the list, that the ship is closer to
    than the sum of the two radii, the resolver does exactly what the
    asteroid case of [handleCollision] does and nothing for the objects
    behind it: health is 0, the game is over and the message is the
    asteroid's. *)
Theorem asteroid_collision_is_fatal (g : Game)
    (pre post : list CollisionObject) (obj : CollisionObject) :
  invulnerable (shipState g) = false ->
  collisionObjects (env g) = pre ++ obj :: post ->
  clearOf g pre ->
  c_type obj = asteroid ->
  within (position (shipState g)) (deref (env g) (c_position obj))
         (collisionRadius + c_radius obj) ->
  checkCollisions g =
    gameOver "Your X-Wing was destroyed by an asteroid!"
      (set_shipState (set_health 0%Z) g) /\
  health (shipState (checkCollisions g)) = 0%Z /\
  isGameOver (gameState (checkCollisions g)) = true /\
  (gameOverScreen (ui g) = true ->
     gameOverMessage (ui (checkCollisions g)) =
       "Your X-Wing was destroyed by an asteroid!"%string).
Proof.
  intros Hinv Hobjs Hpre Hty Hin.
  assert (Heq : checkCollisions g =
    gameOver "Your X-Wing was destroyed by an asteroid!"
      (set_shipState (set_health 0%Z) g)).
  { unfold checkCollisions. rewrite Hinv, Hobjs.
    rewrite (checkCollisions_loop_first g pre post obj Hpre Hin).
    unfold handleCollision. rewrite Hty. reflexivity. }
  rewrite Heq. split; [reflexivity |].
  rewrite gameOver_shipState, gameOver_isGameOver.
  split; [reflexivity |]. split; [reflexivity |].
  intros Hui. apply gameOver_message. exact Hui.
Qed.

(** ** Invulnerability *)

Lemma updateBarrelRoll_invulnerable (g : Game) :
  invulnerable (shipState g) = true -> ~ rollCompletes g ->
  invulnerable (shipState (updateBarrelRoll g)) = true.
Proof.
  intros Hinv Hnot. unfold updateBarrelRoll.
  destruct (br_active (barrelRoll (shipState g))) eqn:Ha; [| exact Hinv].
  destruct (Qle_bool _ _) eqn:E; cbn; [| exact Hinv].
  exfalso. apply Hnot. split; [exact Ha |].
  apply Qle_bool_iff in E. exact E.
Qed.

Lemma updateBarrelRoll_frame (g : Game) :
  health (shipState (updateBarrelRoll g)) = health (shipState g) /\
  position (shipState (updateBarrelRoll g)) = position (shipState g) /\
  currentSpeed (shipState (updateBarrelRoll g)) = currentSpeed (shipState g) /\
  gameState (updateBarrelRoll g) = gameState g /\
  lasers (updateBarrelRoll g) = lasers g /\
  env (updateBarrelRoll g) = env g /\
  targets (updateBarrelRoll g) = targets g.
Proof.
  unfold updateBarrelRoll.
  destruct (br_active _); [destruct (Qle_bool _ _) |]; cbn; repeat split.
Qed.

Lemma fireLaser_frame (t : Q) (g : Game) :
  health (shipState (fireLaser t g)) = health (shipState g) /\
  position (shipState (fireLaser t g)) = position (shipState g) /\
  currentSpeed (shipState (fireLaser t g)) = currentSpeed (shipState g) /\
  invulnerable (shipState (fireLaser t g)) = invulnerable (shipState g) /\
  barrelRoll (shipState (fireLaser t g)) = barrelRoll (shipState g) /\
  gameState (fireLaser t g) = gameState g /\
  env (fireLaser t g) = env g /\
  targets (fireLaser t g) = targets g /\
  (exists new, lasers (fireLaser t g) = lasers g ++ new).
Proof.
  unfold fireLaser. destruct (Qltb _ _); cbn; repeat split.
  - exists []. symmetry. apply app_nil_r.
  - eexists. reflexivity.
Qed.

Lemma moveShip_frame (g : Game) :
  health (shipState (moveShip g)) = health (shipState g) /\
  invulnerable (shipState (moveShip g)) = invulnerable (shipState g) /\
  barrelRoll (shipState (moveShip g)) = barrelRoll (shipState g) /\
  gameState (moveShip g) = gameState g /\
  lasers (moveShip g) = lasers g /\
  env (moveShip g) = env g /\
  targets (moveShip g) = targets g /\
  keys (moveShip g) = keys g.
Proof. unfold moveShip. cbn. repeat split. Qed.

Lemma beforeChecks_frame (t : Q) (g : Game) :
  health (shipState (beforeChecks t g)) = health (shipState g) /\
  gameState (beforeChecks t g) = gameState g /\
  env (beforeChecks t g) = env g /\
  targets (beforeChecks t g) = targets g /\
  (exists new, lasers (beforeChecks t g) = lasers g ++ new).
Proof.
  unfold beforeChecks.
  destruct (updateBarrelRoll_frame
    (if k_f (keys (moveShip g)) then fireLaser t (moveShip g) else moveShip g))
    as (Hh & _ & _ & Hgs & Hl & He & Ht).
  rewrite Hh, Hgs, Hl, He, Ht.
  destruct (moveShip_frame g) as (Mh & _ & _ & Mgs & Ml & Me & Mt & _).
  destruct (k_f (keys (moveShip g))).
  - destruct (fireLaser_frame t (moveShip g))
      as (Fh & _ & _ & _ & _ & Fgs & Fe & Ft & new & Fl).
    rewrite Fh, Fgs, Fe, Ft, Fl, Mh, Mgs, Me, Mt, Ml. repeat split.
    exists new. reflexivity.
  - rewrite Mh, Mgs, Me, Mt, Ml. repeat split.
    exists []. symmetry. apply app_nil_r.
Qed.

(** C4. With [invulnerable] set, the hazard check and the enemy-laser check
    return the state they are given.  In a frame, both read the flag after
    the barrel-roll update: unless the roll ends in this very frame the flag
    is still set there, the frame ends in the state the two checks started
    from, and so the health and the game state are those before the frame
    and every laser that was in flight is still in the list. *)
Theorem invulnerable_suppresses_damage (g : Game) :
  invulnerable (shipState g) = true ->
  checkCollisions g = g /\
  checkEnemyLasers g = g /\
  (forall deltaTime currentTime,
     ~ rollCompletes g ->
     updateShipPhysics deltaTime currentTime g = beforeChecks currentTime g /\
     health (shipState (updateShipPhysics deltaTime currentTime g)) =
       health (shipState g) /\
     gameState (updateShipPhysics deltaTime currentTime g) = gameState g /\
     exists new,
       lasers (updateShipPhysics deltaTime currentTime g) = lasers g ++ new).
Proof.
  intros Hinv.
  assert (Hcc : forall g0, invulnerable (shipState g0) = true ->
                           checkCollisions g0 = g0).
  { intros g0 H0. unfold checkCollisions. rewrite H0. reflexivity. }
  assert (Hcl : forall g0, invulnerable (shipState g0) = true ->
                           checkEnemyLasers g0 = g0).
  { intros g0 H0. unfold checkEnemyLasers. rewrite H0. reflexivity. }
  split; [apply Hcc; exact Hinv |]. split; [apply Hcl; exact Hinv |].
  intros deltaTime currentTime Hroll.
  assert (Hflag : invulnerable (shipState (beforeChecks currentTime g)) = true).
  { unfold beforeChecks.
    destruct (moveShip_frame g) as (_ & Mi & Mb & _).
    apply updateBarrelRoll_invulnerable.
    - destruct (k_f (keys (moveShip g))).
      + destruct (fireLaser_frame currentTime (moveShip g))
          as (_ & _ & _ & Fi & _). rewrite Fi, Mi. exact Hinv.
      + rewrite Mi. exact Hinv.
    - intros [Ha Hp]. apply Hroll. split.
      + destruct (k_f (keys (moveShip g))).
        * destruct (fireLaser_frame currentTime (moveShip g))
            as (_ & _ & _ & _ & Fb & _). rewrite Fb, Mb in Ha. exact Ha.
        * rewrite Mb in Ha. exact Ha.
      + destruct (k_f (keys (moveShip g))).
        * destruct (fireLaser_frame currentTime (moveShip g))
            as (_ & _ & _ & _ & Fb & _). rewrite Fb, Mb in Hp. exact Hp.
        * rewrite Mb in Hp. exact Hp. }
  assert (Heq : updateShipPhysics deltaTime currentTime g =
                beforeChecks currentTime g).
  { unfold updateShipPhysics. fold (beforeChecks currentTime g).
    rewrite (Hcc _ Hflag). apply Hcl. exact Hflag. }
  rewrite Heq.
  destruct (beforeChecks_frame currentTime g) as (Bh & Bgs & _ & _ & Bl).
  repeat split; assumption.
Qed.

(** ** Fighters and the collision list *)

Lemma for_up_invariant {S : Type} (I : S -> Prop) (body : nat -> S -> S) :
  (forall i s, I s -> I (body i s)) ->
  forall n start s, I s -> I (for_up n start body s).
Proof.
  intros Hbody n. induction n as [| n IH]; intros start s Hs; cbn.
  - exact Hs.
  - apply IH. apply Hbody. exact Hs.
Qed.

Lemma for_down_invariant {S : Type} (I : S -> Prop) (body : nat -> S -> S) :
  (forall i s, I s -> I (body i s)) ->
  forall n s, I s -> I (for_down n body s).
Proof.
  intros Hbody n. induction n as [| n IH]; intros s Hs; cbn.
  - exact Hs.
  - apply IH. apply Hbody. exact Hs.
Qed.

Lemma createTieFighter_collisionObjects (x y z : Q) (g : Game) :
  collisionObjects (env (createTieFighter x y z g)) = collisionObjects (env g).
Proof. reflexivity. Qed.

Lemma createEnemyFighters_collisionObjects (g : Game) :
  collisionObjects (env (createEnemyFighters g)) = collisionObjects (env g).
Proof.
  unfold createEnemyFighters.
  apply (for_up_invariant
    (fun g' => collisionObjects (env g') = collisionObjects (env g))).
  - intros i s Hs. rewrite createTieFighter_collisionObjects. exact Hs.
  - reflexivity.
Qed.

(** Replacing the fighters, in the environment and in the module-level
    array. *)
Lemma gameOver_fighters (m : string) (ts ts' : list Target) (g : Game) :
  gameOver m (set_targets (fun _ => ts')
                (set_env (set_env_targets (fun _ => ts)) g)) =
  set_targets (fun _ => ts')
    (set_env (set_env_targets (fun _ => ts)) (gameOver m g)).
Proof.
  unfold gameOver. cbn. destruct (gameOverScreen (ui g)); reflexivity.
Qed.

Lemma checkCollisions_loop_fighters (ts ts' : list Target)
    (objs : list CollisionObject) (g : Game) :
  checkCollisions_loop objs
    (set_targets (fun _ => ts') (set_env (set_env_targets (fun _ => ts)) g)) =
  set_targets (fun _ => ts')
    (set_env (set_env_targets (fun _ => ts)) (checkCollisions_loop objs g)).
Proof.
  induction objs as [| obj objs IH]; cbn; [reflexivity |].
  change (deref (set_env_targets (fun _ => ts) (env g)) (c_position obj))
    with (deref (env g) (c_position obj)).
  destruct (V.distLt _ _ _); [| exact IH].
  unfold handleCollision. destruct (c_type obj);
    rewrite <- gameOver_fighters; reflexivity.
Qed.

(** ** What the parts of a frame leave alone *)

Lemma checkCollisions_currentSpeed (g : Game) :
  currentSpeed (shipState (checkCollisions g)) = currentSpeed (shipState g).
Proof.
  unfold checkCollisions. destruct (invulnerable (shipState g)); [reflexivity |].
  induction (collisionObjects (env g)) as [| obj objs IH]; cbn; [reflexivity |].
  destruct (V.distLt _ _ _); [| exact IH].
  unfold handleCollision.
  destruct (c_type obj); rewrite gameOver_shipState; reflexivity.
Qed.

Lemma hitShip_currentSpeed (i : nat) (l : Laser) (g : Game) :
  currentSpeed (shipState (hitShip i l g)) = currentSpeed (shipState g).
Proof.
  unfold hitShip. cbn. destruct (_ <=? _)%Z; [| reflexivity].
  rewrite gameOver_shipState. reflexivity.
Qed.

Lemma checkEnemyLasers_currentSpeed (g : Game) :
  currentSpeed (shipState (checkEnemyLasers g)) = currentSpeed (shipState g).
Proof.
  unfold checkEnemyLasers. destruct (negb _); [| reflexivity].
  induction (length (lasers g)) as [| n IH]; cbn; [reflexivity |].
  destruct (lasers g !! n) as [l |]; [| exact IH].
  destruct (negb (l_isEnemy l)); [exact IH |].
  destruct (V.distLt _ _ _); [| exact IH].
  apply hitShip_currentSpeed.
Qed.

Lemma updateShipPhysics_currentSpeed (deltaTime currentTime : Q) (g : Game) :
  currentSpeed (shipState (updateShipPhysics deltaTime currentTime g)) =
  updateSpeed (keys g) (currentSpeed (shipState g)).
Proof.
  unfold updateShipPhysics.
  rewrite checkEnemyLasers_currentSpeed, checkCollisions_currentSpeed.
  destruct (updateBarrelRoll_frame
    (if k_f (keys (moveShip g)) then fireLaser currentTime (moveShip g)
     else moveShip g)) as (_ & _ & Hs & _).
  rewrite Hs.
  destruct (k_f (keys (moveShip g))).
  - destruct (fireLaser_frame currentTime (moveShip g)) as (_ & _ & Fs & _).
    rewrite Fs. reflexivity.
  - reflexivity.
Qed.

Lemma laserTargets_loop_shipState (n i : nat) (l : Laser) (g : Game) :
  shipState (laserTargets_loop n i l g) = shipState g.
Proof.
  induction n as [| j IH]; cbn; [reflexivity |].
  destruct (env_targets (env g) !! j) as [t |]; [| exact IH].
  destruct (V.distLt _ _ _); [| exact IH].
  cbn. destruct (_ <=? _)%Z; cbn.
  - unfold updateScoreDisplay. cbn.
    destruct (gameOverScreen (ui g)); reflexivity.
  - reflexivity.
Qed.

Lemma laserAsteroids_loop_shipState (n j i : nat) (l : Laser) (g : Game) :
  shipState (laserAsteroids_loop n j i l g) = shipState g.
Proof.
  revert j. induction n as [| n IH]; intros j; cbn; [reflexivity |].
  destruct (asteroids (env g) !! j) as [a |]; [| reflexivity].
  destruct (V.distLt _ _ _); [| apply IH].
  cbn. destruct (Qltb _ _); cbn.
  - unfold updateScoreDisplay. cbn.
    destruct (gameOverScreen (ui g)); reflexivity.
  - reflexivity.
Qed.

Lemma updateLaser_at_shipState (deltaTime : Q) (i : nat) (g : Game) :
  shipState (updateLaser_at deltaTime i g) = shipState g.
Proof.
  unfold updateLaser_at. destruct (lasers g !! i) as [l |]; [| reflexivity].
  cbn. destruct (V.distGe _ _ _); [reflexivity |].
  rewrite laserAsteroids_loop_shipState, laserTargets_loop_shipState.
  reflexivity.
Qed.

Lemma updateLasers_shipState (deltaTime : Q) (g : Game) :
  shipState (updateLasers deltaTime g) = shipState g.
Proof.
  unfold updateLasers.
  apply (for_down_invariant (fun g' => shipState g' = shipState g));
    [| reflexivity].
  intros i s Hs. rewrite updateLaser_at_shipState. exact Hs.
Qed.

Lemma env_updateEnemies_shipState (deltaTime : Q) (g : Game) :
  shipState (env_updateEnemies deltaTime g) = shipState g.
Proof.
  unfold env_updateEnemies.
  apply (for_up_invariant (fun g' => shipState g' = shipState g));
    [| reflexivity].
  intros i s Hs. unfold env_updateEnemy_at.
  destruct (env_targets (env s) !! i) as [t |]; [| exact Hs].
  destruct (steerTarget _ _ _ _) as [t' k]. exact Hs.
Qed.

Lemma driftAsteroid_shipState (index : nat) (g : Game) :
  shipState (fst (driftAsteroid index g)) = shipState g /\
  gameState (fst (driftAsteroid index g)) = gameState g /\
  env_targets (env (fst (driftAsteroid index g))) = env_targets (env g) /\
  lasers (fst (driftAsteroid index g)) = lasers g /\
  keys (fst (driftAsteroid index g)) = keys g.
Proof.
  unfold driftAsteroid.
  destruct (asteroids (env g) !! index) as [a |]; [| repeat split].
  cbn. destruct (_ !! _) as [obj |]; [| repeat split].
  cbn. destruct (V.distGt _ _ _); repeat split.
Qed.

Lemma driftAsteroids_shipState (n index : nat) (g : Game) :
  shipState (fst (driftAsteroids n index g)) = shipState g /\
  gameState (fst (driftAsteroids n index g)) = gameState g /\
  env_targets (env (fst (driftAsteroids n index g))) = env_targets (env g) /\
  lasers (fst (driftAsteroids n index g)) = lasers g /\
  keys (fst (driftAsteroids n index g)) = keys g.
Proof.
  revert index g. induction n as [| n IH]; intros index g; cbn;
    [repeat split |].
  destruct (driftAsteroid_shipState index g) as (H1 & H2 & H3 & H4 & H5).
  destruct (driftAsteroid index g) as [g1 []]; cbn in *.
  - destruct (IH (S index) g1) as (I1 & I2 & I3 & I4 & I5).
    rewrite I1, I2, I3, I4, I5. repeat split; assumption.
  - repeat split; assumption.
Qed.

Lemma updateEnvironment_shipState (deltaTime : Q) (g : Game) :
  shipState (fst (updateEnvironment deltaTime g)) = shipState g /\
  gameState (fst (updateEnvironment deltaTime g)) = gameState g /\
  env_targets (env (fst (updateEnvironment deltaTime g))) = env_targets (env g) /\
  lasers (fst (updateEnvironment deltaTime g)) = lasers g /\
  keys (fst (updateEnvironment deltaTime g)) = keys g.
Proof.
  unfold updateEnvironment.
  destruct (driftAsteroids_shipState (length (asteroids (env g))) 0 g)
    as (H1 & H2 & H3 & H4 & H5).
  destruct (driftAsteroids _ _ _) as [g1 []]; cbn in *;
    repeat split; assumption.
Qed.

(** ** The speed limits *)

Lemma updateSpeed_inRange (k : Keys) (v : Q) :
  maxReverseSpeed <= v <= maxForwardSpeed ->
  maxReverseSpeed <= updateSpeed k v <= maxForwardSpeed.
Proof.
  unfold updateSpeed, maxReverseSpeed, maxForwardSpeed, speedIncrement.
  intros [Hlo Hhi].
  pose proof (Qmin'_spec (v + 0.01) 1.5) as (Hm1 & Hm2 & Hm3).
  pose proof (Qmax'_spec (v - 0.01) (-0.3)) as (HM1 & HM2 & HM3).
  destruct (k_w k), (k_ArrowUp k), (k_s k), (k_ArrowDown k); cbn;
    try (destruct Hm3; lra); try (destruct HM3; lra);
    (destruct (Qltb (Qabs v) 0.01); lra).
Qed.

Lemma animate_currentSpeed (deltaTime currentTime : Q) (g : Game) :
  currentSpeed (shipState (animate deltaTime currentTime g)) =
    currentSpeed (shipState g) \/
  currentSpeed (shipState (animate deltaTime currentTime g)) =
    updateSpeed (keys g) (currentSpeed (shipState g)).
Proof.
  unfold animate. destruct (isGameOver (gameState g)); [left; reflexivity |].
  right.
  destruct (updateEnvironment_shipState deltaTime
              (updateShipPhysics deltaTime currentTime g)) as (He & _).
  destruct (updateEnvironment _ _) as [g2 []]; cbn in He.
  - cbn. rewrite updateLasers_shipState, env_updateEnemies_shipState, He.
    apply updateShipPhysics_currentSpeed.
  - rewrite He. apply updateShipPhysics_currentSpeed.
Qed.

Lemma step_speedInRange (ev : Event) (g : Game) :
  speedInRange g -> speedInRange (step ev g).
Proof.
  unfold speedInRange. intros Hg. destruct ev as [dt t | k t | k | k b | t |]; cbn.
  - destruct (animate_currentSpeed dt t g) as [E | E]; rewrite E;
      [exact Hg | apply updateSpeed_inRange; exact Hg].
  - unfold onKeyDown.
    assert (Hk : forall g0, currentSpeed (shipState g0) = currentSpeed (shipState g) ->
              currentSpeed (shipState
                (match k with Kf => fireLaser t g0 | _ => g0 end)) =
              currentSpeed (shipState g)).
    { intros g0 H0. destruct k; try exact H0.
      destruct (fireLaser_frame t g0) as (_ & _ & Fs & _). rewrite Fs. exact H0. }
    rewrite Hk; [exact Hg |].
    destruct k; try reflexivity;
      cbn; destruct (br_active (barrelRoll (shipState g))); reflexivity.
  - exact Hg.
  - exact Hg.
  - destruct (fireLaser_frame t g) as (_ & _ & Fs & _). rewrite Fs. exact Hg.
  - unfold onGraceTimeout. destruct (graceTimers g); exact Hg.
Qed.

Lemma run_speedInRange (evs : list Event) (g : Game) :
  speedInRange g -> speedInRange (run evs g).
Proof.
  revert g. induction evs as [| ev evs IH]; intros g Hg; cbn; [exact Hg |].
  apply IH. apply step_speedInRange. exact Hg.
Qed.

(** C7. Starting from a speed of 0, after any sequence of frames, key and
    touch events and timers, with any key states, [currentSpeed] lies in
    [[maxReverseSpeed, maxForwardSpeed]], that is in [[-0.3, 1.5]], and it
    does so again after one more physics update. *)
Theorem currentSpeed_stays_in_range (evs : list Event) (g : Game) :
  currentSpeed (shipState g) == 0 ->
  let g' := run evs g in
  (-0.3 <= currentSpeed (shipState g') /\
   currentSpeed (shipState g') <= 1.5) /\
  speedInRange g' /\
  forall deltaTime currentTime,
    speedInRange (updateShipPhysics deltaTime currentTime g').
Proof.
  intros H0 g'.
  assert (Hg : speedInRange g).
  { unfold speedInRange, maxReverseSpeed, maxForwardSpeed. rewrite H0. lra. }
  pose proof (run_speedInRange evs g Hg) as Hr. fold g' in Hr.
  split; [exact Hr |]. split; [exact Hr |].
  intros deltaTime currentTime. unfold speedInRange.
  rewrite updateShipPhysics_currentSpeed.
  apply updateSpeed_inRange. exact Hr.
Qed.

(** ** After the game is over *)

Lemma step_over (ev : Event) (g : Game) :
  isGameOver (gameState g) = true ->
  isGameOver (gameState (step ev g)) = true /\
  simulated (step ev g) = simulated g.
Proof.
  intros Hover. unfold simulated.
  destruct ev as [dt t | k t | k | k b | t |]; cbn.
  - unfold animate. rewrite Hover. split; [exact Hover | reflexivity].
  - unfold onKeyDown. destruct k; cbn;
      try (split; [exact Hover | reflexivity]).
    + destruct (br_active (barrelRoll (shipState g)));
        (split; [exact Hover | reflexivity]).
    + destruct (br_active (barrelRoll (shipState g)));
        (split; [exact Hover | reflexivity]).
    + destruct (fireLaser_frame t (set_keys (setKey Kf true) g))
        as (Fh & Fp & _ & _ & _ & Fgs & Fe & Ft & _).
      rewrite Fh, Fp, Fgs, Fe, Ft. split; [exact Hover | reflexivity].
  - split; [exact Hover | reflexivity].
  - split; [exact Hover | reflexivity].
  - destruct (fireLaser_frame t g)
      as (Fh & Fp & _ & _ & _ & Fgs & Fe & Ft & _).
    rewrite Fh, Fp, Fgs, Fe, Ft. split; [exact Hover | reflexivity].
  - unfold onGraceTimeout. destruct (graceTimers g);
      (split; [exact Hover | reflexivity]).
Qed.

(** C1, as the code has it.  The guard is the first statement of [animate]
    and nowhere else.  Once [isGameOver] is true it stays true; every later
    frame returns the state it is given; and no later sequence of frames, key
    and touch events and timers changes the health or the position of the
    ship, the score, the fighters, the hazards or anything else of the
    environment. *)
Theorem frozen_after_game_over (evs : list Event) (g : Game) :
  isGameOver (gameState g) = true ->
  isGameOver (gameState (run evs g)) = true /\
  simulated (run evs g) = simulated g /\
  (forall deltaTime currentTime,
     animate deltaTime currentTime (run evs g) = run evs g).
Proof.
  revert g. induction evs as [| ev evs IH]; intros g Hover.
  - cbn. split; [exact Hover |]. split; [reflexivity |].
    intros dt t. unfold animate. rewrite Hover. reflexivity.
  - change (run (ev :: evs) g) with (run evs (step ev g)).
    destruct (step_over ev g Hover) as [Hs Hsim].
    destruct (IH (step ev g) Hs) as (I1 & I2 & I3).
    split; [exact I1 |]. split; [| exact I3].
    rewrite I2. exact Hsim.
Qed.

(** ** Range expiry *)

Lemma delete_insert_same {A : Type} (l : list A) (i : nat) (x : A) :
  delete i (<[i := x]> l) = delete i l.
Proof.
  revert i. induction l as [| y l IH]; intros [| i]; cbn; try reflexivity.
  f_equal. apply IH.
Qed.

Lemma distGe_expires (deltaTime : Q) (l : Laser) :
  V.distGe (l_position (advanceLaser deltaTime l))
           (l_startPosition (advanceLaser deltaTime l))
           (l_maxDistance (advanceLaser deltaTime l)) = true <->
  expires deltaTime l.
Proof.
  unfold V.distGe, expires, traveledSq. rewrite negb_true_iff.
  rewrite distLt_not_within. unfold within. cbn. split.
  - intros Hn.
    destruct (Qlt_le_dec 0 (l_maxDistance l)) as [Hpos | Hle];
      [| left; exact Hle].
    right. apply Qnot_lt_le. intros Hlt. apply Hn. split; assumption.
  - intros [Hle | Hsq] [Hpos Hlt]; lra.
Qed.

Lemma updateLaser_at_expired (deltaTime : Q) (i : nat) (g : Game) (l : Laser) :
  lasers g !! i = Some l -> expires deltaTime l ->
  updateLaser_at deltaTime i g = set_lasers (delete i) g.
Proof.
  intros Hl Hexp. unfold updateLaser_at. rewrite Hl.
  apply distGe_expires in Hexp. rewrite Hexp.
  unfold set_lasers. cbn. rewrite delete_insert_same. reflexivity.
Qed.

Lemma for_down_all_expire (deltaTime : Q) (ls : list Laser) :
  Forall (expires deltaTime) ls ->
  forall g, lasers g = ls ->
  for_down (length ls) (updateLaser_at deltaTime) g =
    set_lasers (fun _ => []) g.
Proof.
  induction ls as [| l ls IH] using rev_ind; intros Hall g Hg; cbn.
  - destruct g; cbn in *. subst. reflexivity.
  - apply Forall_app in Hall as [Hls Hl]. apply Forall_inv in Hl.
    rewrite length_app, Nat.add_1_r. cbn.
    rewrite (updateLaser_at_expired deltaTime (length ls) g l).
    + rewrite (IH Hls (set_lasers (delete (length ls)) g)); [reflexivity |].
      cbn. rewrite Hg. rewrite delete_middle. apply app_nil_r.
    + rewrite Hg. apply list_lookup_middle. reflexivity.
    + exact Hl.
Qed.

Lemma square_grows (a v T d : Q) :
  0 <= T -> 0 <= d -> a == T * v -> a * a <= (a + v * d) * (a + v * d).
Proof.
  intros HT Hd Ha.
  assert (H1 : 0 <= T * d) by (apply Qmult_le_0_compat; assumption).
  assert (H2 : 0 <= v * v) by nra.
  assert (H3 : 0 <= (T * d) * (v * v))
    by (apply Qmult_le_0_compat; assumption).
  assert (H4 : 0 <= (d * d) * (v * v))
    by (apply Qmult_le_0_compat; [nra | assumption]).
  assert (E : (a + v * d) * (a + v * d) - a * a ==
              2 * ((T * d) * (v * v)) + (d * d) * (v * v)).
  { rewrite Ha. ring. }
  lra.
Qed.

Lemma advanceLaser_onRay (deltaTime : Q) (l : Laser) :
  0 <= deltaTime -> onRay l ->
  onRay (advanceLaser deltaTime l) /\
  traveledSq l <= traveledSq (advanceLaser deltaTime l).
Proof.
  intros Hd (T & HT & Hx & Hy & Hz). split.
  - exists (T + deltaTime). cbn. split; [lra |].
    rewrite Hx, Hy, Hz. repeat split; ring.
  - unfold traveledSq, V.distanceSq, V.lengthSq. cbn.
    pose proof (square_grows (vx (l_position l) - vx (l_startPosition l))
                  (vx (l_velocity l)) T deltaTime HT Hd) as Sx.
    pose proof (square_grows (vy (l_position l) - vy (l_startPosition l))
                  (vy (l_velocity l)) T deltaTime HT Hd) as Sy.
    pose proof (square_grows (vz (l_position l) - vz (l_startPosition l))
                  (vz (l_velocity l)) T deltaTime HT Hd) as Sz.
    assert (Ex : vx (l_position l) - vx (l_startPosition l) ==
                 T * vx (l_velocity l)) by (rewrite Hx; ring).
    assert (Ey : vy (l_position l) - vy (l_startPosition l) ==
                 T * vy (l_velocity l)) by (rewrite Hy; ring).
    assert (Ez : vz (l_position l) - vz (l_startPosition l) ==
                 T * vz (l_velocity l)) by (rewrite Hz; ring).
    specialize (Sx Ex). specialize (Sy Ey). specialize (Sz Ez).
    assert (Rx : vx (l_position l) + vx (l_velocity l) * deltaTime -
                 vx (l_startPosition l) ==
                 vx (l_position l) - vx (l_startPosition l) +
                 vx (l_velocity l) * deltaTime) by ring.
    assert (Ry : vy (l_position l) + vy (l_velocity l) * deltaTime -
                 vy (l_startPosition l) ==
                 vy (l_position l) - vy (l_startPosition l) +
                 vy (l_velocity l) * deltaTime) by ring.
    assert (Rz : vz (l_position l) + vz (l_velocity l) * deltaTime -
                 vz (l_startPosition l) ==
                 vz (l_position l) - vz (l_startPosition l) +
                 vz (l_velocity l) * deltaTime) by ring.
    rewrite Rx, Ry, Rz. lra.
Qed.

Lemma flight_onRay (deltas : list Q) (l : Laser) :
  Forall (fun d => 0 <= d) deltas -> onRay l -> onRay (flight deltas l).
Proof.
  intros Hall. revert l. induction Hall as [| d deltas Hd _ IH];
    intros l Hl; cbn; [exact Hl |].
  apply IH. apply advanceLaser_onRay; assumption.
Qed.

Lemma fresh_onRay (l : Laser) :
  l_position l = l_startPosition l -> onRay l.
Proof.
  intros E. exists 0. rewrite E. split; [lra |]. repeat split; ring.
Qed.

Lemma fireLaser_fresh (t : Q) (g : Game) (l : Laser) :
  lasers (fireLaser t g) = lasers g ++ [l] ->
  l_position l = l_startPosition l /\ l_maxDistance l = laserRange.
Proof.
  unfold fireLaser. destruct (Qltb _ _); cbn; intros E.
  - apply (f_equal length) in E. rewrite length_app in E. cbn in E. lia.
  - apply app_inv_head in E. injection E as <-. split; reflexivity.
Qed.

(** ** A frame with a fighter around the ship *)

Lemma env_updateEnemies_frame (deltaTime : Q) (g : Game) :
  shipState (env_updateEnemies deltaTime g) = shipState g /\
  gameState (env_updateEnemies deltaTime g) = gameState g /\
  lasers (env_updateEnemies deltaTime g) = lasers g /\
  map t_health (env_targets (env (env_updateEnemies deltaTime g))) =
    map t_health (env_targets (env g)).
Proof.
  unfold env_updateEnemies.
  apply (for_up_invariant (fun g' =>
    shipState g' = shipState g /\ gameState g' = gameState g /\
    lasers g' = lasers g /\
    map t_health (env_targets (env g')) = map t_health (env_targets (env g))));
    [| repeat split].
  intros i s (H1 & H2 & H3 & H4). unfold env_updateEnemy_at.
  destruct (env_targets (env s) !! i) as [t |] eqn:Hi; [| repeat split; assumption].
  destruct (steerTarget _ _ _ _) as [t' k] eqn:Hst. cbn.
  repeat split; try assumption.
  rewrite <- H4.
  change (map t_health (<[i := t']> (env_targets (env s))))
    with (t_health <$> <[i := t']> (env_targets (env s))).
  rewrite list_fmap_insert.
  apply list_insert_id. rewrite list_lookup_fmap, Hi. cbn.
  f_equal. change t' with (fst (t', k)). rewrite <- Hst. reflexivity.
Qed.

Lemma checkEnemyLasers_no_lasers (g : Game) :
  lasers g = [] -> checkEnemyLasers g = g.
Proof.
  intros Hl. unfold checkEnemyLasers. rewrite Hl.
  destruct (negb _); reflexivity.
Qed.

Lemma quiet_frame (deltaTime currentTime : Q) (g : Game) :
  isGameOver (gameState g) = false ->
  lasers g = [] ->
  k_f (keys g) = false ->
  clearOf (beforeChecks currentTime g) (collisionObjects (env g)) ->
  health (shipState (animate deltaTime currentTime g)) = health (shipState g) /\
  gameState (animate deltaTime currentTime g) = gameState g /\
  map t_health (env_targets (env (animate deltaTime currentTime g))) =
    map t_health (env_targets (env g)).
Proof.
  intros Hover Hl Hf Hclear.
  destruct (beforeChecks_frame currentTime g) as (Bh & Bgs & Be & _ & _).
  assert (Bl : lasers (beforeChecks currentTime g) = []).
  { unfold beforeChecks.
    destruct (moveShip_frame g) as (_ & _ & _ & _ & Ml & _ & _ & Mk).
    rewrite Mk, Hf.
    destruct (updateBarrelRoll_frame (moveShip g)) as (_ & _ & _ & _ & Ul & _).
    rewrite Ul, Ml. exact Hl. }
  assert (Hphys : updateShipPhysics deltaTime currentTime g =
                  beforeChecks currentTime g).
  { unfold updateShipPhysics. fold (beforeChecks currentTime g).
    assert (Hcc : checkCollisions (beforeChecks currentTime g) =
                  beforeChecks currentTime g).
    { unfold checkCollisions. destruct (invulnerable _); [reflexivity |].
      apply checkCollisions_loop_clear. rewrite Be. exact Hclear. }
    rewrite Hcc. apply checkEnemyLasers_no_lasers. exact Bl. }
  unfold animate. rewrite Hover, Hphys.
  destruct (updateEnvironment_shipState deltaTime (beforeChecks currentTime g))
    as (E1 & E2 & E3 & E4 & _).
  destruct (updateEnvironment _ _) as [g2 []]; cbn in E1, E2, E3, E4.
  - destruct (env_updateEnemies_frame deltaTime g2) as (U1 & U2 & U3 & U4).
    assert (Hnone : updateLasers deltaTime (env_updateEnemies deltaTime g2) =
                    env_updateEnemies deltaTime g2).
    { unfold updateLasers. rewrite U3, E4, Bl. reflexivity. }
    rewrite Hnone. cbn. rewrite U1, U2, U4, E1, E2, E3, Bh, Bgs, Be.
    repeat split.
  - rewrite E1, E2, E3, Bh, Bgs, Be. repeat split.
Qed.

(** C10. No fighter is ever put on the collision list: [createTieFighter]
    and [createEnemyFighters] leave [collisionObjects] as it is, and the
    three kinds of collision object are asteroid, planet and Death Star.  The
    resolver does not read the fighters: run on a state with any other
    fighters, it yields the same state with those fighters.  So when no
    collision object reaches the ship, the resolver returns its input
    whatever the fighters are and wherever they are; and a whole frame with
    no laser in flight, the fire key up and no collision object within reach
    of the moved ship leaves the health of the ship, the game state with its
    score, and the number and the health of the fighters as they were, also
    when the ship sits inside a fighter. *)
Theorem fighters_are_not_collidable (g : Game) :
  (forall x y z,
     collisionObjects (env (createTieFighter x y z g)) =
       collisionObjects (env g)) /\
  collisionObjects (env (createEnemyFighters g)) = collisionObjects (env g) /\
  (forall o : CollisionObject,
     c_type o = asteroid \/ c_type o = planet \/ c_type o = deathstar) /\
  (forall ts ts' : list Target,
     checkCollisions
       (set_targets (fun _ => ts')
          (set_env (set_env_targets (fun _ => ts)) g)) =
     set_targets (fun _ => ts')
       (set_env (set_env_targets (fun _ => ts)) (checkCollisions g))) /\
  (clearOf g (collisionObjects (env g)) -> checkCollisions g = g) /\
  (forall deltaTime currentTime,
     isGameOver (gameState g) = false ->
     lasers g = [] ->
     k_f (keys g) = false ->
     clearOf (beforeChecks currentTime g) (collisionObjects (env g)) ->
     health (shipState (animate deltaTime currentTime g)) =
       health (shipState g) /\
     gameState (animate deltaTime currentTime g) = gameState g /\
     map t_health (env_targets (env (animate deltaTime currentTime g))) =
       map t_health (env_targets (env g))).
Proof.
  split; [intros; apply createTieFighter_collisionObjects |].
  split; [apply createEnemyFighters_collisionObjects |].
  split; [intros o; destruct (c_type o); auto |].
  split; [| split].
  - intros ts ts'. unfold checkCollisions. cbn.
    destruct (invulnerable (shipState g)); [reflexivity |].
    apply checkCollisions_loop_fighters.
  - intros Hclear. unfold checkCollisions.
    destruct (invulnerable (shipState g)); [reflexivity |].
    apply checkCollisions_loop_clear. exact Hclear.
  - intros deltaTime currentTime. apply quiet_frame.
Qed.

(** ** Reachable states *)

Lemma length_delete_le {A : Type} (l : list A) (i : nat) :
  (length (delete i l) <= length l)%nat.
Proof.
  revert i. induction l as [| x l IH]; intros [| i]; simpl; try lia.
  specialize (IH i). lia.
Qed.

Lemma laserTargets_loop_pilot n i l g : pilot (laserTargets_loop n i l g) = pilot g.
Proof.
  induction n as [| j IH]; cbn; [reflexivity |].
  destruct (env_targets (env g) !! j) as [t |]; [| exact IH].
  destruct (V.distLt _ _ _); [| exact IH].
  cbn. destruct (_ <=? _)%Z; cbn; [| reflexivity].
  unfold updateScoreDisplay. cbn. destruct (gameOverScreen (ui g)); reflexivity.
Qed.

Lemma laserAsteroids_loop_pilot n j i l g : pilot (laserAsteroids_loop n j i l g) = pilot g.
Proof.
  revert j. induction n as [| n IH]; intros j; cbn; [reflexivity |].
  destruct (asteroids (env g) !! j) as [a |]; [| reflexivity].
  destruct (V.distLt _ _ _); [| apply IH].
  cbn. destruct (Qltb _ _); cbn; [| reflexivity].
  unfold updateScoreDisplay. cbn. destruct (gameOverScreen (ui g)); reflexivity.
Qed.

Lemma updateLaser_at_pilot dt i g : pilot (updateLaser_at dt i g) = pilot g.
Proof.
  unfold updateLaser_at. destruct (lasers g !! i) as [l |]; [| reflexivity].
  cbn. destruct (V.distGe _ _ _); [reflexivity |].
  rewrite laserAsteroids_loop_pilot, laserTargets_loop_pilot. reflexivity.
Qed.

Lemma updateLasers_pilot dt g : pilot (updateLasers dt g) = pilot g.
Proof.
  unfold updateLasers.
  apply (for_down_invariant (fun g' => pilot g' = pilot g)); [| reflexivity].
  intros i s Hs. rewrite updateLaser_at_pilot. exact Hs.
Qed.

Lemma laserTargets_loop_lasers n i l g :
  lasers (laserTargets_loop n i l g) = lasers g \/
  lasers (laserTargets_loop n i l g) = delete i (lasers g).
Proof.
  induction n as [| j IH]; cbn; [left; reflexivity |].
  destruct (env_targets (env g) !! j) as [t |]; [| exact IH].
  destruct (V.distLt _ _ _); [| exact IH].
  right. cbn. destruct (_ <=? _)%Z; cbn; [| reflexivity].
  unfold updateScoreDisplay. cbn. destruct (gameOverScreen (ui g)); reflexivity.
Qed.

Lemma laserAsteroids_loop_lasers n j i l g :
  lasers (laserAsteroids_loop n j i l g) = lasers g \/
  lasers (laserAsteroids_loop n j i l g) = delete i (lasers g).
Proof.
  revert j. induction n as [| n IH]; intros j; cbn; [left; reflexivity |].
  destruct (asteroids (env g) !! j) as [a |]; [| left; reflexivity].
  destruct (V.distLt _ _ _); [| apply IH].
  right. cbn. destruct (Qltb _ _); cbn; [| reflexivity].
  unfold updateScoreDisplay. cbn. destruct (gameOverScreen (ui g)); reflexivity.
Qed.

(** The lasers after the loop body for index [i]: the list with the laser at
    [i] advanced, from which the element at [i] has been deleted zero, one
    or two times. *)
Lemma updateLaser_at_lasers dt i g l :
  lasers g !! i = Some l ->
  let ls := <[i := advanceLaser dt l]> (lasers g) in
  lasers (updateLaser_at dt i g) = ls \/
  lasers (updateLaser_at dt i g) = delete i ls \/
  lasers (updateLaser_at dt i g) = delete i (delete i ls).
Proof.
  intros Hl ls. unfold updateLaser_at. rewrite Hl.
  destruct (V.distGe _ _ _); [right; left; reflexivity |].
  set (g1 := set_lasers _ g).
  set (g2 := laserTargets_loop _ i _ g1).
  destruct (laserAsteroids_loop_lasers (length (asteroids (env g2))) 0 i
              (advanceLaser dt l) g2) as [E | E];
  destruct (laserTargets_loop_lasers (length (env_targets (env g1))) i
              (advanceLaser dt l) g1) as [E1 | E1];
  fold g2 in E1; rewrite E, E1; auto.
Qed.

Lemma Forall_advance_delete (P : Laser -> Prop) dt :
  (forall l, P l -> P (advanceLaser dt l)) ->
  forall i g, Forall P (lasers g) -> Forall P (lasers (updateLaser_at dt i g)).
Proof.
  intros HP i g Hall.
  destruct (lasers g !! i) as [l |] eqn:Hl.
  - assert (Hls : Forall P (<[i := advanceLaser dt l]> (lasers g))).
    { apply Forall_insert; [exact Hall |]. apply HP.
      rewrite Forall_lookup in Hall. exact (Hall i l Hl). }
    destruct (updateLaser_at_lasers dt i g l Hl) as [E | [E | E]]; rewrite E.
    + exact Hls.
    + apply Forall_delete. exact Hls.
    + apply Forall_delete, Forall_delete. exact Hls.
  - unfold updateLaser_at. rewrite Hl. exact Hall.
Qed.

Lemma updateLasers_Forall (P : Laser -> Prop) dt g :
  (forall l, P l -> P (advanceLaser dt l)) ->
  Forall P (lasers g) -> Forall P (lasers (updateLasers dt g)).
Proof.
  intros HP Hall. unfold updateLasers.
  apply (for_down_invariant (fun g' => Forall P (lasers g'))); [| exact Hall].
  intros i s. apply Forall_advance_delete. exact HP.
Qed.

Lemma updateLasers_length dt g :
  (length (lasers (updateLasers dt g)) <= length (lasers g))%nat.
Proof.
  unfold updateLasers.
  apply (for_down_invariant
    (fun g' => (length (lasers g') <= length (lasers g))%nat)); [| lia].
  intros i s Hs.
  destruct (lasers s !! i) as [l |] eqn:Hl.
  - pose proof (fun ls : list Laser => length_delete_le ls i) as Hd.
    destruct (updateLaser_at_lasers dt i s l Hl) as [E | [E | E]]; rewrite E.
    + rewrite length_insert. exact Hs.
    + etransitivity; [apply Hd |]. rewrite length_insert. exact Hs.
    + etransitivity; [apply Hd |]. etransitivity; [apply Hd |].
      rewrite length_insert. exact Hs.
  - unfold updateLaser_at. rewrite Hl. exact Hs.
Qed.

Lemma env_updateEnemies_pilot dt g : pilot (env_updateEnemies dt g) = pilot g.
Proof.
  unfold env_updateEnemies.
  apply (for_up_invariant (fun g' => pilot g' = pilot g)); [| reflexivity].
  intros i s Hs. unfold env_updateEnemy_at.
  destruct (env_targets (env s) !! i) as [t |]; [| exact Hs].
  destruct (steerTarget _ _ _ _) as [t' k]. exact Hs.
Qed.

Lemma driftAsteroid_pilot index g : pilot (fst (driftAsteroid index g)) = pilot g.
Proof.
  unfold driftAsteroid.
  destruct (asteroids (env g) !! index) as [a |]; [| reflexivity].
  cbn. destruct (_ !! _) as [obj |]; [| reflexivity].
  cbn. destruct (V.distGt _ _ _); reflexivity.
Qed.

Lemma driftAsteroids_pilot n index g :
  pilot (fst (driftAsteroids n index g)) = pilot g.
Proof.
  revert index g. induction n as [| n IH]; intros index g; cbn; [reflexivity |].
  pose proof (driftAsteroid_pilot index g) as H1.
  destruct (driftAsteroid index g) as [g1 []]; cbn in *.
  - rewrite IH. exact H1.
  - exact H1.
Qed.

Lemma updateEnvironment_pilot dt g :
  pilot (fst (updateEnvironment dt g)) = pilot g.
Proof.
  unfold updateEnvironment.
  pose proof (driftAsteroids_pilot (length (asteroids (env g))) 0 g) as H1.
  destruct (driftAsteroids _ _ _) as [g1 []]; cbn in *; exact H1.
Qed.

Lemma gameOver_frame m g :
  shipState (gameOver m g) = shipState g /\
  lasers (gameOver m g) = lasers g /\
  targets (gameOver m g) = targets g /\
  graceTimers (gameOver m g) = graceTimers g /\
  keys (gameOver m g) = keys g /\
  env (gameOver m g) = env g /\
  score (gameState (gameOver m g)) = score (gameState g) /\
  isGameOver (gameState (gameOver m g)) = true.
Proof.
  unfold gameOver. cbn. destruct (gameOverScreen (ui g)); repeat split.
Qed.

(** [checkCollisions] either returns its input or is one call of
    [handleCollision]. *)
Lemma checkCollisions_cases g :
  checkCollisions g = g \/
  exists obj, obj ∈ collisionObjects (env g) /\
    invulnerable (shipState g) = false /\
    within (position (shipState g)) (deref (env g) (c_position obj))
           (collisionRadius + c_radius obj) /\
    checkCollisions g = handleCollision obj g.
Proof.
  unfold checkCollisions. destruct (invulnerable (shipState g)); [left; reflexivity |].
  induction (collisionObjects (env g)) as [| o objs IH]; cbn; [left; reflexivity |].
  destruct (V.distLt _ _ _) eqn:E.
  - right. exists o. split; [constructor |]. split; [reflexivity |].
    split; [apply distLt_within; exact E | reflexivity].
  - destruct IH as [IH | (obj & Hin & Hinv & Hw & IH)]; [left; exact IH |].
    right. exists obj. split; [constructor; exact Hin |]. auto.
Qed.

Lemma handleCollision_frame obj g :
  lasers (handleCollision obj g) = lasers g /\
  targets (handleCollision obj g) = targets g /\
  graceTimers (handleCollision obj g) = graceTimers g /\
  keys (handleCollision obj g) = keys g /\
  env (handleCollision obj g) = env g /\
  invulnerable (shipState (handleCollision obj g)) = invulnerable (shipState g) /\
  barrelRoll (shipState (handleCollision obj g)) = barrelRoll (shipState g) /\
  velocity (shipState (handleCollision obj g)) = velocity (shipState g) /\
  score (gameState (handleCollision obj g)) = score (gameState g) /\
  isGameOver (gameState (handleCollision obj g)) = true /\
  health (shipState (handleCollision obj g)) =
    match c_type obj with deathstar => health (shipState g) | _ => 0%Z end.
Proof.
  unfold handleCollision.
  destruct (c_type obj);
    match goal with |- context [gameOver ?m ?g0] =>
      destruct (gameOver_frame m g0) as (E1 & E2 & E3 & E4 & E5 & E6 & E7 & E8)
    end; rewrite E1, E2, E3, E4, E5, E6, E7, E8; repeat split.
Qed.

Lemma checkEnemyLasers_playerOwned g :
  playerOwned (lasers g) -> checkEnemyLasers g = g.
Proof.
  intros Hall. unfold checkEnemyLasers. destruct (negb _); [| reflexivity].
  induction (length (lasers g)) as [| n IH]; cbn; [reflexivity |].
  destruct (lasers g !! n) as [l |] eqn:Hl; [| exact IH].
  unfold playerOwned in Hall. rewrite Forall_lookup in Hall.
  rewrite (Hall n l Hl). cbn. exact IH.
Qed.

Lemma fireLaser_peaceful t g : peaceful g -> peaceful (fireLaser t g).
Proof.
  intros (Hl & Hg & Ht & Hi). unfold fireLaser.
  destruct (Qltb _ _); [repeat split; assumption |].
  repeat split; cbn; try assumption.
  apply Forall_app. split; [exact Hl |]. repeat constructor.
Qed.

Lemma moveShip_peaceful g : peaceful g -> peaceful (moveShip g).
Proof. intros (Hl & Hg & Ht & Hi). repeat split; assumption. Qed.

Lemma updateBarrelRoll_peaceful g : peaceful g -> peaceful (updateBarrelRoll g).
Proof.
  intros (Hl & Hg & Ht & Hi). unfold updateBarrelRoll.
  destruct (br_active (barrelRoll (shipState g))) eqn:Ha;
    [| repeat split; try assumption; congruence].
  destruct (Qle_bool _ _); repeat split; cbn; try assumption; congruence.
Qed.

Lemma beforeChecks_peaceful t g : peaceful g -> peaceful (beforeChecks t g).
Proof.
  intros Hp. unfold beforeChecks. apply updateBarrelRoll_peaceful.
  destruct (k_f _); [apply fireLaser_peaceful |]; apply moveShip_peaceful; exact Hp.
Qed.

Lemma checkCollisions_peaceful g : peaceful g -> peaceful (checkCollisions g).
Proof.
  intros (Hl & Hg & Ht & Hi).
  destruct (checkCollisions_cases g) as [E | (obj & _ & _ & _ & E)]; rewrite E;
    [repeat split; assumption |].
  destruct (handleCollision_frame obj g) as (E1 & E2 & E3 & _ & _ & E6 & E7 & _).
  unfold peaceful. rewrite E1, E2, E3, E6, E7. repeat split; assumption.
Qed.

Lemma updateShipPhysics_peaceful dt t g :
  peaceful g ->
  peaceful (updateShipPhysics dt t g) /\
  updateShipPhysics dt t g = checkCollisions (beforeChecks t g).
Proof.
  intros Hp. unfold updateShipPhysics. fold (beforeChecks t g).
  pose proof (checkCollisions_peaceful _ (beforeChecks_peaceful t g Hp)) as Hc.
  rewrite (checkEnemyLasers_playerOwned _ (proj1 Hc)). split; [exact Hc | reflexivity].
Qed.

Lemma peaceful_pilot g g' :
  pilot g' = pilot g -> playerOwned (lasers g') -> peaceful g -> peaceful g'.
Proof.
  unfold pilot. intros E Hl (_ & Hg & Ht & Hi).
  injection E as E1 _ _ E3 E4 _ _. unfold peaceful. rewrite E1, E3, E4. auto.
Qed.

Lemma animate_peaceful dt t g : peaceful g -> peaceful (animate dt t g).
Proof.
  intros Hp. unfold animate. destruct (isGameOver (gameState g)); [exact Hp |].
  destruct (updateShipPhysics_peaceful dt t g Hp) as [H1 _].
  pose proof (updateEnvironment_pilot dt (updateShipPhysics dt t g)) as E.
  destruct (updateEnvironment_shipState dt (updateShipPhysics dt t g))
    as (_ & _ & _ & El & _).
  destruct (updateEnvironment _ _) as [g2 []]; cbn in E, El.
  - assert (H2 : peaceful g2).
    { apply (peaceful_pilot _ _ E); [rewrite El; apply H1 | exact H1]. }
    assert (H3 : peaceful (env_updateEnemies dt g2)).
    { apply (peaceful_pilot _ _ (env_updateEnemies_pilot dt g2)); [| exact H2].
      destruct (env_updateEnemies_frame dt g2) as (_ & _ & E3 & _).
      rewrite E3. apply H2. }
    assert (H4 : peaceful (updateLasers dt (env_updateEnemies dt g2))).
    { apply (peaceful_pilot _ _ (updateLasers_pilot dt _)); [| exact H3].
      apply updateLasers_Forall; [intros l Hl; exact Hl | apply H3]. }
    exact H4.
  - apply (peaceful_pilot _ _ E); [rewrite El; apply H1 | exact H1].
Qed.

Lemma step_peaceful ev g : peaceful g -> peaceful (step ev g).
Proof.
  intros Hp. destruct ev as [dt t | k t | k | k b | t |]; cbn.
  - apply animate_peaceful. exact Hp.
  - unfold onKeyDown.
    assert (Hk : peaceful (set_keys (setKey k true) g)) by exact Hp.
    assert (Hs : forall d g0, peaceful g0 -> peaceful (startBarrelRoll d g0)).
    { intros d g0 (Hl & Hg & Ht & Hi). repeat split; assumption. }
    destruct k; try exact Hk;
      try (cbn; destruct (br_active _); [exact Hk | apply Hs; exact Hk]).
    apply fireLaser_peaceful. exact Hk.
  - exact Hp.
  - exact Hp.
  - apply fireLaser_peaceful. exact Hp.
  - unfold onGraceTimeout. destruct Hp as (Hl & Hg & Ht & Hi). rewrite Hg.
    repeat split; assumption.
Qed.

Lemma run_invariant (I : Game -> Prop) :
  (forall ev g, I g -> I (step ev g)) ->
  forall evs g, I g -> I (run evs g).
Proof.
  intros Hstep evs. induction evs as [| ev evs IH]; intros g Hg; [exact Hg |].
  change (run (ev :: evs) g) with (run evs (step ev g)).
  apply IH, Hstep, Hg.
Qed.


Lemma createAsteroidField_cockpit cx cy cz r n g :
  cockpit (createAsteroidField cx cy cz r n g) = cockpit g.
Proof.
  unfold createAsteroidField.
  apply (for_up_invariant (fun g' => cockpit g' = cockpit g)); [| reflexivity].
  intros i s Hs. rewrite <- Hs. reflexivity.
Qed.

Lemma createEnemyFighters_cockpit g :
  cockpit (createEnemyFighters g) = cockpit g.
Proof.
  unfold createEnemyFighters.
  apply (for_up_invariant (fun g' => cockpit g' = cockpit g)); [| reflexivity].
  intros i s Hs. rewrite <- Hs. reflexivity.
Qed.

Lemma initUI_cockpit g : cockpit (initUI g) = cockpit g.
Proof. reflexivity. Qed.

Lemma createDeathStar_cockpit g : cockpit (createDeathStar g) = cockpit g.
Proof. reflexivity. Qed.

Lemma createPlanet_cockpit x y z r g :
  cockpit (createPlanet x y z r g) = cockpit g.
Proof. reflexivity. Qed.

Lemma init_cockpit : cockpit init = cockpit emptyGame.
Proof.
  unfold init. cbv zeta.
  rewrite initUI_cockpit, createEnemyFighters_cockpit, createDeathStar_cockpit,
    createAsteroidField_cockpit, !createPlanet_cockpit.
  reflexivity.
Qed.

Lemma init_peaceful : peaceful init.
Proof.
  pose proof init_cockpit as E.
  assert (E1 : shipState init = shipState emptyGame)
    by exact (f_equal (fun c => fst (fst (fst (fst (fst (fst (fst c))))))) E).
  assert (E5 : lasers init = lasers emptyGame)
    by exact (f_equal (fun c => snd (fst (fst (fst c)))) E).
  assert (E7 : targets init = targets emptyGame)
    by exact (f_equal (fun c => snd (fst c)) E).
  assert (E8 : graceTimers init = graceTimers emptyGame)
    by exact (f_equal snd E).
  unfold peaceful. rewrite E1, E5, E7, E8. repeat split. constructor.
Qed.

(** What an input event, that is any event but a frame, leaves alone. *)
Lemma input_event_frame ev g :
  (exists dt t, ev = Frame dt t) \/
  (simulated (step ev g) = simulated g /\ gameState (step ev g) = gameState g /\
   velocity (shipState (step ev g)) = velocity (shipState g)).
Proof.
  destruct ev as [dt t | k t | k | k b | t |]; [left; eauto | right ..];
    unfold simulated; cbn.
  - unfold onKeyDown. destruct k; cbn; try (repeat split; reflexivity).
    + destruct (br_active (barrelRoll (shipState g))); repeat split.
    + destruct (br_active (barrelRoll (shipState g))); repeat split.
    + unfold fireLaser. cbn. destruct (Qltb _ _); repeat split.
  - repeat split.
  - repeat split.
  - unfold fireLaser. destruct (Qltb _ _); repeat split.
  - unfold onGraceTimeout. destruct (graceTimers g); repeat split.
Qed.

Lemma beforeChecks_health t g :
  health (shipState (beforeChecks t g)) = health (shipState g) /\
  isGameOver (gameState (beforeChecks t g)) = isGameOver (gameState g).
Proof.
  destruct (beforeChecks_frame t g) as (Bh & Bgs & _). rewrite Bh, Bgs. auto.
Qed.

Lemma rest_of_frame_pilot dt g :
  pilot (match updateEnvironment dt g with
         | (g2, Thrown) => g2
         | (g2, Normal) =>
             render (updateExplosions dt
               (updateLasers dt (env_updateEnemies dt g2)))
         end) = pilot g.
Proof.
  pose proof (updateEnvironment_pilot dt g) as E.
  destruct (updateEnvironment dt g) as [g2 []]; cbn in E; [| exact E].
  change (pilot (render (updateExplosions dt ?x))) with (pilot x).
  rewrite updateLasers_pilot, env_updateEnemies_pilot. exact E.
Qed.

Lemma animate_unhurt dt t g :
  peaceful g -> unhurt g -> unhurt (animate dt t g).
Proof.
  intros Hp Hu. unfold animate.
  destruct (isGameOver (gameState g)) eqn:Hover; [exact Hu |].
  pose proof (rest_of_frame_pilot dt (updateShipPhysics dt t g)) as E.
  set (g' := match updateEnvironment dt (updateShipPhysics dt t g) with
             | (g2, Thrown) => g2 | (g2, Normal) => _ end) in *.
  assert (Hh : health (shipState g) = 100%Z).
  { destruct Hu as [Hu | [_ Hu]]; [exact Hu | congruence]. }
  assert (H1 : unhurt (updateShipPhysics dt t g)).
  { destruct (updateShipPhysics_peaceful dt t g Hp) as [_ Eq]. rewrite Eq.
    destruct (beforeChecks_health t g) as [Bh Bo].
    destruct (checkCollisions_cases (beforeChecks t g))
      as [Ec | (obj & _ & _ & _ & Ec)]; rewrite Ec.
    - left. rewrite Bh. exact Hh.
    - destruct (handleCollision_frame obj (beforeChecks t g))
        as (_ & _ & _ & _ & _ & _ & _ & _ & _ & Eo & Eh).
      unfold unhurt. rewrite Eo, Eh, Bh, Hh.
      destruct (c_type obj); auto. }
  unfold pilot in E.
  assert (E1 : shipState g' = shipState (updateShipPhysics dt t g))
    by exact (f_equal (fun c => fst (fst (fst (fst (fst (fst c)))))) E).
  assert (E2 : isGameOver (gameState g') =
               isGameOver (gameState (updateShipPhysics dt t g)))
    by exact (f_equal (fun c => snd (fst (fst (fst (fst (fst c)))))) E).
  unfold unhurt. rewrite E1, E2. exact H1.
Qed.

Lemma step_peaceful_unhurt ev g :
  peaceful g /\ unhurt g -> peaceful (step ev g) /\ unhurt (step ev g).
Proof.
  intros [Hp Hu]. split; [apply step_peaceful; exact Hp |].
  destruct (input_event_frame ev g) as [(dt & t & ->) | (Es & Eg & _)].
  - apply animate_unhurt; assumption.
  - unfold unhurt. rewrite Eg.
    assert (Eh : health (shipState (step ev g)) = health (shipState g))
      by exact (f_equal (fun c => fst (fst (fst (fst c)))) Es).
    rewrite Eh. exact Hu.
Qed.

Lemma init_unhurt : unhurt init.
Proof.
  pose proof init_cockpit as E.
  assert (E1 : shipState init = shipState emptyGame)
    by exact (f_equal (fun c => fst (fst (fst (fst (fst (fst (fst c))))))) E).
  left. rewrite E1. reflexivity.
Qed.




(** X1. In every state reachable from [init] the ship has its full 100
    health, or 0 health with the game over: health is lost only in a fatal
    collision with an asteroid or a planet, and all of it at once. *)
Theorem health_is_full_until_a_fatal_collision (evs : list Event) :
  health (shipState (run evs init)) = 100%Z \/
  (health (shipState (run evs init)) = 0%Z /\
   isGameOver (gameState (run evs init)) = true).
Proof.
  apply (run_invariant (fun g => peaceful g /\ unhurt g)
           step_peaceful_unhurt evs init).
  split; [exact init_peaceful | exact init_unhurt].
Qed.

(** ** How the ship moves *)

Lemma gameOver_motion m g : motion (gameOver m g) = motion g.
Proof. unfold gameOver. cbn. destruct (gameOverScreen (ui g)); reflexivity. Qed.

Lemma fireLaser_motion t g : motion (fireLaser t g) = motion g.
Proof. unfold fireLaser. destruct (Qltb _ _); reflexivity. Qed.

Lemma updateBarrelRoll_motion g : motion (updateBarrelRoll g) = motion g.
Proof.
  unfold updateBarrelRoll.
  destruct (br_active _); [destruct (Qle_bool _ _) |]; reflexivity.
Qed.

Lemma handleCollision_motion obj g : motion (handleCollision obj g) = motion g.
Proof.
  unfold handleCollision. destruct (c_type obj); rewrite gameOver_motion; reflexivity.
Qed.

Lemma checkCollisions_motion g : motion (checkCollisions g) = motion g.
Proof.
  destruct (checkCollisions_cases g) as [E | (obj & _ & _ & _ & E)]; rewrite E;
    [reflexivity | apply handleCollision_motion].
Qed.

Lemma hitShip_motion i l g : motion (hitShip i l g) = motion g.
Proof.
  unfold hitShip. cbn. destruct (_ <=? _)%Z; [| reflexivity].
  rewrite gameOver_motion. reflexivity.
Qed.

Lemma checkEnemyLasers_motion g : motion (checkEnemyLasers g) = motion g.
Proof.
  unfold checkEnemyLasers. destruct (negb _); [| reflexivity].
  induction (length (lasers g)) as [| n IH]; cbn; [reflexivity |].
  destruct (lasers g !! n) as [l |]; [| exact IH].
  destruct (negb (l_isEnemy l)); [exact IH |].
  destruct (V.distLt _ _ _); [| exact IH].
  apply hitShip_motion.
Qed.

Lemma updateShipPhysics_motion dt t g :
  motion (updateShipPhysics dt t g) = motion (moveShip g).
Proof.
  unfold updateShipPhysics.
  rewrite checkEnemyLasers_motion, checkCollisions_motion, updateBarrelRoll_motion.
  destruct (k_f _); [apply fireLaser_motion | reflexivity].
Qed.

Lemma pilot_motion g g' : pilot g' = pilot g -> motion g' = motion g.
Proof.
  unfold pilot. intros E. injection E as E1 _ _ _ _ E6 _.
  unfold motion. rewrite E1, E6. reflexivity.
Qed.

Lemma animate_motion dt t g :
  motion (animate dt t g) =
    if isGameOver (gameState g) then motion g else motion (moveShip g).
Proof.
  unfold animate. destruct (isGameOver (gameState g)); [reflexivity |].
  rewrite <- (updateShipPhysics_motion dt t g).
  apply pilot_motion. apply rest_of_frame_pilot.
Qed.

(** What an event that is not a frame leaves alone. *)
Lemma input_event_motion ev g :
  (exists dt t, ev = Frame dt t) \/
  (motion (step ev g) = motion g /\ xwing (step ev g) = xwing g /\
   health (shipState (step ev g)) = health (shipState g) /\
   env (step ev g) = env g /\ ui (step ev g) = ui g /\
   gameState (step ev g) = gameState g /\
   explosions (step ev g) = explosions g /\ targets (step ev g) = targets g).
Proof.
  destruct ev as [dt t | k t | k | k b | t |]; [left; eauto | right ..]; cbn.
  - unfold onKeyDown. destruct k; cbn; try (repeat split; reflexivity).
    + destruct (br_active (barrelRoll (shipState g))); repeat split.
    + destruct (br_active (barrelRoll (shipState g))); repeat split.
    + unfold fireLaser. cbn. destruct (Qltb _ _); repeat split.
  - repeat split.
  - repeat split.
  - unfold fireLaser. destruct (Qltb _ _); repeat split.
  - unfold onGraceTimeout. destruct (graceTimers g); repeat split.
Qed.

(** X2. From a vertical velocity between -0.098 and 0.49 the update never
    reaches the limit of [maxSpeed * 0.5]: the clamp is not taken, the new
    value is the old one plus the thrust or minus the gravity, times the
    drag, and it lies between -0.098 and 0.49 again. *)
Theorem updateVertical_never_clamps (k : Keys) (y : Q) :
  -0.098 <= y <= 0.49 ->
  updateVertical k y = (if k_space k then y + 0.01 else y - 0.002) * drag /\
  -0.098 <= updateVertical k y <= 0.49.
Proof.
  intros [Hlo Hhi]. unfold updateVertical, drag, maxSpeed.
  set (y2 := (if k_space k then y + 0.01 else y - 0.002) * 0.98).
  assert (Hb : -0.098 <= y2 <= 0.49).
  { unfold y2. destruct (k_space k); lra. }
  assert (E : Qltb (1 * 0.5) (Qabs y2) = false).
  { apply Qltb_ge. apply Qabs_Qle_condition. lra. }
  rewrite E. split; [reflexivity | exact Hb].
Qed.

Lemma step_vertical ev g :
  -0.098 <= vy (velocity (shipState g)) <= 0.49 ->
  -0.098 <= vy (velocity (shipState (step ev g))) <= 0.49.
Proof.
  intros Hg.
  assert (Hm : forall g', motion g' = motion g ->
             -0.098 <= vy (velocity (shipState g')) <= 0.49).
  { intros g' E.
    assert (E1 : velocity (shipState g') = velocity (shipState g))
      by exact (f_equal (fun c => fst (fst (fst (fst c)))) E).
    rewrite E1. exact Hg. }
  destruct (input_event_motion ev g) as [(dt & t & ->) | (E & _)];
    [| apply Hm; exact E].
  cbn. pose proof (animate_motion dt t g) as E.
  destruct (isGameOver (gameState g)); [apply Hm; exact E |].
  assert (E1 : velocity (shipState (animate dt t g)) =
               velocity (shipState (moveShip g)))
    by exact (f_equal (fun c => fst (fst (fst (fst c)))) E).
  rewrite E1. cbn.
  destruct (updateVertical_never_clamps (keys g) _ Hg) as [_ Hb]. exact Hb.
Qed.

(** X3. After any sequence of frames, key and touch events and timers from
    [init], the vertical velocity of the ship lies between -0.098 and 0.49,
    so the limit of 0.5 on its absolute value is never reached. *)
Theorem vertical_speed_stays_below_the_limit (evs : list Event) :
  -0.098 <= vy (velocity (shipState (run evs init))) <= 0.49 /\
  Qabs (vy (velocity (shipState (run evs init)))) < maxSpeed * 0.5.
Proof.
  assert (Hb : -0.098 <= vy (velocity (shipState (run evs init))) <= 0.49).
  { apply (run_invariant
             (fun g => -0.098 <= vy (velocity (shipState g)) <= 0.49)
             step_vertical).
    pose proof init_cockpit as E.
    assert (E1 : shipState init = shipState emptyGame)
      by exact (f_equal (fun c => fst (fst (fst (fst (fst (fst (fst c))))))) E).
    rewrite E1. cbn. lra. }
  split; [exact Hb |].
  apply Qle_lt_trans with 0.49; [| reflexivity].
  apply Qabs_Qle_condition. lra.
Qed.

(** ** The two ship checks and the rest of a frame *)

Lemma checkCollisions_shipState g :
  exists h, shipState (checkCollisions g) = set_health h (shipState g).
Proof.
  destruct (checkCollisions_cases g) as [E | (obj & _ & _ & _ & E)]; rewrite E.
  - exists (health (shipState g)). destruct (shipState g); reflexivity.
  - unfold handleCollision.
    destruct (c_type obj); rewrite gameOver_shipState;
      [exists 0%Z; reflexivity | exists 0%Z; reflexivity |].
    exists (health (shipState g)). destruct (shipState g); reflexivity.
Qed.

(** The check against enemy projectiles returns its input or is one call of
    [hitShip], for an enemy projectile of the list that is within the
    collision radius of the ship. *)
Lemma checkEnemyLasers_cases g :
  checkEnemyLasers g = g \/
  exists i l, lasers g !! i = Some l /\ l_isEnemy l = true /\
    invulnerable (shipState g) = false /\
    within (l_position l) (position (shipState g)) collisionRadius /\
    checkEnemyLasers g = hitShip i l g.
Proof.
  unfold checkEnemyLasers.
  destruct (invulnerable (shipState g)) eqn:Hinv; [left; reflexivity |]. cbn.
  induction (length (lasers g)) as [| n IH]; cbn; [left; reflexivity |].
  destruct (lasers g !! n) as [l |] eqn:Hl; [| exact IH].
  destruct (l_isEnemy l) eqn:He; cbn; [| exact IH].
  destruct (V.distLt _ _ _) eqn:Hd; [| exact IH].
  right. exists n, l. split; [exact Hl |]. split; [exact He |].
  split; [reflexivity |]. split; [apply distLt_within; exact Hd | reflexivity].
Qed.

Lemma hitShip_frame i l g :
  shipState (hitShip i l g) =
    set_invulnerable true
      (set_health (health (shipState g) - l_damage l)%Z (shipState g)) /\
  lasers (hitShip i l g) = delete i (lasers g) /\
  graceTimers (hitShip i l g) = S (graceTimers g) /\
  env (hitShip i l g) = env g /\
  score (gameState (hitShip i l g)) = score (gameState g) /\
  targets (hitShip i l g) = targets g /\
  keys (hitShip i l g) = keys g.
Proof.
  unfold hitShip. cbn. destruct (_ <=? _)%Z; [| repeat split].
  match goal with |- context [gameOver ?m ?g0] =>
    destruct (gameOver_frame m g0) as (E1 & E2 & E3 & E4 & E5 & E6 & E7 & _)
  end.
  rewrite E1, E2, E3, E4, E5, E6, E7. repeat split.
Qed.

Lemma checkEnemyLasers_shipState g :
  exists h b, shipState (checkEnemyLasers g) =
                set_invulnerable b (set_health h (shipState g)).
Proof.
  destruct (checkEnemyLasers_cases g) as [E | (i & l & _ & _ & _ & _ & E)];
    rewrite E.
  - exists (health (shipState g)), (invulnerable (shipState g)).
    destruct (shipState g); reflexivity.
  - destruct (hitShip_frame i l g) as (E1 & _). rewrite E1. eauto.
Qed.

Lemma checkEnemyLasers_length g :
  (length (lasers (checkEnemyLasers g)) <= length (lasers g))%nat.
Proof.
  destruct (checkEnemyLasers_cases g) as [E | (i & l & _ & _ & _ & _ & E)];
    rewrite E; [lia |].
  destruct (hitShip_frame i l g) as (_ & E2 & _). rewrite E2.
  apply length_delete_le.
Qed.

Lemma checkCollisions_lasers g : lasers (checkCollisions g) = lasers g.
Proof.
  destruct (checkCollisions_cases g) as [E | (obj & _ & _ & _ & E)]; rewrite E;
    [reflexivity | apply handleCollision_frame].
Qed.

Lemma rest_of_frame_length dt g :
  (length (lasers (match updateEnvironment dt g with
                   | (g2, Thrown) => g2
                   | (g2, Normal) =>
                       render (updateExplosions dt
                         (updateLasers dt (env_updateEnemies dt g2)))
                   end)) <= length (lasers g))%nat.
Proof.
  destruct (updateEnvironment_shipState dt g) as (_ & _ & _ & El & _).
  destruct (updateEnvironment dt g) as [g2 []]; cbn in El; [| rewrite El; lia].
  change (lasers (render (updateExplosions dt ?x))) with (lasers x).
  etransitivity; [apply updateLasers_length |].
  destruct (env_updateEnemies_frame dt g2) as (_ & _ & E3 & _).
  rewrite E3, El. lia.
Qed.

Lemma rest_of_frame_shipState dt g :
  shipState (match updateEnvironment dt g with
             | (g2, Thrown) => g2
             | (g2, Normal) =>
                 render (updateExplosions dt
                   (updateLasers dt (env_updateEnemies dt g2)))
             end) = shipState g.
Proof.
  exact (f_equal (fun c => fst (fst (fst (fst (fst (fst c))))))
           (rest_of_frame_pilot dt g)).
Qed.

(** ** The barrel roll *)

Lemma run_over evs g :
  isGameOver (gameState g) = true -> isGameOver (gameState (run evs g)) = true.
Proof.
  apply (run_invariant (fun g => isGameOver (gameState g) = true)).
  intros ev g0 H0. apply step_over. exact H0.
Qed.

Lemma updateBarrelRoll_barrelRoll g1 g :
  barrelRoll (shipState g1) = barrelRoll (shipState g) ->
  barrelRoll (shipState (updateBarrelRoll g1)) =
  barrelRoll (shipState (updateBarrelRoll g)).
Proof.
  intros E. unfold updateBarrelRoll. rewrite E.
  destruct (br_active _); [destruct (Qle_bool _ _) |]; cbn;
    try reflexivity; exact E.
Qed.

Lemma updateShipPhysics_barrelRoll dt t g :
  barrelRoll (shipState (updateShipPhysics dt t g)) =
  barrelRoll (shipState (updateBarrelRoll g)).
Proof.
  unfold updateShipPhysics.
  set (g2 := if k_f (keys (moveShip g)) then fireLaser t (moveShip g)
             else moveShip g).
  destruct (checkEnemyLasers_shipState (checkCollisions (updateBarrelRoll g2)))
    as (h & b & E). rewrite E.
  destruct (checkCollisions_shipState (updateBarrelRoll g2)) as (h' & E').
  rewrite E'.
  change (barrelRoll (set_invulnerable b (set_health h (set_health h' ?s))))
    with (barrelRoll s).
  apply updateBarrelRoll_barrelRoll. unfold g2.
  destruct (k_f _); [| reflexivity].
  unfold fireLaser. destruct (Qltb _ _); reflexivity.
Qed.

Lemma animate_barrelRoll dt t g :
  isGameOver (gameState g) = false ->
  barrelRoll (shipState (animate dt t g)) =
  barrelRoll (shipState (updateBarrelRoll g)).
Proof.
  intros Hover. unfold animate. rewrite Hover.
  rewrite rest_of_frame_shipState. apply updateShipPhysics_barrelRoll.
Qed.

(** A roll in progress is not touched by an event that is not a frame. *)
Lemma input_event_barrelRoll ev g :
  br_active (barrelRoll (shipState g)) = true ->
  match ev with
  | Frame _ _ => True
  | _ => barrelRoll (shipState (step ev g)) = barrelRoll (shipState g)
  end.
Proof.
  intros Ha.
  destruct ev as [dt t | k t | k | k b | t |]; [exact I | ..]; cbn.
  - unfold onKeyDown. destruct k; cbn; try reflexivity.
    + rewrite Ha. reflexivity.
    + rewrite Ha. reflexivity.
    + unfold fireLaser. cbn. destruct (Qltb _ _); reflexivity.
  - reflexivity.
  - reflexivity.
  - unfold fireLaser. destruct (Qltb _ _); reflexivity.
  - unfold onGraceTimeout. destruct (graceTimers g); reflexivity.
Qed.

Lemma roll_continues (p : Q) (k : nat) :
  p == inject_Z (Z.of_nat k) * barrelRoll_speed -> (k < 125)%nat ->
  Qle_bool barrelRoll_duration (p + barrelRoll_speed) = false.
Proof.
  intros Hp Hk. destruct (Qle_bool _ _) eqn:E; [| reflexivity].
  apply Qle_bool_iff in E. exfalso.
  assert (Hq : inject_Z (Z.of_nat k) <= inject_Z 124).
  { rewrite <- Zle_Qle. lia. }
  unfold barrelRoll_duration, barrelRoll_speed in *.
  change (inject_Z 124) with 124 in Hq. lra.
Qed.

Lemma roll_ends (p : Q) :
  p == inject_Z (Z.of_nat 125) * barrelRoll_speed ->
  Qle_bool barrelRoll_duration (p + barrelRoll_speed) = true.
Proof.
  intros Hp. apply Qle_bool_iff.
  unfold barrelRoll_duration, barrelRoll_speed in *.
  change (inject_Z (Z.of_nat 125)) with 125 in Hp. lra.
Qed.

Lemma updateBarrelRoll_rolling k g :
  rolling k g -> (k < 125)%nat ->
  rolling (S k) (updateBarrelRoll g) /\
  br_direction (barrelRoll (shipState (updateBarrelRoll g))) =
    br_direction (barrelRoll (shipState g)).
Proof.
  intros [Ha Hp] Hk. unfold updateBarrelRoll, rolling. rewrite Ha.
  rewrite (roll_continues _ k Hp Hk). cbn. split; [| reflexivity].
  split; [reflexivity |]. rewrite Hp. rewrite Nat2Z.inj_succ.
  unfold Z.succ. rewrite inject_Z_plus. unfold barrelRoll_speed.
  change (inject_Z 1) with 1. lra.
Qed.

Lemma run_rolling evs :
  forall k g,
  rolling k g ->
  isGameOver (gameState (run evs g)) = false ->
  (k + frames evs < 126)%nat ->
  rolling (k + frames evs) (run evs g) /\
  br_direction (barrelRoll (shipState (run evs g))) =
    br_direction (barrelRoll (shipState g)).
Proof.
  induction evs as [| ev evs IH]; intros k g Hr Hover Hk.
  - cbn in *. rewrite Nat.add_0_r. split; [exact Hr | reflexivity].
  - change (run (ev :: evs) g) with (run evs (step ev g)) in *.
    pose proof (input_event_barrelRoll ev g (proj1 Hr)) as E.
    destruct ev as [dt t | k0 t | k0 | k0 b | t |].
    + cbn [frames] in *.
      assert (Hnow : isGameOver (gameState (step (Frame dt t) g)) = false).
      { destruct (isGameOver (gameState (step (Frame dt t) g))) eqn:E1;
          [| reflexivity].
        rewrite (run_over evs _ E1) in Hover. discriminate. }
      assert (Hg : isGameOver (gameState g) = false).
      { destruct (isGameOver (gameState g)) eqn:E1; [| reflexivity].
        destruct (step_over (Frame dt t) g E1) as [E' _]. congruence. }
      destruct (updateBarrelRoll_rolling k g Hr ltac:(lia)) as [Hr' Hd'].
      assert (Hs : rolling (S k) (step (Frame dt t) g)).
      { unfold rolling. cbn [step].
        rewrite (animate_barrelRoll dt t g Hg). exact Hr'. }
      destruct (IH (S k) _ Hs Hover ltac:(lia)) as [I1 I2].
      replace (k + S (frames evs))%nat with (S k + frames evs)%nat by lia.
      split; [exact I1 |]. rewrite I2. cbn [step].
      rewrite (animate_barrelRoll dt t g Hg). exact Hd'.
    + assert (Hs : rolling k (step (KeyDown k0 t) g))
        by (unfold rolling; rewrite E; exact Hr).
      destruct (IH k _ Hs Hover Hk) as [I1 I2].
      split; [exact I1 |]. rewrite I2, E. reflexivity.
    + assert (Hs : rolling k (step (KeyUp k0) g))
        by (unfold rolling; rewrite E; exact Hr).
      destruct (IH k _ Hs Hover Hk) as [I1 I2].
      split; [exact I1 |]. rewrite I2, E. reflexivity.
    + assert (Hs : rolling k (step (Touch k0 b) g))
        by (unfold rolling; rewrite E; exact Hr).
      destruct (IH k _ Hs Hover Hk) as [I1 I2].
      split; [exact I1 |]. rewrite I2, E. reflexivity.
    + assert (Hs : rolling k (step (FireButton t) g))
        by (unfold rolling; rewrite E; exact Hr).
      destruct (IH k _ Hs Hover Hk) as [I1 I2].
      split; [exact I1 |]. rewrite I2, E. reflexivity.
    + assert (Hs : rolling k (step GraceTimeout g))
        by (unfold rolling; rewrite E; exact Hr).
      destruct (IH k _ Hs Hover Hk) as [I1 I2].
      split; [exact I1 |]. rewrite I2, E. reflexivity.
Qed.

(** X4. A barrel roll lasts 126 frames.  From a state in which a roll has
    just started, and as long as the game is not over, after any events with
    fewer than 126 frames among them the roll is still active, in its
    direction, with [progress] the number of frames times [speed]: no key,
    touch, fire or timer event restarts, reverses or ends it.  The frame after
    the 125th ends it and resets its progress. *)
Theorem barrel_roll_takes_126_frames (g : Game) (evs : list Event) :
  rolling 0 g ->
  isGameOver (gameState (run evs g)) = false ->
  (frames evs < 126)%nat ->
  rolling (frames evs) (run evs g) /\
  br_direction (barrelRoll (shipState (run evs g))) =
    br_direction (barrelRoll (shipState g)) /\
  (frames evs = 125%nat -> forall deltaTime currentTime,
     barrelRoll (shipState (step (Frame deltaTime currentTime) (run evs g))) =
       mkBarrelRoll false (br_direction (barrelRoll (shipState g))) 0).
Proof.
  intros Hr Hover Hk.
  destruct (run_rolling evs 0 g Hr Hover Hk) as [I1 I2].
  split; [exact I1 |]. split; [exact I2 |].
  intros H125 dt t. cbn [step]. rewrite (animate_barrelRoll dt t _ Hover).
  cbn [Nat.add] in I1. rewrite H125 in I1. destruct I1 as [Ha Hp].
  unfold updateBarrelRoll. rewrite Ha, (roll_ends _ Hp). cbn.
  rewrite I2. reflexivity.
Qed.

(** ** The rate of fire *)

Lemma fireLaser_dropped t g :
  t < lastShotTime (shipState g) + shootCooldown -> fireLaser t g = g.
Proof.
  intros Ht. unfold fireLaser.
  assert (E : Qltb (t - lastShotTime (shipState g)) shootCooldown = true)
    by (apply Qltb_lt; lra).
  rewrite E. reflexivity.
Qed.

Lemma updateBarrelRoll_lastShotTime g :
  lastShotTime (shipState (updateBarrelRoll g)) = lastShotTime (shipState g).
Proof.
  unfold updateBarrelRoll.
  destruct (br_active _); [destruct (Qle_bool _ _) |]; reflexivity.
Qed.

Lemma step_cooldown ev g :
  clockBefore (lastShotTime (shipState g) + shootCooldown) ev ->
  lastShotTime (shipState (step ev g)) = lastShotTime (shipState g) /\
  (length (lasers (step ev g)) <= length (lasers g))%nat.
Proof.
  intros Hc. destruct ev as [dt t | k t | k | k b | t |]; cbn in Hc |- *.
  - unfold animate. destruct (isGameOver (gameState g)); [split; [reflexivity | lia] |].
    rewrite rest_of_frame_shipState.
    assert (Ep : updateShipPhysics dt t g =
                 checkEnemyLasers (checkCollisions (updateBarrelRoll (moveShip g)))).
    { unfold updateShipPhysics. destruct (k_f _); [| reflexivity].
      rewrite (fireLaser_dropped t (moveShip g) Hc). reflexivity. }
    split.
    + rewrite Ep.
      destruct (checkEnemyLasers_shipState
                  (checkCollisions (updateBarrelRoll (moveShip g))))
        as (h & b & E). rewrite E.
      destruct (checkCollisions_shipState (updateBarrelRoll (moveShip g)))
        as (h' & E'). rewrite E'.
      change (lastShotTime (set_invulnerable b (set_health h (set_health h' ?s))))
        with (lastShotTime s).
      rewrite updateBarrelRoll_lastShotTime. reflexivity.
    + etransitivity; [apply rest_of_frame_length |]. rewrite Ep.
      etransitivity; [apply checkEnemyLasers_length |].
      rewrite checkCollisions_lasers.
      destruct (updateBarrelRoll_frame (moveShip g)) as (_ & _ & _ & _ & El & _).
      rewrite El. cbn. lia.
  - unfold onKeyDown.
    destruct k; cbn; try (split; [reflexivity | lia]).
    + destruct (br_active _); cbn; split; try reflexivity; lia.
    + destruct (br_active _); cbn; split; try reflexivity; lia.
    + rewrite (fireLaser_dropped t (set_keys (setKey Kf true) g) Hc).
      split; [reflexivity | cbn; lia].
  - split; [reflexivity | lia].
  - split; [reflexivity | lia].
  - rewrite (fireLaser_dropped t g Hc). split; [reflexivity | lia].
  - unfold onGraceTimeout. destruct (graceTimers g); cbn; split; try reflexivity; lia.
Qed.

(** X5. At most one shot per cooldown.  While every clock reading, in a
    frame, at a key going down or at the fire button, is less than
    [shootCooldown] after the last shot, no sequence of events adds a
    projectile: [lastShotTime] stays what it is and [lasers] does not grow,
    whether the fire key is held, pressed again or the button is tapped. *)
Theorem one_shot_per_cooldown (g : Game) (evs : list Event) :
  Forall (clockBefore (lastShotTime (shipState g) + shootCooldown)) evs ->
  lastShotTime (shipState (run evs g)) = lastShotTime (shipState g) /\
  (length (lasers (run evs g)) <= length (lasers g))%nat.
Proof.
  revert g. induction evs as [| ev evs IH]; intros g Hall;
    [split; [reflexivity | cbn; lia] |].
  change (run (ev :: evs) g) with (run evs (step ev g)).
  apply Forall_cons in Hall. destruct Hall as [Hev Hall].
  destruct (step_cooldown ev g Hev) as [E1 E2].
  destruct (IH (step ev g)) as [I1 I2]; [rewrite E1; exact Hall |].
  split; [rewrite I1; exact E1 | lia].
Qed.

(** ** Enemy fire on the ship *)

Lemma shipLasers_loop_cases n g :
  (shipLasers_loop n g = g /\
   forall j l, (j < n)%nat -> lasers g !! j = Some l -> l_isEnemy l = true ->
     ~ within (l_position l) (position (shipState g)) collisionRadius) \/
  exists i l, (i < n)%nat /\ lasers g !! i = Some l /\ l_isEnemy l = true /\
    within (l_position l) (position (shipState g)) collisionRadius /\
    (forall j l', (i < j < n)%nat -> lasers g !! j = Some l' ->
       l_isEnemy l' = true ->
       ~ within (l_position l') (position (shipState g)) collisionRadius) /\
    shipLasers_loop n g = hitShip i l g.
Proof.
  induction n as [| n IH]; cbn; [left; split; [reflexivity | intros; lia] |].
  assert (Hskip :
    (forall l, lasers g !! n = Some l -> l_isEnemy l = true ->
       ~ within (l_position l) (position (shipState g)) collisionRadius) ->
    (shipLasers_loop n g = g /\
     forall j l, (j < S n)%nat -> lasers g !! j = Some l -> l_isEnemy l = true ->
       ~ within (l_position l) (position (shipState g)) collisionRadius) \/
    exists i l, (i < S n)%nat /\ lasers g !! i = Some l /\ l_isEnemy l = true /\
      within (l_position l) (position (shipState g)) collisionRadius /\
      (forall j l', (i < j < S n)%nat -> lasers g !! j = Some l' ->
         l_isEnemy l' = true ->
         ~ within (l_position l') (position (shipState g)) collisionRadius) /\
      shipLasers_loop n g = hitShip i l g).
  { intros Hn. destruct IH as [[E Hall] | (i & l & Hi & Hl & He & Hw & Hall & E)].
    - left. split; [exact E |]. intros j l Hj Hl He.
      destruct (Nat.eq_dec j n) as [-> | Hne]; [apply Hn; assumption |].
      apply (Hall j l); [lia | assumption | assumption].
    - right. exists i, l. repeat split; try assumption; try lia; try apply Hw.
      intros j l' Hj Hl' He'.
      destruct (Nat.eq_dec j n) as [-> | Hne]; [apply Hn; assumption |].
      apply (Hall j l'); [lia | assumption | assumption]. }
  destruct (lasers g !! n) as [l |] eqn:Hl;
    [| apply Hskip; intros l Hl'; discriminate].
  destruct (l_isEnemy l) eqn:He; cbn;
    [| apply Hskip; intros l' Hl' He'; congruence].
  destruct (V.distLt _ _ _) eqn:Hd.
  - right. exists n, l. split; [lia |]. split; [exact Hl |]. split; [exact He |].
    split; [apply distLt_within; exact Hd |].
    split; [intros j l' Hj; lia | reflexivity].
  - apply Hskip. intros l' Hl' _. assert (l' = l) as -> by congruence.
    apply distLt_not_within. exact Hd.
Qed.

(** X6. The check of the ship against enemy projectiles takes at most one
    hit per call.  Either it changes nothing, or it takes the enemy
    projectile with the highest index that is within the collision radius:
    that projectile alone is removed, the ship loses exactly its damage,
    becomes invulnerable and one grace timer is armed; the game is over when
    the health is used up and goes on otherwise. *)
Theorem one_enemy_hit_per_check (g : Game) :
  checkEnemyLasers g = g \/
  exists i l, lasers g !! i = Some l /\ l_isEnemy l = true /\
    within (l_position l) (position (shipState g)) collisionRadius /\
    (forall j l', (i < j)%nat -> lasers g !! j = Some l' ->
       l_isEnemy l' = true ->
       ~ within (l_position l') (position (shipState g)) collisionRadius) /\
    lasers (checkEnemyLasers g) = delete i (lasers g) /\
    health (shipState (checkEnemyLasers g)) =
      (health (shipState g) - l_damage l)%Z /\
    invulnerable (shipState (checkEnemyLasers g)) = true /\
    graceTimers (checkEnemyLasers g) = S (graceTimers g) /\
    isGameOver (gameState (checkEnemyLasers g)) =
      ((health (shipState g) - l_damage l <=? 0)%Z
       || isGameOver (gameState g)).
Proof.
  unfold checkEnemyLasers.
  destruct (invulnerable (shipState g)) eqn:Hinv; [left; reflexivity |]. cbn.
  destruct (shipLasers_loop_cases (length (lasers g)) g)
    as [[E _] | (i & l & Hi & Hl & He & Hw & Hall & E)]; [left; exact E |].
  right. exists i, l. rewrite E.
  split; [exact Hl |]. split; [exact He |]. split; [exact Hw |].
  split.
  { intros j l' Hj Hl'. apply (Hall j l'); [| exact Hl'].
    split; [exact Hj |]. apply lookup_lt_Some in Hl'. exact Hl'. }
  destruct (hitShip_frame i l g) as (E1 & E2 & E3 & _).
  rewrite E1, E2, E3. repeat split.
  unfold hitShip. cbn. destruct (_ <=? _)%Z; cbn; [| reflexivity].
  apply gameOver_isGameOver.
Qed.

(** ** Explosion bursts over time *)

Lemma updateExplosionList_app dt l1 l2 :
  updateExplosionList dt (l1 ++ l2) =
  updateExplosionList dt l1 ++ updateExplosionList dt l2.
Proof.
  induction l1 as [| e l1 IH]; cbn; [reflexivity |].
  destruct (Qltb _ _); cbn; rewrite IH; reflexivity.
Qed.

Lemma updateExplosionList_length dt l :
  (length (updateExplosionList dt l) <= length l)%nat.
Proof.
  induction l as [| e l IH]; cbn; [lia |].
  destruct (Qltb _ _); cbn; lia.
Qed.
Lemma updateExplosionList_survivors dt l :
  Forall (fun e => e_age e <= e_lifetime e) (updateExplosionList dt l).
Proof.
  induction l as [| e l IH]; cbn; [constructor |].
  destruct (Qltb _ _) eqn:E; [exact IH |].
  constructor; [| exact IH]. cbn. apply Qltb_ge in E. exact E.
Qed.

Lemma filter_all {A : Type} (f : A -> bool) (l : list A) :
  Forall (fun x => f x = true) l -> List.filter f l = l.
Proof.
  induction 1 as [| x l Hx _ IH]; cbn; [reflexivity |].
  rewrite Hx, IH. reflexivity.
Qed.

Lemma Qle_bool_ext (a b c : Q) : a == b -> Qle_bool a c = Qle_bool b c.
Proof.
  intros E. destruct (Qle_bool a c) eqn:Ea, (Qle_bool b c) eqn:Eb;
    try reflexivity.
  - apply Qle_bool_iff in Ea. rewrite E in Ea. apply Qle_bool_iff in Ea.
    congruence.
  - apply Qle_bool_iff in Eb. rewrite <- E in Eb. apply Qle_bool_iff in Eb.
    congruence.
Qed.

Lemma elapsed_nonneg ds : Forall (fun d => 0 <= d) ds -> 0 <= elapsed ds.
Proof.
  induction 1 as [| d ds Hd _ IH]; unfold elapsed in *; cbn; lra.
Qed.

Lemma filter_updateExplosionList d t l :
  0 <= t ->
  List.filter (fun e => Qle_bool (e_age e + t) (e_lifetime e))
    (updateExplosionList d l) =
  map (ageExplosion d)
    (List.filter (fun e => Qle_bool (e_age e + (d + t)) (e_lifetime e)) l).
Proof.
  intros Ht. induction l as [| e l IH]; cbn; [reflexivity |].
  destruct (Qltb (e_lifetime e) (e_age e + d)) eqn:E.
  - apply Qltb_lt in E.
    destruct (Qle_bool (e_age e + (d + t)) (e_lifetime e)) eqn:E2;
      [| exact IH].
    apply Qle_bool_iff in E2. lra.
  - cbn. rewrite (Qle_bool_ext (e_age e + d + t) (e_age e + (d + t)))
      by lra.
    destruct (Qle_bool _ _); cbn; rewrite IH; reflexivity.
Qed.

Lemma Forall2_map_r {A B C : Type} (P : A -> C -> Prop) (f : B -> C)
    (l : list A) (k : list B) :
  Forall2 P l (map f k) -> Forall2 (fun x y => P x (f y)) l k.
Proof.
  revert l. induction k as [| y k IH]; intros l Hl; cbn in Hl;
    inversion Hl; subst; constructor; auto.
Qed.

(** X7. A burst is shown for its lifetime.  After frames whose deltas are
    not negative, the bursts left are, in their order, exactly the bursts
    whose age plus the time elapsed does not exceed their lifetime, each
    aged by that time, at its place and with its lifetime and original
    size. *)
Theorem bursts_shown_for_their_lifetime (ds : list Q) (l : list Explosion) :
  Forall (fun d => 0 <= d) ds ->
  Forall (fun e => e_age e <= e_lifetime e) l ->
  Forall2 (agedBy (elapsed ds)) (explosionsAfter ds l)
    (List.filter (fun e => Qle_bool (e_age e + elapsed ds) (e_lifetime e)) l).
Proof.
  intros Hds. revert l. induction Hds as [| d ds Hd Hds IH]; intros l Hl.
  - cbn. rewrite filter_all.
    + apply Forall2_same_length_lookup_2; [reflexivity |].
      intros i x y Hx Hy. assert (x = y) as -> by congruence.
      repeat split. lra.
    + eapply Forall_impl; [exact Hl |]. intros e He. cbn in He.
      apply Qle_bool_iff. lra.
  - unfold explosionsAfter. cbn [fold_left elapsed fold_right].
    fold (elapsed ds). fold (explosionsAfter ds (updateExplosionList d l)).
    specialize (IH _ (updateExplosionList_survivors d l)).
    rewrite (filter_updateExplosionList d (elapsed ds) l
               (elapsed_nonneg ds Hds)) in IH.
    apply Forall2_map_r in IH.
    eapply Forall2_impl; [exact IH |].
    intros e' e (E1 & E2 & E3 & E4 & E5). cbn in *.
    repeat split; try assumption. rewrite E5. lra.
Qed.

Lemma Qdiv_unit (a b : Q) : 0 <= a -> a <= b -> 0 < b -> 0 <= a / b <= 1.
Proof.
  intros Ha Hab Hb. split.
  - apply Qle_shift_div_l; [exact Hb | lra].
  - apply Qle_shift_div_r; [exact Hb | lra].
Qed.

(** X8. A burst fades within bounds.  When the delta is not negative and
    every burst has an age that is not negative, a positive lifetime and an
    original size that is not negative, every burst left after the update
    has again such an age, lifetime and size, an age within its lifetime, an
    opacity between 0 and 1 and a material size between half its original
    size and its original size; and no burst is added. *)
Theorem bursts_fade_within_bounds (deltaTime : Q) (l : list Explosion) :
  0 <= deltaTime ->
  Forall (fun e => 0 <= e_age e /\ 0 < e_lifetime e /\ 0 <= e_originalSize e) l ->
  Forall (fun e =>
      (0 <= e_age e /\ 0 < e_lifetime e /\ 0 <= e_originalSize e) /\
      e_age e <= e_lifetime e /\
      0 <= e_materialOpacity e <= 1 /\
      e_originalSize e * 0.5 <= e_materialSize e <= e_originalSize e)
    (updateExplosionList deltaTime l) /\
  (length (updateExplosionList deltaTime l) <= length l)%nat.
Proof.
  intros Hdt Hl. split; [| apply updateExplosionList_length].
  induction Hl as [| e l (Ha & Hlt & Hs) _ IH]; cbn; [constructor |].
  destruct (Qltb _ _) eqn:E; [exact IH |].
  constructor; [| exact IH]. apply Qltb_ge in E. cbn.
  destruct (Qdiv_unit (e_age e + deltaTime) (e_lifetime e)) as [P1 P2];
    [lra | exact E | exact Hlt |].
  set (p := (e_age e + deltaTime) / e_lifetime e) in *.
  repeat split; try assumption; try lra; try nra.
Qed.

(** ** Fresh bursts *)

Lemma makeParticles_length n k : length (makeParticles n k) = n.
Proof.
  revert k. induction n as [| n IH]; intros k; cbn; [reflexivity |].
  rewrite IH. reflexivity.
Qed.

Lemma makeParticles_bounds n k :
  (forall i, 0 <= random i < 1) ->
  Forall particleInBounds (makeParticles n k).
Proof.
  intros Hr. revert k. induction n as [| n IH]; intros k; cbn; [constructor |].
  constructor; [| apply IH].
  pose proof (Hr k) as H0. pose proof (Hr (k + 1)%nat) as H1.
  pose proof (Hr (k + 2)%nat) as H2. pose proof (Hr (k + 3)%nat) as H3.
  unfold particleInBounds. cbn.
  set (r0 := random k) in *. set (r1 := random (k + 1)) in *.
  set (r2 := random (k + 2)) in *. set (r3 := random (k + 3)) in *.
  repeat split; try lra; nra.
Qed.

(** X9. A burst is created with 50 particles from 250 random numbers.
    When [Math.random] returns numbers from 0 up to 1, [createExplosionEffect]
    appends one burst, of age 0, lifetime 1 and full opacity, with 50
    particles, each within a quarter of a unit of the centre and no faster
    than 1.75 on each axis, and leaves the bursts already shown as they
    are. *)
Theorem createExplosionEffect_burst (pos : Vector3) (size : Q) (color : Z)
    (g : Game) :
  (forall i, 0 <= random i < 1) ->
  exists e,
    explosions (createExplosionEffect pos size color g) = explosions g ++ [e] /\
    randCalls (createExplosionEffect pos size color g) = (randCalls g + 250)%nat /\
    e_position e = pos /\ e_age e = 0 /\ e_lifetime e = 1 /\
    e_originalSize e = size /\ e_materialOpacity e = 1 /\
    length (e_particles e) = 50%nat /\
    Forall particleInBounds (e_particles e).
Proof.
  intros Hr. exists (newExplosion (randCalls g) pos size color).
  split; [reflexivity |]. split; [reflexivity |].
  unfold newExplosion. cbn [e_position e_age e_lifetime e_originalSize
                            e_materialOpacity e_particles].
  do 5 (split; [reflexivity |]).
  split; [apply (makeParticles_length particleCount) |].
  apply makeParticles_bounds. exact Hr.
Qed.

(** ** The collision list *)

Lemma aligned_hazards e e' : hazards e' = hazards e -> aligned e -> aligned e'.
Proof.
  unfold hazards. intros E. injection E as E1 E2 E3 E4 E5.
  unfold aligned. rewrite E1, E2, E3, E4, E5. auto.
Qed.

Lemma findIndex_NoDup {A : Type} (key : A -> nat) (m : nat) (l : list A)
    (i : nat) (x : A) :
  NoDup (map key l) -> l !! i = Some x -> key x = m ->
  findIndex (fun y => Nat.eqb (key y) m) l = Some i.
Proof.
  revert i. induction l as [| y l IH]; intros i Hnd Hl Hx; [discriminate |].
  cbn in Hnd. apply NoDup_cons in Hnd. destruct Hnd as [Hy Hnd].
  destruct i as [| i]; cbn in *.
  - injection Hl as ->. rewrite Hx, Nat.eqb_refl. reflexivity.
  - destruct (Nat.eqb (key y) m) eqn:E.
    + exfalso. apply Hy. apply Nat.eqb_eq in E. rewrite E, <- Hx.
      apply (list_elem_of_fmap_2 key l x).
      eapply list_elem_of_lookup_2. exact Hl.
    + rewrite (IH i Hnd Hl Hx). reflexivity.
Qed.

Lemma NoDup_delete {A : Type} (l : list A) (i : nat) :
  NoDup l -> NoDup (delete i l).
Proof. intros Hl. eapply sublist_NoDup; [exact Hl | apply sublist_delete]. Qed.

(** What [destroyAsteroid] does to an environment whose collision list is
    in order. *)
Lemma destroyAsteroid_spec j e a :
  aligned e -> asteroids e !! j = Some a ->
  destroyAsteroid j e =
    set_collisionObjects (delete (length (planets e) + j)%nat)
      (set_asteroids (delete j) e).
Proof.
  intros (Hco & Hnd & _) Ha. unfold destroyAsteroid. rewrite Ha.
  assert (Hl : collisionObjects e !! (length (planets e) + j)%nat =
               Some (asteroidSphere a)).
  { rewrite Hco. rewrite lookup_app_r by (rewrite length_map; lia).
    rewrite length_map.
    replace (length (planets e) + j - length (planets e))%nat with j by lia.
    rewrite lookup_app_l
      by (rewrite length_map; apply lookup_lt_Some in Ha; exact Ha).
    change (map asteroidSphere (asteroids e)) with
      (asteroidSphere <$> asteroids e).
    rewrite list_lookup_fmap, Ha. reflexivity. }
  cbn [collisionObjects set_asteroids].
  rewrite (findIndex_NoDup c_mesh (a_mesh a) (collisionObjects e)
             (length (planets e) + j) (asteroidSphere a) Hnd Hl eq_refl).
  reflexivity.
Qed.

Lemma destroyAsteroid_aligned j e : aligned e -> aligned (destroyAsteroid j e).
Proof.
  intros Hal. destruct (asteroids e !! j) as [a |] eqn:Ha;
    [| unfold destroyAsteroid; rewrite Ha; exact Hal].
  rewrite (destroyAsteroid_spec j e a Hal Ha).
  destruct Hal as (Hco & Hnd & Hb). unfold aligned. cbn.
  split; [| split].
  - rewrite Hco.
    destruct (list_elem_of_split_length _ _ _ Ha) as (A1 & A2 & EA & Ej).
    rewrite EA, Ej.
    rewrite (delete_middle A1 A2 a).
    rewrite !map_app. cbn [map].
    rewrite <- (length_map planetSphere (planets e)).
    rewrite <- (length_map asteroidSphere A1).
    rewrite <- length_app.
    rewrite <- !app_assoc.
    rewrite (app_assoc (map planetSphere (planets e)) (map asteroidSphere A1)).
    rewrite <- app_comm_cons.
    rewrite (delete_middle _ _ (asteroidSphere a)).
    rewrite <- !app_assoc. reflexivity.
  - change (map c_mesh (delete ?k ?l)) with (c_mesh <$> delete k l).
    rewrite list_fmap_delete. apply NoDup_delete. exact Hnd.
  - apply Forall_delete. exact Hb.
Qed.

(** The asteroid update under an ordered collision list: nothing is thrown
    and the hazards are what they were. *)
Lemma driftAsteroid_aligned index g :
  aligned (env g) ->
  snd (driftAsteroid index g) = Normal /\
  hazards (env (fst (driftAsteroid index g))) = hazards (env g).
Proof.
  intros (Hco & Hnd & Hb). unfold driftAsteroid.
  destruct (asteroids (env g) !! index) as [a |] eqn:Ha;
    [| split; reflexivity].
  assert (Hl : collisionObjects (env g) !! (length (planets (env g)) + index)%nat =
               Some (asteroidSphere a)).
  { rewrite Hco. rewrite lookup_app_r by (rewrite length_map; lia).
    rewrite length_map.
    replace (length (planets (env g)) + index - length (planets (env g)))%nat
      with index by lia.
    rewrite lookup_app_l
      by (rewrite length_map; apply lookup_lt_Some in Ha; exact Ha).
    change (map asteroidSphere (asteroids (env g))) with
      (asteroidSphere <$> asteroids (env g)).
    rewrite list_lookup_fmap, Ha. reflexivity. }
  cbn [env set_env planets set_meshPosition collisionObjects].
  rewrite Hl.
  change (mkCollisionObject (c_mesh (asteroidSphere a)) (a_mesh a)
            (c_radius (asteroidSphere a)) (c_type (asteroidSphere a)))
    with (asteroidSphere a).
  destruct (V.distGt _ _ _); cbn; (split; [reflexivity |]);
    unfold hazards; cbn; rewrite (list_insert_id _ _ _ Hl), !length_insert;
    reflexivity.
Qed.

Lemma driftAsteroids_aligned n index g :
  aligned (env g) ->
  snd (driftAsteroids n index g) = Normal /\
  hazards (env (fst (driftAsteroids n index g))) = hazards (env g).
Proof.
  revert index g. induction n as [| n IH]; intros index g Hal; cbn;
    [split; reflexivity |].
  destruct (driftAsteroid_aligned index g Hal) as [E1 E2].
  destruct (driftAsteroid index g) as [g1 o]. cbn in E1, E2. subst o.
  destruct (IH (S index) g1 (aligned_hazards _ _ E2 Hal)) as [I1 I2].
  split; [exact I1 |]. rewrite I2. exact E2.
Qed.

Lemma updateEnvironment_aligned dt g :
  aligned (env g) ->
  snd (updateEnvironment dt g) = Normal /\
  hazards (env (fst (updateEnvironment dt g))) = hazards (env g).
Proof.
  intros Hal. unfold updateEnvironment.
  destruct (driftAsteroids_aligned (length (asteroids (env g))) 0 g Hal)
    as [E1 E2].
  destruct (driftAsteroids _ _ _) as [g1 o]. cbn in E1, E2. subst o.
  split; [reflexivity |]. exact E2.
Qed.
Lemma laserTargets_loop_hazards n i l g :
  hazards (env (laserTargets_loop n i l g)) = hazards (env g).
Proof.
  induction n as [| j IH]; cbn; [reflexivity |].
  destruct (env_targets (env g) !! j) as [t |]; [| exact IH].
  destruct (V.distLt _ _ _); [| exact IH].
  cbn. destruct (_ <=? _)%Z; cbn; [| reflexivity].
  unfold updateScoreDisplay, destroyTarget. cbn.
  destruct (gameOverScreen (ui g)); cbn; destruct (_ !! _); reflexivity.
Qed.

Lemma updateScoreDisplay_env g : env (updateScoreDisplay g) = env g.
Proof. unfold updateScoreDisplay. destruct (gameOverScreen _); reflexivity. Qed.

Lemma laserAsteroids_loop_aligned n j i l g :
  aligned (env g) -> aligned (env (laserAsteroids_loop n j i l g)).
Proof.
  intros Hal. revert j. induction n as [| n IH]; intros j; cbn; [exact Hal |].
  destruct (asteroids (env g) !! j) as [a |]; [| exact Hal].
  destruct (V.distLt _ _ _); [| apply IH].
  cbn. destruct (Qltb _ _); [| exact Hal].
  rewrite updateScoreDisplay_env. cbn.
  apply destroyAsteroid_aligned. exact Hal.
Qed.

Lemma updateLaser_at_aligned dt i g :
  aligned (env g) -> aligned (env (updateLaser_at dt i g)).
Proof.
  intros Hal. unfold updateLaser_at.
  destruct (lasers g !! i) as [l |]; [| exact Hal].
  destruct (V.distGe _ _ _); [exact Hal |].
  apply laserAsteroids_loop_aligned.
  eapply aligned_hazards; [apply laserTargets_loop_hazards | exact Hal].
Qed.

Lemma updateLasers_aligned dt g :
  aligned (env g) -> aligned (env (updateLasers dt g)).
Proof.
  unfold updateLasers.
  apply (for_down_invariant (fun g' => aligned (env g'))).
  intros i s. apply updateLaser_at_aligned.
Qed.

Lemma env_updateEnemies_hazards dt g :
  hazards (env (env_updateEnemies dt g)) = hazards (env g).
Proof.
  unfold env_updateEnemies.
  apply (for_up_invariant (fun g' => hazards (env g') = hazards (env g)));
    [| reflexivity].
  intros i s Hs. unfold env_updateEnemy_at.
  destruct (env_targets (env s) !! i) as [t |]; [| exact Hs].
  destruct (steerTarget _ _ _ _) as [t' k]. exact Hs.
Qed.

Lemma updateShipPhysics_env dt t g : env (updateShipPhysics dt t g) = env g.
Proof.
  unfold updateShipPhysics. fold (beforeChecks t g).
  destruct (beforeChecks_frame t g) as (_ & _ & Be & _).
  destruct (checkEnemyLasers_cases (checkCollisions (beforeChecks t g)))
    as [E | (i & l & _ & _ & _ & _ & E)]; rewrite E.
  - destruct (checkCollisions_cases (beforeChecks t g))
      as [E' | (obj & _ & _ & _ & E')]; rewrite E'; [exact Be |].
    destruct (handleCollision_frame obj (beforeChecks t g))
      as (_ & _ & _ & _ & He & _). rewrite He. exact Be.
  - destruct (hitShip_frame i l (checkCollisions (beforeChecks t g)))
      as (_ & _ & _ & He & _). rewrite He.
    destruct (checkCollisions_cases (beforeChecks t g))
      as [E' | (obj & _ & _ & _ & E')]; rewrite E'; [exact Be |].
    destruct (handleCollision_frame obj (beforeChecks t g))
      as (_ & _ & _ & _ & He' & _). rewrite He'. exact Be.
Qed.

Lemma animate_aligned dt t g :
  aligned (env g) -> aligned (env (animate dt t g)).
Proof.
  intros Hal. unfold animate. destruct (isGameOver (gameState g)); [exact Hal |].
  assert (H1 : aligned (env (updateShipPhysics dt t g)))
    by (rewrite updateShipPhysics_env; exact Hal).
  destruct (updateEnvironment_aligned dt _ H1) as [E1 E2].
  destruct (updateEnvironment dt (updateShipPhysics dt t g)) as [g2 o].
  cbn in E1, E2. subst o.
  change (env (render (updateExplosions dt ?x))) with (env x).
  apply updateLasers_aligned.
  eapply aligned_hazards; [apply env_updateEnemies_hazards |].
  eapply aligned_hazards; [exact E2 | exact H1].
Qed.

Lemma step_aligned ev g : aligned (env g) -> aligned (env (step ev g)).
Proof.
  intros Hal.
  destruct (input_event_motion ev g) as [(dt & t & ->) | (_ & _ & _ & E & _)].
  - apply animate_aligned. exact Hal.
  - rewrite E. exact Hal.
Qed.

(** Building the world. *)
Lemma createPlanet_aligned x y z r g :
  aligned (env g) -> asteroids (env g) = [] -> deathStar (env g) = None ->
  aligned (env (createPlanet x y z r g)) /\
  asteroids (env (createPlanet x y z r g)) = [] /\
  deathStar (env (createPlanet x y z r g)) = None.
Proof.
  intros (Hco & Hnd & Hb) Ha Hd. unfold createPlanet, newMesh, aligned. cbn.
  rewrite Ha, Hd in *. cbn in *. rewrite app_nil_r in Hco.
  split; [| split; reflexivity]. split; [| split].
  - rewrite Hco, map_app, app_nil_r. reflexivity.
  - rewrite map_app. cbn. apply NoDup_app. split; [exact Hnd |].
    split; [| apply NoDup_singleton].
    intros m Hm Hm'. apply list_elem_of_singleton in Hm'. subst m.
    apply list_elem_of_fmap_1 in Hm. destruct Hm as (o & Eo & Ho).
    rewrite Forall_forall in Hb. specialize (Hb o Ho). lia.
  - rewrite length_app. cbn. apply Forall_app. split.
    + eapply Forall_impl; [exact Hb |]. cbn. intros o Ho. lia.
    + repeat constructor. cbn. lia.
Qed.

Lemma createAsteroid_aligned cx cy cz r g :
  aligned (env g) /\ deathStar (env g) = None ->
  aligned (env (createAsteroid cx cy cz r g)) /\
  deathStar (env (createAsteroid cx cy cz r g)) = None.
Proof.
  intros [(Hco & Hnd & Hb) Hd]. unfold createAsteroid, newMesh, aligned. cbn.
  rewrite Hd in *. cbn in *. rewrite app_nil_r in Hco.
  split; [| reflexivity]. split; [| split].
  - rewrite Hco, map_app, app_nil_r, <- app_assoc. reflexivity.
  - rewrite map_app. cbn. apply NoDup_app. split; [exact Hnd |].
    split; [| apply NoDup_singleton].
    intros m Hm Hm'. apply list_elem_of_singleton in Hm'. subst m.
    apply list_elem_of_fmap_1 in Hm. destruct Hm as (o & Eo & Ho).
    rewrite Forall_forall in Hb. specialize (Hb o Ho). lia.
  - rewrite length_app. cbn. apply Forall_app. split.
    + eapply Forall_impl; [exact Hb |]. cbn. intros o Ho. lia.
    + repeat constructor. cbn. lia.
Qed.

Lemma createDeathStar_aligned g :
  aligned (env g) -> deathStar (env g) = None ->
  aligned (env (createDeathStar g)).
Proof.
  intros (Hco & Hnd & Hb) Hd. unfold createDeathStar, newMesh, aligned. cbn.
  rewrite Hd in *. cbn in *. rewrite app_nil_r in Hco.
  split; [| split].
  - rewrite Hco, <- app_assoc. reflexivity.
  - rewrite map_app. cbn. apply NoDup_app. split; [exact Hnd |].
    split; [| apply NoDup_singleton].
    intros m Hm Hm'. apply list_elem_of_singleton in Hm'. subst m.
    apply list_elem_of_fmap_1 in Hm. destruct Hm as (o & Eo & Ho).
    rewrite Forall_forall in Hb. specialize (Hb o Ho). lia.
  - rewrite length_app. cbn. apply Forall_app. split.
    + eapply Forall_impl; [exact Hb |]. cbn. intros o Ho. lia.
    + repeat constructor. cbn. lia.
Qed.

Lemma createEnemyFighters_hazards g :
  hazards (env (createEnemyFighters g)) = hazards (env g).
Proof.
  unfold createEnemyFighters.
  apply (for_up_invariant (fun g' => hazards (env g') = hazards (env g)));
    [| reflexivity].
  intros i s Hs. rewrite <- Hs. reflexivity.
Qed.

Lemma createPlanet_bare x y z r g :
  aligned (env g) /\ asteroids (env g) = [] /\ deathStar (env g) = None ->
  aligned (env (createPlanet x y z r g)) /\
  asteroids (env (createPlanet x y z r g)) = [] /\
  deathStar (env (createPlanet x y z r g)) = None.
Proof. intros (H1 & H2 & H3). apply createPlanet_aligned; assumption. Qed.

Lemma createAsteroidField_aligned cx cy cz r n g :
  aligned (env g) /\ asteroids (env g) = [] /\ deathStar (env g) = None ->
  aligned (env (createAsteroidField cx cy cz r n g)) /\
  deathStar (env (createAsteroidField cx cy cz r n g)) = None.
Proof.
  intros (H1 & _ & H3). unfold createAsteroidField.
  apply (for_up_invariant
           (fun g' => aligned (env g') /\ deathStar (env g') = None));
    [| split; assumption].
  intros i s. apply createAsteroid_aligned.
Qed.

Lemma createDeathStar_last g :
  aligned (env g) /\ deathStar (env g) = None ->
  aligned (env (createDeathStar g)).
Proof. intros [H1 H2]. apply createDeathStar_aligned; assumption. Qed.

Lemma createEnemyFighters_aligned g :
  aligned (env g) -> aligned (env (createEnemyFighters g)).
Proof. apply aligned_hazards. apply createEnemyFighters_hazards. Qed.

Lemma initUI_aligned g : aligned (env g) -> aligned (env (initUI g)).
Proof. intros Hal. exact Hal. Qed.

Lemma init_aligned : aligned (env init).
Proof.
  unfold init. cbv zeta.
  apply initUI_aligned, createEnemyFighters_aligned, createDeathStar_last,
    createAsteroidField_aligned, createPlanet_bare, createPlanet_bare,
    createPlanet_bare.
  split; [| split; reflexivity]. repeat split; cbn; constructor.
Qed.

(** X10. The collision list stays in step with the hazards.  In every state
    that can be reached from [init], the collision list consists of one
    object for each planet, in the order of [planets], then one for each
    asteroid left, in the order of [asteroids], then the one of the Death
    Star, each at the position of its own mesh and with its radius; no mesh
    has two collision objects and every position is one of the store. *)
Theorem collision_list_stays_aligned (evs : list Event) :
  aligned (env (run evs init)).
Proof.
  apply (run_invariant (fun g => aligned (env g)) step_aligned).
  exact init_aligned.
Qed.

(** X11. With the collision list in order, [updateEnvironment] does not
    throw and leaves the planets, the asteroids, the Death Star and the
    collision list as they are, the position of a collision object being
    already that of its asteroid: only positions in the store and the bursts
    change.  The list is in order again afterwards. *)
Theorem updateEnvironment_keeps_the_collision_list (deltaTime : Q) (g : Game) :
  aligned (env g) ->
  snd (updateEnvironment deltaTime g) = Normal /\
  planets (env (fst (updateEnvironment deltaTime g))) = planets (env g) /\
  asteroids (env (fst (updateEnvironment deltaTime g))) = asteroids (env g) /\
  collisionObjects (env (fst (updateEnvironment deltaTime g))) =
    collisionObjects (env g) /\
  deathStar (env (fst (updateEnvironment deltaTime g))) = deathStar (env g) /\
  aligned (env (fst (updateEnvironment deltaTime g))).
Proof.
  intros Hal. destruct (updateEnvironment_aligned deltaTime g Hal) as [E1 E2].
  split; [exact E1 |].
  pose proof (aligned_hazards _ _ E2 Hal) as Hal'.
  unfold hazards in E2. injection E2 as E2 E3 E4 E5 _.
  split; [exact E2 |]. split; [exact E3 |]. split; [exact E4 |].
  split; [exact E5 | exact Hal'].
Qed.

(** X12. No frame of a game started by [init] is cut short: in every state
    that can be reached, the call of [updateEnvironment] in a frame returns
    without throwing, for any delta and clock reading. *)
Theorem no_frame_is_cut_short (evs : list Event) (deltaTime currentTime : Q) :
  snd (updateEnvironment deltaTime
         (updateShipPhysics deltaTime currentTime (run evs init))) = Normal.
Proof.
  apply updateEnvironment_aligned. rewrite updateShipPhysics_env.
  apply (run_invariant (fun g => aligned (env g)) step_aligned).
  exact init_aligned.
Qed.

(** X13. [destroyAsteroid] removes an asteroid together with its own
    collision object.  With the collision list in order, destroying the
    asteroid at a valid index [j] removes entry [j] of [asteroids] and the
    entry at [planets.length + j] of the collision list, and nothing else;
    the list is in order again.  At an index with no asteroid nothing
    changes. *)
Theorem destroyAsteroid_removes_its_collision_object (j : nat) (e : Env) :
  aligned e ->
  aligned (destroyAsteroid j e) /\
  (asteroids e !! j = None -> destroyAsteroid j e = e) /\
  (forall a, asteroids e !! j = Some a ->
     asteroids (destroyAsteroid j e) = delete j (asteroids e) /\
     collisionObjects (destroyAsteroid j e) =
       delete (length (planets e) + j)%nat (collisionObjects e) /\
     collisionObjects e !! (length (planets e) + j)%nat =
       Some (asteroidSphere a) /\
     planets (destroyAsteroid j e) = planets e /\
     deathStar (destroyAsteroid j e) = deathStar e /\
     meshPosition (destroyAsteroid j e) = meshPosition e /\
     env_targets (destroyAsteroid j e) = env_targets e).
Proof.
  intros Hal. split; [apply destroyAsteroid_aligned; exact Hal |]. split.
  - intros Hn. unfold destroyAsteroid. rewrite Hn. reflexivity.
  - intros a Ha. rewrite (destroyAsteroid_spec j e a Hal Ha). cbn.
    repeat split. destruct Hal as (Hco & _).
    rewrite Hco. rewrite lookup_app_r by (rewrite length_map; lia).
    rewrite length_map.
    replace (length (planets e) + j - length (planets e))%nat with j by lia.
    rewrite lookup_app_l
      by (rewrite length_map; apply lookup_lt_Some in Ha; exact Ha).
    change (map asteroidSphere (asteroids e)) with
      (asteroidSphere <$> asteroids e).
    rewrite list_lookup_fmap, Ha. reflexivity.
Qed.

(** ** The pose of the mesh *)

Lemma gameOver_xw_rotation m g :
  xw_rotation (xwing (gameOver m g)) = xw_rotation (xwing g).
Proof. unfold gameOver. cbn. destruct (gameOverScreen (ui g)); reflexivity. Qed.

Lemma updateShipPhysics_yaw dt t g :
  ey (xw_rotation (xwing (updateShipPhysics dt t g))) =
  ey (rotation (shipState (updateShipPhysics dt t g))).
Proof.
  assert (Er : rotation (shipState (updateShipPhysics dt t g)) =
               rotation (shipState (moveShip g)))
    by exact (f_equal (fun c => snd (fst (fst (fst c))))
                (updateShipPhysics_motion dt t g)).
  rewrite Er. unfold updateShipPhysics.
  set (g2 := if k_f (keys (moveShip g)) then fireLaser t (moveShip g)
             else moveShip g).
  assert (E1 : xw_rotation (xwing (checkEnemyLasers
                 (checkCollisions (updateBarrelRoll g2)))) =
               xw_rotation (xwing (updateBarrelRoll g2))).
  { destruct (checkEnemyLasers_cases (checkCollisions (updateBarrelRoll g2)))
      as [E | (i & l & _ & _ & _ & _ & E)]; rewrite E.
    - destruct (checkCollisions_cases (updateBarrelRoll g2))
        as [E' | (obj & _ & _ & _ & E')]; rewrite E'; [reflexivity |].
      unfold handleCollision.
      destruct (c_type obj); rewrite gameOver_xw_rotation; reflexivity.
    - assert (Eh : forall g0, xw_rotation (xwing (hitShip i l g0)) =
                              xw_rotation (xwing g0)).
      { intros g0. unfold hitShip. cbn. destruct (_ <=? _)%Z; [| reflexivity].
        rewrite gameOver_xw_rotation. reflexivity. }
      rewrite Eh.
      destruct (checkCollisions_cases (updateBarrelRoll g2))
        as [E' | (obj & _ & _ & _ & E')]; rewrite E'; [reflexivity |].
      unfold handleCollision.
      destruct (c_type obj); rewrite gameOver_xw_rotation; reflexivity. }
  rewrite E1.
  assert (E2 : ey (xw_rotation (xwing (updateBarrelRoll g2))) =
               ey (xw_rotation (xwing g2))).
  { unfold updateBarrelRoll.
    destruct (br_active _); [destruct (Qle_bool _ _) |]; reflexivity. }
  rewrite E2.
  assert (E3 : xw_rotation (xwing g2) = xw_rotation (xwing (moveShip g))).
  { unfold g2. destruct (k_f _); [| reflexivity].
    unfold fireLaser. destruct (Qltb _ _); reflexivity. }
  rewrite E3. unfold moveShip. cbn.
  destruct (br_active (barrelRoll (shipState g))); reflexivity.
Qed.

Lemma animate_poseCurrent dt t g :
  aligned (env g) -> poseCurrent g -> poseCurrent (animate dt t g).
Proof.
  intros Hal Hp.
  pose proof (animate_motion dt t g) as Em.
  unfold animate in *. destruct (isGameOver (gameState g)); [exact Hp |].
  assert (H1 : aligned (env (updateShipPhysics dt t g)))
    by (rewrite updateShipPhysics_env; exact Hal).
  destruct (updateEnvironment_aligned dt _ H1) as [E1 _].
  pose proof (rest_of_frame_pilot dt (updateShipPhysics dt t g)) as Ep.
  destruct (updateEnvironment dt (updateShipPhysics dt t g)) as [g2 o].
  cbn in E1. subst o.
  set (g' := render _) in *.
  assert (Ex : xw_rotation (xwing g') =
               xw_rotation (xwing (updateShipPhysics dt t g)))
    by exact (f_equal snd Ep).
  assert (Es : shipState g' = shipState (updateShipPhysics dt t g))
    by exact (f_equal (fun c => fst (fst (fst (fst (fst (fst c)))))) Ep).
  split; [reflexivity |]. split.
  - assert (E5 : xw_position (xwing g') = xw_position (xwing (moveShip g)))
      by exact (f_equal snd Em).
    assert (E3 : position (shipState g') = position (shipState (moveShip g)))
      by exact (f_equal (fun c => snd (fst (fst c))) Em).
    rewrite E5, E3. reflexivity.
  - rewrite Ex, Es. apply updateShipPhysics_yaw.
Qed.

Lemma step_poseCurrent ev g :
  aligned (env g) /\ poseCurrent g ->
  aligned (env (step ev g)) /\ poseCurrent (step ev g).
Proof.
  intros [Hal Hp]. split; [apply step_aligned; exact Hal |].
  destruct (input_event_motion ev g) as [(dt & t & ->) | (Em & Ex & _)].
  - apply animate_poseCurrent; assumption.
  - destruct Hp as (P1 & P2 & P3). unfold poseCurrent. rewrite Ex.
    assert (E3 : position (shipState (step ev g)) = position (shipState g))
      by exact (f_equal (fun c => snd (fst (fst c))) Em).
    assert (E2 : rotation (shipState (step ev g)) = rotation (shipState g))
      by exact (f_equal (fun c => snd (fst (fst (fst c)))) Em).
    rewrite E3, E2. auto.
Qed.

Lemma init_poseCurrent : poseCurrent init.
Proof.
  pose proof init_cockpit as E.
  assert (E1 : shipState init = shipState emptyGame)
    by exact (f_equal (fun c => fst (fst (fst (fst (fst (fst (fst c))))))) E).
  assert (E4 : xwing init = xwing emptyGame)
    by exact (f_equal (fun c => snd (fst (fst (fst (fst c))))) E).
  unfold poseCurrent. rewrite E1, E4. repeat split.
Qed.

(** X14. Between events the mesh of the ship is where the ship is.  In every
    state that can be reached from [init], the position of the mesh is the
    position in [shipState], its yaw is the yaw in [shipState], and its world
    matrix, which a shot from the keyboard or the fire button starts from, is
    that of its present position and rotation. *)
Theorem mesh_follows_the_ship (evs : list Event) :
  xw_world (xwing (run evs init)) =
    (position (shipState (run evs init)), xw_rotation (xwing (run evs init))) /\
  xw_position (xwing (run evs init)) = position (shipState (run evs init)) /\
  ey (xw_rotation (xwing (run evs init))) =
    ey (rotation (shipState (run evs init))).
Proof.
  destruct (run_invariant (fun g => aligned (env g) /\ poseCurrent g)
              step_poseCurrent evs init) as (_ & P1 & P2 & P3).
  - split; [exact init_aligned | exact init_poseCurrent].
  - split; [rewrite P1, P2; reflexivity |]. split; assumption.
Qed.

(** ** The score *)

Lemma tally_refl g : tally g g.
Proof. unfold tally. repeat split; lia. Qed.

Lemma tally_trans g1 g2 g3 : tally g1 g2 -> tally g2 g3 -> tally g1 g3.
Proof. unfold tally. intros (A1 & A2 & A3) (B1 & B2 & B3). repeat split; lia. Qed.

Lemma tally_same g g' :
  length (env_targets (env g')) = length (env_targets (env g)) ->
  length (asteroids (env g')) = length (asteroids (env g)) ->
  score (gameState g') = score (gameState g) ->
  tally g g'.
Proof.
  intros E1 E2 E3. unfold tally, ledger. rewrite E1, E2, E3.
  repeat split; lia.
Qed.

Lemma updateScoreDisplay_tally g : tally g (updateScoreDisplay g).
Proof.
  apply tally_same; unfold updateScoreDisplay;
    destruct (gameOverScreen _); reflexivity.
Qed.

Lemma destroyTarget_tally j t g :
  env_targets (env g) !! j = Some t ->
  tally g (updateScoreDisplay (addScore 100 (set_env (destroyTarget j) g))) /\
  length (env_targets (env g)) =
    S (length (env_targets (env (set_env (destroyTarget j) g)))).
Proof.
  intros Ht.
  assert (E : env (set_env (destroyTarget j) g) =
              set_env_targets (delete j) (env g)).
  { cbn. unfold destroyTarget. rewrite Ht. reflexivity. }
  assert (Hj : (j < length (env_targets (env g)))%nat)
    by (apply lookup_lt_Some in Ht; exact Ht).
  split.
  - eapply tally_trans; [| apply updateScoreDisplay_tally].
    unfold tally, ledger.
    change (env (addScore 100 ?x)) with (env x). rewrite E. cbn.
    rewrite length_delete by eauto. repeat split; lia.
  - rewrite E. cbn. rewrite length_delete by eauto. lia.
Qed.

Lemma laserTargets_loop_tally n i l g : tally g (laserTargets_loop n i l g).
Proof.
  induction n as [| j IH]; cbn [laserTargets_loop]; [apply tally_refl |].
  destruct (env_targets (env g) !! j) as [t |] eqn:Ht; [| exact IH].
  destruct (V.distLt _ _ _); [| exact IH].
  assert (Hj : (j < length (env_targets (env g)))%nat)
    by (apply lookup_lt_Some in Ht; exact Ht).
  destruct (_ <=? _)%Z.
  - eapply tally_trans; [| eapply destroyTarget_tally].
    + apply tally_same; cbn; [apply length_insert | reflexivity | reflexivity].
    + cbn. apply list_lookup_insert_eq. exact Hj.
  - apply tally_same; cbn; [apply length_insert | reflexivity | reflexivity].
Qed.

Lemma destroyAsteroid_asteroids j e a :
  asteroids e !! j = Some a ->
  asteroids (destroyAsteroid j e) = delete j (asteroids e) /\
  env_targets (destroyAsteroid j e) = env_targets e.
Proof.
  intros Ha. unfold destroyAsteroid. rewrite Ha.
  destruct (findIndex _ _); split; reflexivity.
Qed.

Lemma destroyAsteroid_tally j a g :
  asteroids (env g) !! j = Some a ->
  tally g (updateScoreDisplay (addScore 25 (set_env (destroyAsteroid j) g))).
Proof.
  intros Ha.
  destruct (destroyAsteroid_asteroids j (env g) a Ha) as [E1 E2].
  eapply tally_trans; [| apply updateScoreDisplay_tally].
  unfold tally, ledger.
  change (env (addScore 25 (set_env (destroyAsteroid j) g)))
    with (destroyAsteroid j (env g)).
  rewrite E1, E2. cbn. rewrite length_delete by eauto.
  apply lookup_lt_Some in Ha. repeat split; lia.
Qed.

Lemma laserAsteroids_loop_tally n j i l g :
  tally g (laserAsteroids_loop n j i l g).
Proof.
  revert j. induction n as [| n IH]; intros j; cbn [laserAsteroids_loop];
    [apply tally_refl |].
  destruct (asteroids (env g) !! j) as [a |] eqn:Ha; [| apply tally_refl].
  destruct (V.distLt _ _ _); [| apply IH].
  destruct (Qltb _ _).
  - eapply tally_trans; [| eapply destroyAsteroid_tally].
    + apply tally_same; reflexivity.
    + cbn. exact Ha.
  - apply tally_same; reflexivity.
Qed.

Lemma updateLaser_at_tally dt i g : tally g (updateLaser_at dt i g).
Proof.
  unfold updateLaser_at. destruct (lasers g !! i) as [l |]; [| apply tally_refl].
  destruct (V.distGe _ _ _); [apply tally_same; reflexivity |].
  eapply tally_trans; [| apply laserAsteroids_loop_tally].
  eapply tally_trans; [| apply laserTargets_loop_tally].
  apply tally_same; reflexivity.
Qed.

Lemma updateLasers_tally dt g : tally g (updateLasers dt g).
Proof.
  unfold updateLasers.
  apply (for_down_invariant (fun g' => tally g g')); [| apply tally_refl].
  intros i s Hs. eapply tally_trans; [exact Hs | apply updateLaser_at_tally].
Qed.

Lemma driftAsteroid_cabin index g :
  cabin (fst (driftAsteroid index g)) = cabin g /\
  asteroids (env (fst (driftAsteroid index g))) = asteroids (env g) /\
  env_targets (env (fst (driftAsteroid index g))) = env_targets (env g).
Proof.
  unfold driftAsteroid.
  destruct (asteroids (env g) !! index) as [a |]; [| repeat split].
  cbn. destruct (_ !! _) as [obj |]; [| repeat split].
  cbn. destruct (V.distGt _ _ _); repeat split.
Qed.

Lemma driftAsteroids_cabin n index g :
  cabin (fst (driftAsteroids n index g)) = cabin g /\
  asteroids (env (fst (driftAsteroids n index g))) = asteroids (env g) /\
  env_targets (env (fst (driftAsteroids n index g))) = env_targets (env g).
Proof.
  revert index g. induction n as [| n IH]; intros index g; cbn;
    [repeat split |].
  destruct (driftAsteroid_cabin index g) as (H1 & H2 & H3).
  destruct (driftAsteroid index g) as [g1 []]; cbn in *.
  - destruct (IH (S index) g1) as (I1 & I2 & I3).
    rewrite I1, I2, I3. repeat split; assumption.
  - repeat split; assumption.
Qed.

Lemma updateEnvironment_cabin dt g :
  cabin (fst (updateEnvironment dt g)) = cabin g /\
  asteroids (env (fst (updateEnvironment dt g))) = asteroids (env g) /\
  env_targets (env (fst (updateEnvironment dt g))) = env_targets (env g).
Proof.
  unfold updateEnvironment.
  destruct (driftAsteroids_cabin (length (asteroids (env g))) 0 g)
    as (H1 & H2 & H3).
  destruct (driftAsteroids _ _ _) as [g1 []]; cbn in *;
    repeat split; assumption.
Qed.

Lemma env_updateEnemies_cabin dt g :
  cabin (env_updateEnemies dt g) = cabin g /\
  asteroids (env (env_updateEnemies dt g)) = asteroids (env g) /\
  length (env_targets (env (env_updateEnemies dt g))) =
    length (env_targets (env g)).
Proof.
  unfold env_updateEnemies.
  apply (for_up_invariant (fun g' =>
    cabin g' = cabin g /\ asteroids (env g') = asteroids (env g) /\
    length (env_targets (env g')) = length (env_targets (env g))));
    [| repeat split].
  intros i s (H1 & H2 & H3). unfold env_updateEnemy_at.
  destruct (env_targets (env s) !! i) as [t |]; [| repeat split; assumption].
  destruct (steerTarget _ _ _ _) as [t' k]. cbn.
  rewrite length_insert. repeat split; assumption.
Qed.

Lemma cabin_score g g' :
  cabin g' = cabin g -> score (gameState g') = score (gameState g).
Proof.
  intros E. unfold cabin in E. injection E as _ E2 _ _ _ _ _ _ _.
  rewrite E2. reflexivity.
Qed.

Lemma updateShipPhysics_score dt t g :
  score (gameState (updateShipPhysics dt t g)) = score (gameState g).
Proof.
  unfold updateShipPhysics. fold (beforeChecks t g).
  destruct (beforeChecks_frame t g) as (_ & Bs & _).
  assert (Ec : score (gameState (checkCollisions (beforeChecks t g))) =
               score (gameState g)).
  { destruct (checkCollisions_cases (beforeChecks t g))
      as [E' | (obj & _ & _ & _ & E')]; rewrite E'; [rewrite Bs; reflexivity |].
    destruct (handleCollision_frame obj (beforeChecks t g))
      as (_ & _ & _ & _ & _ & _ & _ & _ & Es & _). rewrite Es, Bs.
    reflexivity. }
  destruct (checkEnemyLasers_cases (checkCollisions (beforeChecks t g)))
    as [E | (i & l & _ & _ & _ & _ & E)]; rewrite E; [exact Ec |].
  destruct (hitShip_frame i l (checkCollisions (beforeChecks t g)))
    as (_ & _ & _ & _ & Es & _). rewrite Es. exact Ec.
Qed.

Lemma animate_tally dt t g : tally g (animate dt t g).
Proof.
  unfold animate. destruct (isGameOver (gameState g)); [apply tally_refl |].
  assert (T1 : tally g (updateShipPhysics dt t g)).
  { apply tally_same; rewrite ?updateShipPhysics_env;
      [reflexivity | reflexivity | apply updateShipPhysics_score]. }
  eapply tally_trans; [exact T1 |].
  destruct (updateEnvironment_cabin dt (updateShipPhysics dt t g))
    as (C1 & C2 & C3).
  destruct (updateEnvironment dt (updateShipPhysics dt t g)) as [g2 o].
  cbn in C1, C2, C3.
  assert (T2 : tally (updateShipPhysics dt t g) g2).
  { apply tally_same; [rewrite C3 | rewrite C2 | apply cabin_score; exact C1];
      reflexivity. }
  destruct o; [| exact T2].
  eapply tally_trans; [exact T2 |].
  destruct (env_updateEnemies_cabin dt g2) as (D1 & D2 & D3).
  assert (T3 : tally g2 (env_updateEnemies dt g2)).
  { apply tally_same; [exact D3 | rewrite D2; reflexivity
                       | apply cabin_score; exact D1]. }
  eapply tally_trans; [exact T3 |].
  eapply tally_trans; [apply updateLasers_tally |].
  apply tally_same; reflexivity.
Qed.

Lemma step_tally ev g : tally g (step ev g).
Proof.
  destruct (input_event_motion ev g)
    as [(dt & t & ->) | (_ & _ & _ & Ee & _ & Eg & _)].
  - apply animate_tally.
  - apply tally_same; rewrite ?Ee, ?Eg; reflexivity.
Qed.

Lemma run_tally evs g : tally g (run evs g).
Proof.
  revert g. induction evs as [| ev evs IH]; intros g; [apply tally_refl |].
  change (run (ev :: evs) g) with (run evs (step ev g)).
  eapply tally_trans; [apply step_tally | apply IH].
Qed.

Lemma for_up_count {S : Type} (f : S -> nat) (body : nat -> S -> S) :
  (forall i s, f (body i s) = Datatypes.S (f s)) ->
  forall n start s, f (for_up n start body s) = (n + f s)%nat.
Proof.
  intros Hb n. induction n as [| n IH]; intros start s; cbn; [reflexivity |].
  rewrite IH, Hb. lia.
Qed.

Lemma createEnemyFighters_census g :
  length (env_targets (env (createEnemyFighters g))) =
    (10 + length (env_targets (env g)))%nat /\
  asteroids (env (createEnemyFighters g)) = asteroids (env g) /\
  score (gameState (createEnemyFighters g)) = score (gameState g).
Proof.
  unfold createEnemyFighters. split; [| split].
  - apply (for_up_count (fun g' => length (env_targets (env g')))).
    intros i s. cbn. rewrite length_app. cbn. lia.
  - apply (for_up_invariant
             (fun g' => asteroids (env g') = asteroids (env g)));
      [| reflexivity].
    intros i s Hs. exact Hs.
  - apply (for_up_invariant
             (fun g' => score (gameState g') = score (gameState g)));
      [| reflexivity].
    intros i s Hs. exact Hs.
Qed.

Lemma createAsteroidField_census cx cy cz r n g :
  length (asteroids (env (createAsteroidField cx cy cz r n g))) =
    (n + length (asteroids (env g)))%nat /\
  env_targets (env (createAsteroidField cx cy cz r n g)) = env_targets (env g) /\
  score (gameState (createAsteroidField cx cy cz r n g)) = score (gameState g).
Proof.
  unfold createAsteroidField. split; [| split].
  - apply (for_up_count (fun g' => length (asteroids (env g')))).
    intros i s. unfold createAsteroid, newMesh. cbn. rewrite length_app. cbn. lia.
  - apply (for_up_invariant
             (fun g' => env_targets (env g') = env_targets (env g)));
      [| reflexivity].
    intros i s Hs. exact Hs.
  - apply (for_up_invariant
             (fun g' => score (gameState g') = score (gameState g)));
      [| reflexivity].
    intros i s Hs. exact Hs.
Qed.

Lemma createDeathStar_census g :
  env_targets (env (createDeathStar g)) = env_targets (env g) /\
  asteroids (env (createDeathStar g)) = asteroids (env g) /\
  score (gameState (createDeathStar g)) = score (gameState g).
Proof. repeat split. Qed.

Lemma createPlanet_census x y z r g :
  env_targets (env (createPlanet x y z r g)) = env_targets (env g) /\
  asteroids (env (createPlanet x y z r g)) = asteroids (env g) /\
  score (gameState (createPlanet x y z r g)) = score (gameState g).
Proof. repeat split. Qed.

Lemma init_census : census init = (10%nat, 50%nat, 0%Z).
Proof.
  unfold census.
  assert (Ei : forall g, env (initUI g) = env g /\
                         gameState (initUI g) = gameState g)
    by (intros g; split; reflexivity).
  unfold init. cbv zeta.
  rewrite (proj1 (Ei _)), (proj2 (Ei _)).
  rewrite (proj1 (createEnemyFighters_census _)),
    (proj1 (proj2 (createEnemyFighters_census _))),
    (proj2 (proj2 (createEnemyFighters_census _))).
  rewrite (proj1 (createDeathStar_census _)),
    (proj1 (proj2 (createDeathStar_census _))),
    (proj2 (proj2 (createDeathStar_census _))).
  rewrite (proj1 (createAsteroidField_census _ _ _ _ _ _)),
    (proj1 (proj2 (createAsteroidField_census _ _ _ _ _ _))),
    (proj2 (proj2 (createAsteroidField_census _ _ _ _ _ _))).
  rewrite !(proj1 (createPlanet_census _ _ _ _ _)),
    !(proj1 (proj2 (createPlanet_census _ _ _ _ _))),
    !(proj2 (proj2 (createPlanet_census _ _ _ _ _))).
  reflexivity.
Qed.

(** X15. The score is what has been shot.  In every state that can be
    reached from [init], in which there are 10 fighters and 50 asteroids and
    the score is 0, no fighter and no asteroid has been added, and the score
    is 100 for each fighter that is gone plus 25 for each asteroid that is
    gone; so it lies between 0 and 2250. *)
Theorem score_is_what_has_been_shot (evs : list Event) :
  let fighters := length (env_targets (env (run evs init))) in
  let rocks := length (asteroids (env (run evs init))) in
  (fighters <= 10)%nat /\ (rocks <= 50)%nat /\
  score (gameState (run evs init)) =
    (100 * Z.of_nat (10 - fighters) + 25 * Z.of_nat (50 - rocks))%Z /\
  (0 <= score (gameState (run evs init)) <= 2250)%Z.
Proof.
  cbv zeta. destruct (run_tally evs init) as (T1 & T2 & T3).
  pose proof init_census as E. unfold census in E.
  pose proof (f_equal (fun c => fst (fst c)) E) as E1.
  pose proof (f_equal (fun c => snd (fst c)) E) as E2.
  pose proof (f_equal snd E) as E3. cbv beta in E1, E2, E3.
  cbn [fst snd] in E1, E2, E3. unfold ledger in T3.
  rewrite E1 in T1. rewrite E2 in T2. rewrite E1, E2, E3 in T3.
  repeat split; lia.
Qed.

(** ** The score display *)

Lemma shown_board g g' : board g' = board g -> shown g -> shown g'.
Proof.
  unfold board, shown. intros E. injection E as E1 E2 E3.
  rewrite E1, E2, E3. auto.
Qed.

Lemma cabin_board g g' : cabin g' = cabin g -> board g' = board g.
Proof.
  unfold cabin, board. intros E. injection E as _ E2 _ _ _ _ _ E8 _.
  rewrite E2, E8. reflexivity.
Qed.

Lemma updateScoreDisplay_shown g :
  gameOverScreen (ui g) = true -> shown (updateScoreDisplay g).
Proof.
  intros Hs. unfold updateScoreDisplay, shown. rewrite Hs. cbn. auto.
Qed.

Lemma laserTargets_loop_shown n i l g :
  shown g -> shown (laserTargets_loop n i l g).
Proof.
  intros Hs. induction n as [| j IH]; cbn [laserTargets_loop]; [exact Hs |].
  destruct (env_targets (env g) !! j) as [t |]; [| exact IH].
  destruct (V.distLt _ _ _); [| exact IH].
  destruct (_ <=? _)%Z.
  - apply updateScoreDisplay_shown. apply Hs.
  - exact Hs.
Qed.

Lemma laserAsteroids_loop_shown n j i l g :
  shown g -> shown (laserAsteroids_loop n j i l g).
Proof.
  intros Hs. revert j. induction n as [| n IH]; intros j;
    cbn [laserAsteroids_loop]; [exact Hs |].
  destruct (asteroids (env g) !! j) as [a |]; [| exact Hs].
  destruct (V.distLt _ _ _); [| apply IH].
  destruct (Qltb _ _).
  - apply updateScoreDisplay_shown. apply Hs.
  - exact Hs.
Qed.

Lemma updateLasers_shown dt g : shown g -> shown (updateLasers dt g).
Proof.
  unfold updateLasers. apply (for_down_invariant shown).
  intros i s Hs. unfold updateLaser_at.
  destruct (lasers s !! i) as [l |]; [| exact Hs].
  destruct (V.distGe _ _ _); [exact Hs |].
  apply laserAsteroids_loop_shown, laserTargets_loop_shown. exact Hs.
Qed.

Lemma gameOver_board m g : board (gameOver m g) = board g.
Proof. unfold gameOver. cbn. destruct (gameOverScreen (ui g)); reflexivity. Qed.

Lemma beforeChecks_ui t g :
  ui (beforeChecks t g) = ui g /\
  xw_visible (xwing (beforeChecks t g)) = xw_visible (xwing g).
Proof.
  unfold beforeChecks.
  assert (Eu : forall g0, ui (updateBarrelRoll g0) = ui g0 /\
             xw_visible (xwing (updateBarrelRoll g0)) = xw_visible (xwing g0)).
  { intros g0. unfold updateBarrelRoll.
    destruct (br_active _); [destruct (Qle_bool _ _) |]; split; reflexivity. }
  destruct (Eu (if k_f (keys (moveShip g)) then fireLaser t (moveShip g)
                else moveShip g)) as [U1 U2].
  rewrite U1, U2.
  destruct (k_f _); [unfold fireLaser; destruct (Qltb _ _) |];
    split; reflexivity.
Qed.

Lemma updateShipPhysics_board dt t g :
  board (updateShipPhysics dt t g) = board g.
Proof.
  unfold updateShipPhysics. fold (beforeChecks t g).
  assert (Eb : board (beforeChecks t g) = board g).
  { unfold board. destruct (beforeChecks_frame t g) as (_ & Bg & _).
    rewrite (proj1 (beforeChecks_ui t g)), Bg. reflexivity. }
  assert (Ec : board (checkCollisions (beforeChecks t g)) = board g).
  { destruct (checkCollisions_cases (beforeChecks t g))
      as [E' | (obj & _ & _ & _ & E')]; rewrite E'; [exact Eb |].
    unfold handleCollision.
    destruct (c_type obj); rewrite gameOver_board; exact Eb. }
  destruct (checkEnemyLasers_cases (checkCollisions (beforeChecks t g)))
    as [E | (i & l & _ & _ & _ & _ & E)]; rewrite E; [exact Ec |].
  unfold hitShip. cbv zeta.
  match goal with |- context [if ?c then _ else _] => destruct c end;
    [rewrite gameOver_board |]; exact Ec.
Qed.

Lemma animate_shown dt t g : shown g -> shown (animate dt t g).
Proof.
  intros Hs. unfold animate. destruct (isGameOver (gameState g)); [exact Hs |].
  assert (H1 : shown (updateShipPhysics dt t g))
    by (apply (shown_board g); [apply updateShipPhysics_board | exact Hs]).
  destruct (updateEnvironment_cabin dt (updateShipPhysics dt t g)) as (C1 & _).
  destruct (updateEnvironment dt (updateShipPhysics dt t g)) as [g2 o].
  cbn in C1.
  assert (H2 : shown g2)
    by (apply (shown_board _ _ (cabin_board _ _ C1)); exact H1).
  destruct o; [| exact H2].
  destruct (env_updateEnemies_cabin dt g2) as (D1 & _).
  apply (shown_board (updateLasers dt (env_updateEnemies dt g2)));
    [reflexivity |].
  apply updateLasers_shown.
  apply (shown_board _ _ (cabin_board _ _ D1)). exact H2.
Qed.

Lemma step_shown ev g : shown g -> shown (step ev g).
Proof.
  intros Hs.
  destruct (input_event_motion ev g)
    as [(dt & t & ->) | (_ & _ & _ & _ & Eu & Eg & _)].
  - apply animate_shown. exact Hs.
  - unfold shown. rewrite Eu, Eg. exact Hs.
Qed.

Lemma createEnemyFighters_ui g :
  ui (createEnemyFighters g) = ui g.
Proof.
  unfold createEnemyFighters.
  apply (for_up_invariant (fun g' => ui g' = ui g)); [| reflexivity].
  intros i s Hs. exact Hs.
Qed.

Lemma createAsteroidField_ui cx cy cz r n g :
  ui (createAsteroidField cx cy cz r n g) = ui g.
Proof.
  unfold createAsteroidField.
  apply (for_up_invariant (fun g' => ui g' = ui g)); [| reflexivity].
  intros i s Hs. exact Hs.
Qed.

Lemma createDeathStar_ui g : ui (createDeathStar g) = ui g.
Proof. reflexivity. Qed.

Lemma createPlanet_ui x y z r g : ui (createPlanet x y z r g) = ui g.
Proof. reflexivity. Qed.

Lemma init_ui :
  ui init = mkUI true false "Your X-Wing has been destroyed!" 0%Z 0%Z.
Proof.
  assert (Ei : forall g, ui (initUI g) =
                 mkUI true false (gameOverMessage (ui g)) (scoreValue (ui g))
                      (liveScoreValue (ui g))) by reflexivity.
  unfold init. cbv zeta.
  rewrite Ei, createEnemyFighters_ui, createDeathStar_ui,
    createAsteroidField_ui, !createPlanet_ui.
  reflexivity.
Qed.

(** X16. The score display is never stale.  In every state that can be
    reached from [init], the live score at the top left shows
    [gameState.score]. *)
Theorem live_score_shows_the_score (evs : list Event) :
  liveScoreValue (ui (run evs init)) = score (gameState (run evs init)).
Proof.
  apply (run_invariant shown step_shown).
  unfold shown. rewrite init_ui.
  pose proof (f_equal snd init_census) as E. cbn [snd census] in E.
  rewrite E. split; reflexivity.
Qed.

(** ** The health of the fighters *)

Lemma standardIssue_advance dt l :
  standardIssue l -> standardIssue (advanceLaser dt l).
Proof. intros Hl. exact Hl. Qed.

Lemma inFight_health l l' :
  map t_health l' = map t_health l -> Forall inFight l -> Forall inFight l'.
Proof.
  revert l'. induction l as [| t l IH]; intros [| t' l'] E Hl;
    try discriminate; [constructor |].
  cbn in E. injection E as E1 E2. apply Forall_cons in Hl.
  destruct Hl as [Ht Hl]. constructor; [| apply IH; assumption].
  unfold inFight in *. rewrite E1. exact Ht.
Qed.

Lemma laserTargets_loop_inFight n i l g :
  l_damage l = laserDamage ->
  Forall inFight (env_targets (env g)) ->
  Forall inFight (env_targets (env (laserTargets_loop n i l g))).
Proof.
  intros Hd Hf. induction n as [| j IH]; cbn [laserTargets_loop]; [exact Hf |].
  destruct (env_targets (env g) !! j) as [t |] eqn:Ht; [| exact IH].
  destruct (V.distLt _ _ _); [| exact IH].
  assert (Hj : (j < length (env_targets (env g)))%nat)
    by (apply lookup_lt_Some in Ht; exact Ht).
  destruct (_ <=? _)%Z eqn:Hk.
  - rewrite updateScoreDisplay_env. cbn. unfold destroyTarget. cbn.
    rewrite list_lookup_insert_eq by exact Hj. cbn.
    rewrite delete_insert_same. apply Forall_delete. exact Hf.
  - cbn. apply Forall_insert; [exact Hf |].
    rewrite Forall_lookup in Hf. specialize (Hf j t Ht).
    unfold inFight in *. cbn in *. rewrite Hd in *. unfold laserDamage in *.
    apply Z.leb_gt in Hk. lia.
Qed.

Lemma laserAsteroids_loop_targets n j i l g :
  env_targets (env (laserAsteroids_loop n j i l g)) = env_targets (env g).
Proof.
  revert j. induction n as [| n IH]; intros j; cbn [laserAsteroids_loop];
    [reflexivity |].
  destruct (asteroids (env g) !! j) as [a |] eqn:Ha; [| reflexivity].
  destruct (V.distLt _ _ _); [| apply IH].
  destruct (Qltb _ _); [| reflexivity].
  rewrite updateScoreDisplay_env.
  change (env (addScore 25 (set_env (destroyAsteroid j) ?x)))
    with (destroyAsteroid j (env x)).
  match goal with |- context [destroyAsteroid j ?e] =>
    rewrite (proj2 (destroyAsteroid_asteroids j e a Ha)) end.
  reflexivity.
Qed.

Lemma updateLaser_at_armed dt i g : armed g -> armed (updateLaser_at dt i g).
Proof.
  intros [Hl Hf]. split.
  - apply Forall_advance_delete; [intros l; apply standardIssue_advance | exact Hl].
  - unfold updateLaser_at. destruct (lasers g !! i) as [l |] eqn:El; [| exact Hf].
    destruct (V.distGe _ _ _); [exact Hf |].
    rewrite laserAsteroids_loop_targets.
    apply laserTargets_loop_inFight; [| exact Hf].
    rewrite Forall_lookup in Hl. apply (Hl i l El).
Qed.

Lemma updateLasers_armed dt g : armed g -> armed (updateLasers dt g).
Proof.
  unfold updateLasers. apply (for_down_invariant armed).
  intros i s. apply updateLaser_at_armed.
Qed.

Lemma fireLaser_standard t g :
  Forall standardIssue (lasers g) -> Forall standardIssue (lasers (fireLaser t g)).
Proof.
  intros Hl. unfold fireLaser. destruct (Qltb _ _); [exact Hl |]. cbn.
  apply Forall_app. split; [exact Hl |]. repeat constructor.
Qed.

Lemma updateShipPhysics_standard dt t g :
  Forall standardIssue (lasers g) ->
  Forall standardIssue (lasers (updateShipPhysics dt t g)).
Proof.
  intros Hl. unfold updateShipPhysics.
  set (g2 := if k_f (keys (moveShip g)) then fireLaser t (moveShip g)
             else moveShip g).
  assert (H2 : Forall standardIssue (lasers g2)).
  { unfold g2. destruct (k_f _); [apply fireLaser_standard |]; exact Hl. }
  assert (H3 : Forall standardIssue (lasers (checkCollisions (updateBarrelRoll g2)))).
  { rewrite checkCollisions_lasers.
    destruct (updateBarrelRoll_frame g2) as (_ & _ & _ & _ & E & _).
    rewrite E. exact H2. }
  destruct (checkEnemyLasers_cases (checkCollisions (updateBarrelRoll g2)))
    as [E | (i & l & _ & _ & _ & _ & E)]; rewrite E; [exact H3 |].
  destruct (hitShip_frame i l (checkCollisions (updateBarrelRoll g2)))
    as (_ & E2 & _). rewrite E2. apply Forall_delete. exact H3.
Qed.

Lemma cabin_lasers g g' : cabin g' = cabin g -> lasers g' = lasers g.
Proof.
  unfold cabin. intros E. injection E as _ _ _ _ E5 _ _ _ _. exact E5.
Qed.

Lemma animate_armed dt t g : armed g -> armed (animate dt t g).
Proof.
  intros [Hl Hf]. unfold animate.
  destruct (isGameOver (gameState g)); [split; assumption |].
  assert (H1 : armed (updateShipPhysics dt t g)).
  { split; [apply updateShipPhysics_standard; exact Hl |].
    rewrite updateShipPhysics_env. exact Hf. }
  destruct (updateEnvironment_cabin dt (updateShipPhysics dt t g))
    as (C1 & _ & C3).
  destruct (updateEnvironment dt (updateShipPhysics dt t g)) as [g2 o].
  cbn in C1, C3.
  assert (H2 : armed g2).
  { split; [rewrite (cabin_lasers _ _ C1) | rewrite C3]; apply H1. }
  destruct o; [| exact H2].
  destruct (env_updateEnemies_cabin dt g2) as (D1 & _).
  destruct (env_updateEnemies_frame dt g2) as (_ & _ & _ & D4).
  assert (H3 : armed (env_updateEnemies dt g2)).
  { split; [rewrite (cabin_lasers _ _ D1); apply H2 |].
    apply (inFight_health _ _ D4). apply H2. }
  apply (updateLasers_armed dt) in H3. exact H3.
Qed.

Lemma step_armed ev g : armed g -> armed (step ev g).
Proof.
  intros Ha. destruct ev as [dt t | k t | k | k b | t |]; cbn.
  - apply animate_armed. exact Ha.
  - unfold onKeyDown. destruct k; try exact Ha.
    + cbn. destruct (br_active _); exact Ha.
    + cbn. destruct (br_active _); exact Ha.
    + destruct Ha as [Hl Hf]. split; [apply fireLaser_standard; exact Hl |].
      destruct (fireLaser_frame t (set_keys (setKey Kf true) g))
        as (_ & _ & _ & _ & _ & _ & Ee & _).
      rewrite Ee. exact Hf.
  - exact Ha.
  - exact Ha.
  - destruct Ha as [Hl Hf]. split; [apply fireLaser_standard; exact Hl |].
    destruct (fireLaser_frame t g) as (_ & _ & _ & _ & _ & _ & Ee & _).
    rewrite Ee. exact Hf.
  - unfold onGraceTimeout. destruct (graceTimers g); exact Ha.
Qed.

Lemma createEnemyFighters_inFight g :
  Forall inFight (env_targets (env g)) ->
  Forall inFight (env_targets (env (createEnemyFighters g))).
Proof.
  unfold createEnemyFighters.
  apply (for_up_invariant (fun g' => Forall inFight (env_targets (env g')))).
  intros i s Hs. cbn. apply Forall_app. split; [exact Hs |].
  repeat constructor.
Qed.

Lemma createAsteroidField_targets cx cy cz r n g :
  env_targets (env (createAsteroidField cx cy cz r n g)) = env_targets (env g).
Proof. apply createAsteroidField_census. Qed.

Lemma init_armed : armed init.
Proof.
  split.
  - assert (E : lasers init = lasers emptyGame)
      by exact (f_equal (fun c => snd (fst (fst (fst c)))) init_cockpit).
    rewrite E. constructor.
  - assert (Ei : forall g, env (initUI g) = env g) by reflexivity.
    unfold init. cbv zeta. rewrite Ei.
    apply createEnemyFighters_inFight.
    rewrite (proj1 (createDeathStar_census _)), createAsteroidField_targets,
      !(proj1 (createPlanet_census _ _ _ _ _)).
    constructor.
Qed.

(** X17. A fighter falls to its second hit.  In every state that can be
    reached from [init], every projectile in flight is as [fireLaser] makes
    it, with damage 25 and range 200, and every fighter left has 50 health or
    25: one that has been hit twice is gone. *)
Theorem a_fighter_falls_to_its_second_hit (evs : list Event) :
  Forall (fun l => l_damage l = 25%Z /\ l_maxDistance l = 200 /\
                   l_distance l = 0 /\ l_isEnemy l = false)
         (lasers (run evs init)) /\
  Forall (fun t => t_health t = 50%Z \/ t_health t = 25%Z)
         (env_targets (env (run evs init))).
Proof.
  exact (run_invariant armed step_armed evs init init_armed).
Qed.

(** ** How the game ends *)

Lemma cabin_panel g g' : cabin g' = cabin g -> panel g' = panel g.
Proof.
  unfold cabin, panel. intros E. injection E as _ _ _ E4 _ _ _ E8 _.
  rewrite E4, E8. reflexivity.
Qed.

Lemma updateScoreDisplay_panel g : panel (updateScoreDisplay g) = panel g.
Proof. unfold updateScoreDisplay. destruct (gameOverScreen _) eqn:E; [| reflexivity].
  unfold panel. cbn. rewrite E. reflexivity. Qed.

Lemma laserTargets_loop_panel n i l g :
  panel (laserTargets_loop n i l g) = panel g.
Proof.
  induction n as [| j IH]; cbn [laserTargets_loop]; [reflexivity |].
  destruct (env_targets (env g) !! j) as [t |]; [| exact IH].
  destruct (V.distLt _ _ _); [| exact IH].
  destruct (_ <=? _)%Z; [rewrite updateScoreDisplay_panel |]; reflexivity.
Qed.

Lemma laserAsteroids_loop_panel n j i l g :
  panel (laserAsteroids_loop n j i l g) = panel g.
Proof.
  revert j. induction n as [| n IH]; intros j; cbn [laserAsteroids_loop];
    [reflexivity |].
  destruct (asteroids (env g) !! j) as [a |]; [| reflexivity].
  destruct (V.distLt _ _ _); [| apply IH].
  destruct (Qltb _ _); [rewrite updateScoreDisplay_panel |]; reflexivity.
Qed.

Lemma updateLasers_panel dt g : panel (updateLasers dt g) = panel g.
Proof.
  unfold updateLasers.
  apply (for_down_invariant (fun g' => panel g' = panel g)); [| reflexivity].
  intros i s Hs. rewrite <- Hs. unfold updateLaser_at.
  destruct (lasers s !! i) as [l |]; [| reflexivity].
  destruct (V.distGe _ _ _); [reflexivity |].
  rewrite laserAsteroids_loop_panel, laserTargets_loop_panel. reflexivity.
Qed.

Lemma rest_of_frame_panel dt g :
  panel (match updateEnvironment dt g with
         | (g2, Thrown) => g2
         | (g2, Normal) =>
             render (updateExplosions dt
               (updateLasers dt (env_updateEnemies dt g2)))
         end) = panel g.
Proof.
  destruct (updateEnvironment_cabin dt g) as (C1 & _).
  destruct (updateEnvironment dt g) as [g2 o]. cbn in C1.
  destruct o; [| apply cabin_panel; exact C1].
  change (panel (render (updateExplosions dt ?x))) with (panel x).
  rewrite updateLasers_panel.
  rewrite (cabin_panel _ _ (proj1 (env_updateEnemies_cabin dt g2))).
  apply cabin_panel. exact C1.
Qed.

Lemma gameOver_ended m g :
  gameOverScreen (ui g) = true ->
  ended m (gameOver m g) /\ gameOverScreen (ui (gameOver m g)) = true.
Proof.
  intros Hs. unfold gameOver, ended. cbn. rewrite Hs. cbn.
  repeat split. exact Hs.
Qed.

Lemma outcome_ext g g' :
  isGameOver (gameState g') = isGameOver (gameState g) ->
  health (shipState g') = health (shipState g) ->
  panel g' = panel g ->
  outcome g -> outcome g'.
Proof.
  intros E1 E2 E3. unfold panel in E3. injection E3 as _ E4 E5 E6.
  unfold outcome, ended. rewrite E1, E2, E4, E5, E6. auto.
Qed.

Lemma animate_outcome dt t g :
  peaceful g -> gameOverScreen (ui g) = true -> outcome g ->
  gameOverScreen (ui (animate dt t g)) = true /\ outcome (animate dt t g).
Proof.
  intros Hp Hs Ho. unfold animate.
  destruct (isGameOver (gameState g)) eqn:Hover; [split; assumption |].
  pose proof (rest_of_frame_pilot dt (updateShipPhysics dt t g)) as Ep.
  pose proof (rest_of_frame_panel dt (updateShipPhysics dt t g)) as En.
  set (g' := match updateEnvironment dt (updateShipPhysics dt t g) with
             | (g2, Thrown) => g2 | (g2, Normal) => _ end) in *.
  assert (H1 : gameOverScreen (ui (updateShipPhysics dt t g)) = true /\
               outcome (updateShipPhysics dt t g)).
  { destruct (updateShipPhysics_peaceful dt t g Hp) as [_ Eq]. rewrite Eq.
    destruct (beforeChecks_frame t g) as (Bh & Bg & _).
    destruct (beforeChecks_ui t g) as (Bu & Bv).
    assert (Hb : outcome (beforeChecks t g)).
    { apply (outcome_ext g); [rewrite Bg; reflexivity | exact Bh | | exact Ho].
      unfold panel. rewrite Bu, Bv. reflexivity. }
    assert (Hh : health (shipState (beforeChecks t g)) = 100%Z).
    { rewrite Bh. destruct Ho as [(_ & _ & _ & Hh) | [(_ & He & _) | [(_ & He & _) | (_ & He & _)]]];
        [exact Hh | congruence ..]. }
    destruct (checkCollisions_cases (beforeChecks t g))
      as [Ec | (obj & _ & _ & _ & Ec)]; rewrite Ec;
      [split; [rewrite Bu; exact Hs | exact Hb] |].
    unfold handleCollision. destruct (c_type obj).
    - destruct (gameOver_ended "Your X-Wing was destroyed by an asteroid!"
                  (set_shipState (set_health 0%Z) (beforeChecks t g)))
        as [He Hs']; [cbn; rewrite Bu; exact Hs |].
      split; [exact Hs' |]. right. left.
      split; [rewrite gameOver_shipState; reflexivity | exact He].
    - destruct (gameOver_ended "Your X-Wing crashed into a planet!"
                  (set_shipState (set_health 0%Z) (beforeChecks t g)))
        as [He Hs']; [cbn; rewrite Bu; exact Hs |].
      split; [exact Hs' |]. right. right. left.
      split; [rewrite gameOver_shipState; reflexivity | exact He].
    - destruct (gameOver_ended
                  "Mission Complete! You've reached the Death Star!"
                  (beforeChecks t g)) as [He Hs']; [rewrite Bu; exact Hs |].
      split; [exact Hs' |]. right. right. right.
      split; [rewrite gameOver_shipState; exact Hh | exact He]. }
  destruct H1 as [Hs1 Ho1].
  assert (E1 : shipState g' = shipState (updateShipPhysics dt t g))
    by exact (f_equal (fun c => fst (fst (fst (fst (fst (fst c)))))) Ep).
  assert (E2 : isGameOver (gameState g') =
               isGameOver (gameState (updateShipPhysics dt t g)))
    by exact (f_equal (fun c => snd (fst (fst (fst (fst (fst c)))))) Ep).
  split.
  - assert (E3 : gameOverScreen (ui g') =
                 gameOverScreen (ui (updateShipPhysics dt t g)))
      by exact (f_equal (fun c => fst (fst (fst c))) En).
    rewrite E3. exact Hs1.
  - apply (outcome_ext (updateShipPhysics dt t g));
      [exact E2 | rewrite E1; reflexivity | exact En | exact Ho1].
Qed.

Lemma step_outcome ev g :
  peaceful g /\ gameOverScreen (ui g) = true /\ outcome g ->
  peaceful (step ev g) /\ gameOverScreen (ui (step ev g)) = true /\
  outcome (step ev g).
Proof.
  intros (Hp & Hs & Ho). split; [apply step_peaceful; exact Hp |].
  destruct (input_event_motion ev g)
    as [(dt & t & ->) | (_ & Ex & Eh & _ & Eu & Eg & _)].
  - apply animate_outcome; assumption.
  - split; [rewrite Eu; exact Hs |].
    apply (outcome_ext g); [rewrite Eg; reflexivity | exact Eh | | exact Ho].
    unfold panel. rewrite Eu, Ex. reflexivity.
Qed.

(** X18. How a game ends.  In every state that can be reached from [init],
    either the game goes on, the game-over screen is not shown, the ship is
    drawn and has its full health; or the game is over, the screen is shown,
    the ship is hidden, and the message is that of the asteroid or of the
    planet with the health at 0, or that of the Death Star with the health
    still full.  The message of the enemy fire never shows. *)
Theorem how_the_game_ends (evs : list Event) :
  let g := run evs init in
  (isGameOver (gameState g) = false /\ gameOverDisplayed (ui g) = false /\
   xw_visible (xwing g) = true /\ health (shipState g) = 100%Z) \/
  (health (shipState g) = 0%Z /\
   ended "Your X-Wing was destroyed by an asteroid!" g) \/
  (health (shipState g) = 0%Z /\
   ended "Your X-Wing crashed into a planet!" g) \/
  (health (shipState g) = 100%Z /\
   ended "Mission Complete! You've reached the Death Star!" g).
Proof.
  cbv zeta.
  apply (run_invariant
           (fun g => peaceful g /\ gameOverScreen (ui g) = true /\ outcome g)
           step_outcome evs init).
  split; [exact init_peaceful |].
  pose proof init_cockpit as E.
  assert (E1 : shipState init = shipState emptyGame)
    by exact (f_equal (fun c => fst (fst (fst (fst (fst (fst (fst c))))))) E).
  assert (E2 : gameState init = gameState emptyGame)
    by exact (f_equal (fun c => snd (fst (fst (fst (fst (fst (fst c))))))) E).
  assert (E4 : xwing init = xwing emptyGame)
    by exact (f_equal (fun c => snd (fst (fst (fst (fst c))))) E).
  unfold outcome. rewrite init_ui, E1, E2, E4.
  split; [reflexivity |]. left. repeat split.
Qed.

(** ** The first hazard in reach *)

(** X19. The first hazard in reach decides.  When the ship is not
    invulnerable and [obj] is the first collision object, in the order of
    the list, that the ship is closer to than the sum of the radii, the game
    is over whatever [obj] is.  A planet takes the health to 0 like an
    asteroid; the Death Star leaves it as it is and is the goal.  The
    message is that of the kind of [obj]; the score, the projectiles and the
    environment are not touched. *)
Theorem first_hazard_in_reach_decides (g : Game)
    (pre post : list CollisionObject) (obj : CollisionObject) :
  invulnerable (shipState g) = false ->
  collisionObjects (env g) = pre ++ obj :: post ->
  clearOf g pre ->
  within (position (shipState g)) (deref (env g) (c_position obj))
         (collisionRadius + c_radius obj) ->
  checkCollisions g = handleCollision obj g /\
  isGameOver (gameState (checkCollisions g)) = true /\
  health (shipState (checkCollisions g)) =
    match c_type obj with
    | deathstar => health (shipState g)
    | _ => 0%Z
    end /\
  (gameOverScreen (ui g) = true ->
   gameOverMessage (ui (checkCollisions g)) =
     match c_type obj with
     | asteroid => "Your X-Wing was destroyed by an asteroid!"
     | planet => "Your X-Wing crashed into a planet!"
     | deathstar => "Mission Complete! You've reached the Death Star!"
     end%string) /\
  score (gameState (checkCollisions g)) = score (gameState g) /\
  lasers (checkCollisions g) = lasers g /\
  env (checkCollisions g) = env g.
Proof.
  intros Hinv Hobjs Hpre Hin.
  assert (Heq : checkCollisions g = handleCollision obj g).
  { unfold checkCollisions. rewrite Hinv, Hobjs.
    apply checkCollisions_loop_first; assumption. }
  rewrite Heq. split; [reflexivity |].
  destruct (handleCollision_frame obj g)
    as (El & _ & _ & _ & Ee & _ & _ & _ & Es & Eo & Eh).
  split; [exact Eo |]. split; [exact Eh |].
  split; [| split; [exact Es | split; [exact El | exact Ee]]].
  intros Hui. unfold handleCollision.
  destruct (c_type obj); apply gameOver_message; exact Hui.
Qed.

(** ** Where the hazards are *)

Lemma aligned_meshes e :
  aligned e ->
  map c_mesh (collisionObjects e) =
    map p_mesh (planets e) ++ map a_mesh (asteroids e) ++
    match deathStar e with Some m => [m] | None => [] end.
Proof.
  intros (Hco & _). rewrite Hco, !map_app, !map_map. cbn.
  destruct (deathStar e); reflexivity.
Qed.

Lemma asteroid_not_landmark e a :
  aligned e -> a ∈ asteroids e -> a_mesh a ∉ landmarks e.
Proof.
  intros Hal Ha Hin. pose proof (aligned_meshes e Hal) as Em.
  destruct Hal as (_ & Hnd & _). rewrite Em in Hnd.
  assert (Hm : a_mesh a ∈ map a_mesh (asteroids e))
    by (apply (list_elem_of_fmap_2 a_mesh); exact Ha).
  unfold landmarks in Hin. apply elem_of_app in Hin.
  destruct Hin as [Hin | Hin].
  - apply NoDup_app in Hnd. destruct Hnd as (_ & Hd & _).
    apply (Hd _ Hin). apply elem_of_app. left. exact Hm.
  - apply NoDup_app in Hnd. destruct Hnd as (_ & _ & Hnd).
    apply NoDup_app in Hnd. destruct Hnd as (_ & Hd & _).
    apply (Hd _ Hm). exact Hin.
Qed.

Lemma lookups_insert (mp : list Vector3) (m : nat) (p : Vector3)
    (l : list nat) :
  m ∉ l ->
  map (fun x => <[m := p]> mp !! x) l = map (fun x => mp !! x) l.
Proof.
  induction l as [| x l IH]; intros Hm; [reflexivity |].
  cbn. rewrite IH by (intros Hin; apply Hm; right; exact Hin).
  f_equal. apply list_lookup_insert_ne. intros ->. apply Hm. left.
Qed.

Lemma skyline_insert e m p :
  m ∉ landmarks e ->
  skyline (set_meshPosition (<[m := p]>) e) = skyline e.
Proof.
  intros Hm. unfold skyline.
  change (landmarks (set_meshPosition (<[m := p]>) e)) with (landmarks e).
  cbn [planets deathStar meshPosition set_meshPosition].
  rewrite (lookups_insert _ _ _ _ Hm). reflexivity.
Qed.

Lemma driftAsteroid_skyline index g :
  aligned (env g) ->
  skyline (env (fst (driftAsteroid index g))) = skyline (env g).
Proof.
  intros Hal. unfold driftAsteroid.
  destruct (asteroids (env g) !! index) as [a |] eqn:Ha; [| reflexivity].
  assert (Hm : a_mesh a ∉ landmarks (env g)).
  { apply asteroid_not_landmark; [exact Hal |].
    eapply list_elem_of_lookup_2. exact Ha. }
  cbn [env set_env planets set_meshPosition collisionObjects].
  match goal with |- context [collisionObjects (env g) !! ?k] =>
    destruct (collisionObjects (env g) !! k) as [obj |] end;
    cbn [fst env set_env]; [| apply skyline_insert; exact Hm].
  destruct (V.distGt _ _ _); cbn [fst env set_env set_randCalls].
  - rewrite skyline_insert by exact Hm.
    change (skyline (set_collisionObjects ?f ?e)) with (skyline e).
    apply skyline_insert. exact Hm.
  - change (skyline (set_collisionObjects ?f ?e)) with (skyline e).
    apply skyline_insert. exact Hm.
Qed.
Lemma driftAsteroids_skyline n index g :
  aligned (env g) ->
  skyline (env (fst (driftAsteroids n index g))) = skyline (env g).
Proof.
  revert index g. induction n as [| n IH]; intros index g Hal; cbn;
    [reflexivity |].
  pose proof (driftAsteroid_skyline index g Hal) as E.
  destruct (driftAsteroid_aligned index g Hal) as [_ E2].
  destruct (driftAsteroid index g) as [g1 []]; cbn in *; [| exact E].
  rewrite (IH (S index) g1 (aligned_hazards _ _ E2 Hal)). exact E.
Qed.

Lemma updateEnvironment_skyline dt g :
  aligned (env g) ->
  skyline (env (fst (updateEnvironment dt g))) = skyline (env g).
Proof.
  intros Hal. unfold updateEnvironment.
  pose proof (driftAsteroids_skyline (length (asteroids (env g))) 0 g Hal) as E.
  destruct (driftAsteroids _ _ _) as [g1 []]; cbn in *; exact E.
Qed.

Lemma destroyAsteroid_skyline j e : skyline (destroyAsteroid j e) = skyline e.
Proof.
  unfold destroyAsteroid. destruct (asteroids e !! j); [| reflexivity].
  destruct (findIndex _ _); reflexivity.
Qed.

Lemma laserTargets_loop_skyline n i l g :
  skyline (env (laserTargets_loop n i l g)) = skyline (env g).
Proof.
  induction n as [| j IH]; cbn [laserTargets_loop]; [reflexivity |].
  destruct (env_targets (env g) !! j) as [t |]; [| exact IH].
  destruct (V.distLt _ _ _); [| exact IH].
  destruct (_ <=? _)%Z; [| reflexivity].
  rewrite updateScoreDisplay_env. cbn. unfold destroyTarget.
  destruct (_ !! _); reflexivity.
Qed.

Lemma laserAsteroids_loop_skyline n j i l g :
  skyline (env (laserAsteroids_loop n j i l g)) = skyline (env g).
Proof.
  revert j. induction n as [| n IH]; intros j; cbn [laserAsteroids_loop];
    [reflexivity |].
  destruct (asteroids (env g) !! j) as [a |]; [| reflexivity].
  destruct (V.distLt _ _ _); [| apply IH].
  destruct (Qltb _ _); [| reflexivity].
  rewrite updateScoreDisplay_env.
  change (env (addScore 25 (set_env (destroyAsteroid j) ?x)))
    with (destroyAsteroid j (env x)).
  rewrite destroyAsteroid_skyline. reflexivity.
Qed.

Lemma updateLasers_skyline dt g :
  skyline (env (updateLasers dt g)) = skyline (env g).
Proof.
  unfold updateLasers.
  apply (for_down_invariant (fun g' => skyline (env g') = skyline (env g)));
    [| reflexivity].
  intros i s Hs. rewrite <- Hs. unfold updateLaser_at.
  destruct (lasers s !! i) as [l |]; [| reflexivity].
  destruct (V.distGe _ _ _); [reflexivity |].
  rewrite laserAsteroids_loop_skyline, laserTargets_loop_skyline. reflexivity.
Qed.

Lemma env_updateEnemies_skyline dt g :
  skyline (env (env_updateEnemies dt g)) = skyline (env g).
Proof.
  unfold env_updateEnemies.
  apply (for_up_invariant (fun g' => skyline (env g') = skyline (env g)));
    [| reflexivity].
  intros i s Hs. unfold env_updateEnemy_at.
  destruct (env_targets (env s) !! i) as [t |]; [| exact Hs].
  destruct (steerTarget _ _ _ _) as [t' k]. exact Hs.
Qed.

Lemma animate_skyline dt t g :
  aligned (env g) -> skyline (env (animate dt t g)) = skyline (env g).
Proof.
  intros Hal. unfold animate. destruct (isGameOver (gameState g)); [reflexivity |].
  assert (H1 : aligned (env (updateShipPhysics dt t g)))
    by (rewrite updateShipPhysics_env; exact Hal).
  pose proof (updateEnvironment_skyline dt _ H1) as E.
  rewrite updateShipPhysics_env in E.
  destruct (updateEnvironment dt (updateShipPhysics dt t g)) as [g2 o].
  cbn in E. destruct o; [| exact E].
  change (env (render (updateExplosions dt ?x))) with (env x).
  rewrite updateLasers_skyline, env_updateEnemies_skyline. exact E.
Qed.

Lemma step_skyline ev g :
  aligned (env g) /\ skyline (env g) = skyline (env init) ->
  aligned (env (step ev g)) /\ skyline (env (step ev g)) = skyline (env init).
Proof.
  intros [Hal Hs]. split; [apply step_aligned; exact Hal |].
  destruct (input_event_motion ev g) as [(dt & t & ->) | (_ & _ & _ & E & _)].
  - cbn [step]. rewrite animate_skyline by exact Hal. exact Hs.
  - rewrite E. exact Hs.
Qed.

(** What [init] builds, as far as the planets and the Death Star go. *)
Lemma createAsteroid_store cx cy cz r g :
  planets (env (createAsteroid cx cy cz r g)) = planets (env g) /\
  deathStar (env (createAsteroid cx cy cz r g)) = deathStar (env g) /\
  exists p, meshPosition (env (createAsteroid cx cy cz r g)) =
            meshPosition (env g) ++ [p].
Proof. unfold createAsteroid, newMesh. cbn. repeat split. eauto. Qed.

Lemma threePlanets_start :
  threePlanets None []
    (env (createPlanet 200 300 (-800) 80
            (createPlanet 800 (-50) (-1200) 150
               (createPlanet (-500) 100 (-1000) 100 emptyGame)))).
Proof.
  exists (random 0 * 0.005), (random 1 * 0.005), (random 2 * 0.005).
  repeat split.
Qed.

Lemma createAsteroidField_threePlanets cx cy cz r n g :
  (exists ext, threePlanets None ext (env g)) ->
  exists ext, threePlanets None ext (env (createAsteroidField cx cy cz r n g)).
Proof.
  unfold createAsteroidField.
  apply (for_up_invariant
           (fun g' => exists ext, threePlanets None ext (env g'))).
  intros i s (ext & r0 & r1 & r2 & E1 & E2 & E3).
  destruct (createAsteroid_store cx cy cz r s) as (F1 & F2 & p & F3).
  exists (ext ++ [p]), r0, r1, r2. rewrite F1, F2, F3, E1, E2, E3.
  repeat split.
Qed.

Lemma createDeathStar_threePlanets g :
  (exists ext, threePlanets None ext (env g)) ->
  exists m ext,
    threePlanets (Some m) (ext ++ [mkV 0 0 (-2000)]) (env (createDeathStar g)) /\
    m = (3 + length ext)%nat.
Proof.
  intros (ext & r0 & r1 & r2 & E1 & E2 & E3).
  exists (3 + length ext)%nat, ext. split; [| reflexivity].
  exists r0, r1, r2. unfold createDeathStar, newMesh. cbn.
  rewrite E1, E3. repeat split.
Qed.

Lemma createEnemyFighters_threePlanets d ext g :
  threePlanets d ext (env g) -> threePlanets d ext (env (createEnemyFighters g)).
Proof.
  unfold createEnemyFighters.
  apply (for_up_invariant (fun g' => threePlanets d ext (env g'))).
  intros i s Hs. exact Hs.
Qed.

Lemma initUI_threePlanets d ext g :
  threePlanets d ext (env g) -> threePlanets d ext (env (initUI g)).
Proof. intros Hs. exact Hs. Qed.

Lemma init_threePlanets :
  exists m ext, threePlanets (Some m) (ext ++ [mkV 0 0 (-2000)]) (env init) /\
                m = (3 + length ext)%nat.
Proof.
  unfold init. cbv zeta.
  destruct (createDeathStar_threePlanets
              (createAsteroidField 0 0 (-500) 300 50
                 (createPlanet 200 300 (-800) 80
                    (createPlanet 800 (-50) (-1200) 150
                       (createPlanet (-500) 100 (-1000) 100 emptyGame)))))
    as (m & ext & Ht & Em).
  { apply createAsteroidField_threePlanets. exists []. apply threePlanets_start. }
  exists m, ext. split; [| exact Em].
  apply initUI_threePlanets, createEnemyFighters_threePlanets. exact Ht.
Qed.

Lemma threePlanets_skyline m ext e :
  threePlanets (Some m) (ext ++ [mkV 0 0 (-2000)]) e ->
  m = (3 + length ext)%nat ->
  exists r0 r1 r2,
    skyline e =
      ([mkPlanet 0%nat 100 r0; mkPlanet 1%nat 150 r1; mkPlanet 2%nat 80 r2],
       Some m,
       [Some (mkV (-500) 100 (-1000)); Some (mkV 800 (-50) (-1200));
        Some (mkV 200 300 (-800)); Some (mkV 0 0 (-2000))]).
Proof.
  intros (r0 & r1 & r2 & E1 & E2 & E3) Em. exists r0, r1, r2.
  unfold skyline, landmarks. rewrite E1, E2, E3, Em. cbn.
  do 5 f_equal. apply list_lookup_middle. reflexivity.
Qed.

Lemma init_skyline :
  exists r0 r1 r2 m,
    skyline (env init) =
      ([mkPlanet 0%nat 100 r0; mkPlanet 1%nat 150 r1; mkPlanet 2%nat 80 r2],
       Some m,
       [Some (mkV (-500) 100 (-1000)); Some (mkV 800 (-50) (-1200));
        Some (mkV 200 300 (-800)); Some (mkV 0 0 (-2000))]).
Proof.
  destruct init_threePlanets as (m & ext & Ht & Em).
  destruct (threePlanets_skyline m ext _ Ht Em) as (r0 & r1 & r2 & E).
  exists r0, r1, r2, m. exact E.
Qed.

(** X20. The planets and the Death Star stay put.  In every state that can
    be reached from [init], the three planets are where [init] put them,
    with their radii, the Death Star is at (0, 0, -2000), and the collision
    list is the three planets, then asteroids only, then the Death Star with
    radius 300 at the position of its mesh: the goal neither moves nor goes
    away. *)
Theorem planets_and_death_star_stay_put (evs : list Event) :
  let e := env (run evs init) in
  exists m rocks,
    deathStar e = Some m /\
    deref e m = mkV 0 0 (-2000) /\
    map (fun p => (deref e (p_mesh p), p_radius p)) (planets e) =
      [(mkV (-500) 100 (-1000), 100); (mkV 800 (-50) (-1200), 150);
       (mkV 200 300 (-800), 80)] /\
    collisionObjects e =
      [mkCollisionObject 0%nat 0%nat 100 planet;
       mkCollisionObject 1%nat 1%nat 150 planet;
       mkCollisionObject 2%nat 2%nat 80 planet] ++ rocks ++
      [mkCollisionObject m m 300 deathstar] /\
    Forall (fun o => c_type o = asteroid) rocks.
Proof.
  cbv zeta.
  destruct (run_invariant
              (fun g => aligned (env g) /\ skyline (env g) = skyline (env init))
              step_skyline evs init) as [Hal Hs];
    [split; [exact init_aligned | reflexivity] |].
  destruct init_skyline as (r0 & r1 & r2 & m & Es). rewrite Es in Hs.
  set (e := env (run evs init)) in *.
  assert (E1 : planets e = [mkPlanet 0%nat 100 r0; mkPlanet 1%nat 150 r1;
                            mkPlanet 2%nat 80 r2])
    by exact (f_equal (fun c => fst (fst c)) Hs).
  assert (E2 : deathStar e = Some m)
    by exact (f_equal (fun c => snd (fst c)) Hs).
  assert (E3 : map (fun x => meshPosition e !! x) (landmarks e) =
               [Some (mkV (-500) 100 (-1000)); Some (mkV 800 (-50) (-1200));
                Some (mkV 200 300 (-800)); Some (mkV 0 0 (-2000))])
    by exact (f_equal snd Hs).
  unfold landmarks in E3. rewrite E1, E2 in E3. cbn in E3.
  injection E3 as L0 L1 L2 L3.
  exists m, (map asteroidSphere (asteroids e)).
  split; [exact E2 |]. split; [unfold deref; rewrite L3; reflexivity |].
  split; [rewrite E1; cbn; unfold deref; rewrite L0, L1, L2; reflexivity |].
  split.
  - destruct Hal as (Hco & _). rewrite Hco, E1, E2. reflexivity.
  - apply Forall_forall. intros o Ho.
    apply list_elem_of_fmap_1 in Ho. destruct Ho as (a & -> & _). reflexivity.
Qed.

(** ** The asteroid field *)

Lemma inField_deref e e' a :
  deref e' (a_mesh a) = deref e (a_mesh a) -> inField e a -> inField e' a.
Proof. unfold inField. intros ->. auto. Qed.

Lemma inField_bound (q : Vector3) (c s r1 r2 : Q) :
  c * c + s * s == 1 -> 0 <= r1 < 1 -> 0 <= r2 < 1 ->
  vx q == c * (r1 * 300) -> vy q == (r2 - 0.5) * 300 ->
  vz q == -500 + s * (r1 * 300) ->
  V.distGt q fieldCentre 500 = false.
Proof.
  intros Ht H1 H2 Hx Hy Hz. unfold V.distGt. apply orb_false_iff. split.
  - apply Qltb_ge. lra.
  - apply Qltb_ge. unfold V.distanceSq, V.lengthSq, V.sub, fieldCentre. cbn.
    assert (E : (vx q - 0) * (vx q - 0) + (vy q - 0) * (vy q - 0) +
                (vz q - -500) * (vz q - -500) ==
                (r1 * 300) * (r1 * 300) * (c * c + s * s) +
                ((r2 - 0.5) * 300) * ((r2 - 0.5) * 300)).
    { rewrite Hx, Hy, Hz. ring. }
    rewrite E, Ht. nra.
Qed.

Lemma aligned_asteroid e index a :
  aligned e -> asteroids e !! index = Some a ->
  collisionObjects e !! (length (planets e) + index)%nat =
    Some (asteroidSphere a) /\
  (a_mesh a < length (meshPosition e))%nat.
Proof.
  intros (Hco & _ & Hb) Ha.
  assert (Hl : collisionObjects e !! (length (planets e) + index)%nat =
               Some (asteroidSphere a)).
  { rewrite Hco. rewrite lookup_app_r by (rewrite length_map; lia).
    rewrite length_map.
    replace (length (planets e) + index - length (planets e))%nat
      with index by lia.
    rewrite lookup_app_l
      by (rewrite length_map; apply lookup_lt_Some in Ha; exact Ha).
    change (map asteroidSphere (asteroids e)) with
      (asteroidSphere <$> asteroids e).
    rewrite list_lookup_fmap, Ha. reflexivity. }
  split; [exact Hl |].
  rewrite Forall_lookup in Hb. exact (Hb _ _ Hl).
Qed.

Lemma deref_insert_eq e m p :
  (m < length (meshPosition e))%nat ->
  deref (set_meshPosition (<[m := p]>) e) m = p.
Proof.
  intros Hm. unfold deref. cbn. rewrite list_lookup_insert_eq by exact Hm.
  reflexivity.
Qed.

Lemma deref_insert_ne e m p m' :
  m' <> m -> deref (set_meshPosition (<[m := p]>) e) m' = deref e m'.
Proof.
  intros Hm. unfold deref. cbn. rewrite list_lookup_insert_ne by congruence.
  reflexivity.
Qed.

(** One asteroid update: the asteroid ends up in the field, and no other
    mesh is moved. *)
Lemma driftAsteroid_field index g a :
  fairPlatform -> aligned (env g) -> asteroids (env g) !! index = Some a ->
  inField (env (fst (driftAsteroid index g))) a /\
  forall m, m <> a_mesh a ->
    deref (env (fst (driftAsteroid index g))) m = deref (env g) m.
Proof.
  intros [Htrig Hrand] Hal Ha.
  destruct (aligned_asteroid _ _ _ Hal Ha) as [Hl Hm].
  unfold driftAsteroid. rewrite Ha.
  cbn [env set_env planets set_meshPosition collisionObjects]. rewrite Hl.
  destruct (V.distGt _ _ _) eqn:Hd; cbn [fst env set_env set_randCalls].
  - split.
    + unfold inField.
      change (deref (set_meshPosition ?f (set_collisionObjects ?h ?e)) ?m)
        with (deref (set_meshPosition f e) m).
      rewrite deref_insert_eq by (cbn; rewrite length_insert; exact Hm).
      eapply inField_bound; [apply Htrig | apply Hrand | apply Hrand | ..];
        cbn; reflexivity.
    + intros m Hne.
      change (deref (set_meshPosition ?f (set_collisionObjects ?h ?e)) ?m)
        with (deref (set_meshPosition f e) m).
      rewrite !deref_insert_ne by exact Hne. reflexivity.
  - split.
    + unfold inField.
      change (deref (set_collisionObjects ?h ?e) ?m) with (deref e m).
      rewrite deref_insert_eq by exact Hm. exact Hd.
    + intros m Hne.
      change (deref (set_collisionObjects ?h ?e) ?m) with (deref e m).
      rewrite deref_insert_ne by exact Hne. reflexivity.
Qed.

Lemma aligned_NoDup_asteroids e :
  aligned e -> NoDup (map a_mesh (asteroids e)).
Proof.
  intros Hal. pose proof (aligned_meshes e Hal) as Em.
  destruct Hal as (_ & Hnd & _). rewrite Em in Hnd.
  apply NoDup_app in Hnd. destruct Hnd as (_ & _ & Hnd).
  apply NoDup_app in Hnd. apply Hnd.
Qed.

Lemma driftAsteroids_field n index g :
  fairPlatform -> aligned (env g) ->
  forall i a, asteroids (env g) !! i = Some a ->
    ((i < index)%nat ->
       deref (env (fst (driftAsteroids n index g))) (a_mesh a) =
       deref (env g) (a_mesh a)) /\
    ((index <= i < index + n)%nat ->
       inField (env (fst (driftAsteroids n index g))) a).
Proof.
  intros Hfair. revert index g.
  induction n as [| n IH]; intros index g Hal i a Hi; cbn [driftAsteroids].
  - split; [reflexivity | lia].
  - destruct (driftAsteroid_aligned index g Hal) as [E1 E2].
    pose proof (aligned_hazards _ _ E2 Hal) as Hal1.
    assert (Ea : asteroids (env (fst (driftAsteroid index g))) =
                 asteroids (env g))
      by exact (f_equal (fun c => snd (fst (fst (fst c)))) E2).
    pose proof (aligned_NoDup_asteroids _ Hal) as Hnd.
    destruct (asteroids (env g) !! index) as [b |] eqn:Hb.
    + destruct (driftAsteroid_field index g b Hfair Hal Hb) as [F1 F2].
      destruct (driftAsteroid index g) as [g1 o]. cbn [fst snd] in *. subst o.
      destruct (IH (S index) g1 Hal1 i a) as [I1 I2];
        [rewrite Ea; exact Hi |].
      destruct (Nat.eq_dec i index) as [-> | Hne].
      * assert (a = b) as -> by congruence.
        split; [lia |]. intros _.
        apply (inField_deref (env g1)); [apply I1; lia | exact F1].
      * assert (Hm : a_mesh a <> a_mesh b).
        { intros Em. apply Hne.
          apply (NoDup_lookup _ i index (a_mesh a) Hnd).
          - change (map a_mesh (asteroids (env g))) with
              (a_mesh <$> asteroids (env g)).
            rewrite list_lookup_fmap, Hi. reflexivity.
          - change (map a_mesh (asteroids (env g))) with
              (a_mesh <$> asteroids (env g)).
            rewrite list_lookup_fmap, Hb. cbn. rewrite Em. reflexivity. }
        split.
        -- intros Hlt. rewrite I1 by lia. apply F2. exact Hm.
        -- intros Hr. apply I2. lia.
    + assert (E0 : driftAsteroid index g = (g, Normal))
        by (unfold driftAsteroid; rewrite Hb; reflexivity).
      rewrite E0. destruct (IH (S index) g Hal i a Hi) as [I1 I2].
      assert (Hlt : (i < index)%nat).
      { apply lookup_lt_Some in Hi. apply lookup_ge_None in Hb. lia. }
      split; [intros _; apply I1; lia | lia].
Qed.

(** X21. Asteroids stay in their field.  When the sine and the cosine of the
    platform satisfy the Pythagorean identity and [Math.random] returns
    numbers from 0 up to 1, then after [updateEnvironment], on a collision
    list that is in order, no asteroid is farther than 500 from the centre
    (0, 0, -500) of the field: one that drifted out has been put back within
    it. *)
Theorem asteroids_stay_in_the_field (deltaTime : Q) (g : Game) :
  fairPlatform -> aligned (env g) ->
  Forall (fun a =>
            V.distGt (deref (env (fst (updateEnvironment deltaTime g)))
                            (a_mesh a)) (mkV 0 0 (-500)) 500 = false)
         (asteroids (env (fst (updateEnvironment deltaTime g)))).
Proof.
  intros Hfair Hal. unfold updateEnvironment.
  pose proof (driftAsteroids_field (length (asteroids (env g))) 0 g Hfair Hal)
    as Hf.
  destruct (driftAsteroids_aligned (length (asteroids (env g))) 0 g Hal)
    as [E1 E2].
  assert (Ea : asteroids (env (fst (driftAsteroids
                 (length (asteroids (env g))) 0 g))) = asteroids (env g))
    by exact (f_equal (fun c => snd (fst (fst (fst c)))) E2).
  destruct (driftAsteroids _ _ _) as [g1 o]. cbn [fst snd] in *. subst o.
  cbn [fst env set_env].
  change (asteroids (env_updateExplosions deltaTime (env g1)))
    with (asteroids (env g1)).
  rewrite Ea. apply Forall_lookup. intros i a Hi.
  change (deref (env_updateExplosions deltaTime (env g1)) (a_mesh a))
    with (deref (env g1) (a_mesh a)).
  destruct (Hf i a Hi) as [_ Hin]. apply Hin.
  apply lookup_lt_Some in Hi. lia.
Qed.
Lemma rocksIn_ext e e' :
  asteroids e' = asteroids e ->
  (forall a, a ∈ asteroids e -> deref e' (a_mesh a) = deref e (a_mesh a)) ->
  rocksIn e -> rocksIn e'.
Proof.
  unfold rocksIn. intros Ea Hd Hr. rewrite Ea.
  apply Forall_forall. intros a Ha. rewrite Forall_forall in Hr.
  apply (inField_deref e); [apply Hd; exact Ha | apply Hr; exact Ha].
Qed.

Lemma rocksIn_store e e' :
  asteroids e' = asteroids e -> meshPosition e' = meshPosition e ->
  rocksIn e -> rocksIn e'.
Proof.
  intros Ea Em. apply rocksIn_ext; [exact Ea |].
  intros a _. unfold deref. rewrite Em. reflexivity.
Qed.

Lemma destroyAsteroid_rocksIn j e : rocksIn e -> rocksIn (destroyAsteroid j e).
Proof.
  intros Hr. unfold destroyAsteroid.
  destruct (asteroids e !! j) as [a |]; [| exact Hr].
  assert (H1 : rocksIn (set_asteroids (delete j) e)).
  { unfold rocksIn in *. cbn. apply Forall_delete. exact Hr. }
  destruct (findIndex _ _); exact H1.
Qed.

Lemma laserTargets_loop_store n i l g :
  asteroids (env (laserTargets_loop n i l g)) = asteroids (env g) /\
  meshPosition (env (laserTargets_loop n i l g)) = meshPosition (env g).
Proof.
  induction n as [| j IH]; cbn [laserTargets_loop]; [split; reflexivity |].
  destruct (env_targets (env g) !! j) as [t |]; [| exact IH].
  destruct (V.distLt _ _ _); [| exact IH].
  destruct (_ <=? _)%Z; [| split; reflexivity].
  rewrite updateScoreDisplay_env. cbn. unfold destroyTarget.
  destruct (_ !! _); split; reflexivity.
Qed.

Lemma laserAsteroids_loop_rocksIn n j i l g :
  rocksIn (env g) -> rocksIn (env (laserAsteroids_loop n j i l g)).
Proof.
  intros Hr. revert j. induction n as [| n IH]; intros j;
    cbn [laserAsteroids_loop]; [exact Hr |].
  destruct (asteroids (env g) !! j) as [a |]; [| exact Hr].
  destruct (V.distLt _ _ _); [| apply IH].
  destruct (Qltb _ _); [| exact Hr].
  rewrite updateScoreDisplay_env.
  change (env (addScore 25 (set_env (destroyAsteroid j) ?x)))
    with (destroyAsteroid j (env x)).
  apply destroyAsteroid_rocksIn. exact Hr.
Qed.

Lemma updateLasers_rocksIn dt g :
  rocksIn (env g) -> rocksIn (env (updateLasers dt g)).
Proof.
  unfold updateLasers. apply (for_down_invariant (fun g' => rocksIn (env g'))).
  intros i s Hs. unfold updateLaser_at.
  destruct (lasers s !! i) as [l |]; [| exact Hs].
  destruct (V.distGe _ _ _); [exact Hs |].
  apply laserAsteroids_loop_rocksIn.
  match goal with |- rocksIn (env (laserTargets_loop ?n ?i ?l ?g0)) =>
    destruct (laserTargets_loop_store n i l g0) as [E1 E2] end.
  eapply rocksIn_store; [exact E1 | exact E2 | exact Hs].
Qed.

Lemma env_updateEnemies_store dt g :
  asteroids (env (env_updateEnemies dt g)) = asteroids (env g) /\
  meshPosition (env (env_updateEnemies dt g)) = meshPosition (env g).
Proof.
  unfold env_updateEnemies.
  apply (for_up_invariant (fun g' =>
    asteroids (env g') = asteroids (env g) /\
    meshPosition (env g') = meshPosition (env g))); [| split; reflexivity].
  intros i s Hs. unfold env_updateEnemy_at.
  destruct (env_targets (env s) !! i) as [t |]; [| exact Hs].
  destruct (steerTarget _ _ _ _) as [t' k]. exact Hs.
Qed.

Lemma animate_rocksIn dt t g :
  fairPlatform -> aligned (env g) -> rocksIn (env g) ->
  rocksIn (env (animate dt t g)).
Proof.
  intros Hfair Hal Hr. unfold animate.
  destruct (isGameOver (gameState g)); [exact Hr |].
  assert (H1 : aligned (env (updateShipPhysics dt t g)))
    by (rewrite updateShipPhysics_env; exact Hal).
  pose proof (asteroids_stay_in_the_field dt _ Hfair H1) as Hf.
  destruct (updateEnvironment_aligned dt _ H1) as [E1 _].
  destruct (updateEnvironment dt (updateShipPhysics dt t g)) as [g2 o].
  cbn [fst snd] in *. subst o.
  change (env (render (updateExplosions dt ?x))) with (env x).
  apply updateLasers_rocksIn.
  destruct (env_updateEnemies_store dt g2) as [E2 E3].
  eapply rocksIn_store; [exact E2 | exact E3 | exact Hf].
Qed.

Lemma step_rocksIn ev g :
  fairPlatform ->
  aligned (env g) /\ rocksIn (env g) ->
  aligned (env (step ev g)) /\ rocksIn (env (step ev g)).
Proof.
  intros Hfair [Hal Hr]. split; [apply step_aligned; exact Hal |].
  destruct (input_event_motion ev g) as [(dt & t & ->) | (_ & _ & _ & E & _)].
  - apply animate_rocksIn; assumption.
  - rewrite E. exact Hr.
Qed.

(** Building the field. *)
Lemma aligned_asteroid_bound e a :
  aligned e -> a ∈ asteroids e -> (a_mesh a < length (meshPosition e))%nat.
Proof.
  intros Hal Ha. apply list_elem_of_lookup_1 in Ha. destruct Ha as [i Hi].
  apply (aligned_asteroid e i a Hal Hi).
Qed.

Lemma deref_app e e' ext m :
  meshPosition e' = meshPosition e ++ ext ->
  (m < length (meshPosition e))%nat -> deref e' m = deref e m.
Proof.
  intros E Hm. unfold deref. rewrite E, lookup_app_l by exact Hm. reflexivity.
Qed.

Lemma createAsteroid_rocksIn g :
  fairPlatform ->
  aligned (env g) /\ deathStar (env g) = None /\ rocksIn (env g) ->
  aligned (env (createAsteroid 0 0 (-500) 300 g)) /\
  deathStar (env (createAsteroid 0 0 (-500) 300 g)) = None /\
  rocksIn (env (createAsteroid 0 0 (-500) 300 g)).
Proof.
  intros [Htrig Hrand] (Hal & Hd & Hr).
  destruct (createAsteroid_aligned 0 0 (-500) 300 g (conj Hal Hd)) as [A1 A2].
  split; [exact A1 |]. split; [exact A2 |].
  unfold rocksIn, createAsteroid, newMesh in *.
  cbn [env set_env asteroids set_asteroids set_collisionObjects
       set_meshPosition set_randCalls fst snd].
  apply Forall_app. split.
  - apply Forall_forall. intros a Ha. rewrite Forall_forall in Hr.
    apply (inField_deref (env g)); [| apply Hr; exact Ha].
    apply (deref_app _ _ [mkV (0 + cos (random (randCalls g) * PI * 2) *
                                     (random (randCalls g + 1) * 300))
                              (0 + (random (randCalls g + 2) - 0.5) * 300)
                              (-500 + sin (random (randCalls g) * PI * 2) *
                                        (random (randCalls g + 1) * 300))]);
      [reflexivity | apply aligned_asteroid_bound; assumption].
  - constructor; [| constructor]. unfold inField, deref. cbn.
    rewrite list_lookup_middle by reflexivity. cbn.
    apply (inField_bound _ (cos (random (randCalls g) * PI * 2))
             (sin (random (randCalls g) * PI * 2))
             (random (randCalls g + 1)) (random (randCalls g + 2)));
      [apply Htrig | apply Hrand | apply Hrand | ..]; cbn [vx vy vz]; ring.
Qed.

Lemma createAsteroidField_rocksIn n g :
  fairPlatform ->
  aligned (env g) /\ deathStar (env g) = None /\ rocksIn (env g) ->
  aligned (env (createAsteroidField 0 0 (-500) 300 n g)) /\
  deathStar (env (createAsteroidField 0 0 (-500) 300 n g)) = None /\
  rocksIn (env (createAsteroidField 0 0 (-500) 300 n g)).
Proof.
  intros Hfair. unfold createAsteroidField.
  apply (for_up_invariant (fun g' =>
    aligned (env g') /\ deathStar (env g') = None /\ rocksIn (env g'))).
  intros i s. apply createAsteroid_rocksIn. exact Hfair.
Qed.

Lemma createPlanet_rocksIn x y z r g :
  aligned (env g) /\ asteroids (env g) = [] /\ deathStar (env g) = None ->
  aligned (env (createPlanet x y z r g)) /\
  deathStar (env (createPlanet x y z r g)) = None /\
  rocksIn (env (createPlanet x y z r g)).
Proof.
  intros Hb. destruct (createPlanet_bare x y z r g Hb) as (H1 & H2 & H3).
  split; [exact H1 |]. split; [exact H3 |].
  unfold rocksIn. rewrite H2. constructor.
Qed.

Lemma createDeathStar_rocksIn g :
  aligned (env g) /\ deathStar (env g) = None /\ rocksIn (env g) ->
  rocksIn (env (createDeathStar g)).
Proof.
  intros (Hal & Hd & Hr).
  apply (rocksIn_ext (env g)); [reflexivity | | exact Hr].
  intros a Ha. apply (deref_app _ _ [mkV 0 0 (-2000)]); [reflexivity |].
  apply aligned_asteroid_bound; assumption.
Qed.

Lemma createEnemyFighters_rocksIn g :
  rocksIn (env g) -> rocksIn (env (createEnemyFighters g)).
Proof.
  unfold createEnemyFighters.
  apply (for_up_invariant (fun g' => rocksIn (env g'))).
  intros i s Hs. exact Hs.
Qed.

Lemma initUI_rocksIn g : rocksIn (env g) -> rocksIn (env (initUI g)).
Proof. intros Hr. exact Hr. Qed.

Lemma init_rocksIn : fairPlatform -> rocksIn (env init).
Proof.
  intros Hfair. unfold init. cbv zeta.
  apply initUI_rocksIn, createEnemyFighters_rocksIn, createDeathStar_rocksIn,
    createAsteroidField_rocksIn; [exact Hfair |].
  apply createPlanet_rocksIn, createPlanet_bare, createPlanet_bare.
  split; [| split; reflexivity]. repeat split; cbn; constructor.
Qed.

(** X22. The asteroids of a game never leave their field.  On a platform
    whose sine and cosine satisfy the Pythagorean identity and whose
    [Math.random] returns numbers from 0 up to 1, in every state that can be
    reached from [init] every asteroid is within 500 of (0, 0, -500). *)
Theorem asteroids_never_leave_the_field (evs : list Event) :
  fairPlatform ->
  Forall (fun a => V.distGt (deref (env (run evs init)) (a_mesh a))
                            (mkV 0 0 (-500)) 500 = false)
         (asteroids (env (run evs init))).
Proof.
  intros Hfair.
  apply (run_invariant (fun g => aligned (env g) /\ rocksIn (env g))
           (fun ev g => step_rocksIn ev g Hfair) evs init).
  split; [exact init_aligned | apply init_rocksIn; exact Hfair].
Qed.

(** ** The fighters in flight *)

Lemma for_up_indexed {St : Type} (I : nat -> St -> Prop)
    (body : nat -> St -> St) :
  (forall i s, I i s -> I (S i) (body i s)) ->
  forall n start s, I start s -> I (start + n)%nat (for_up n start body s).
Proof.
  intros Hb n. induction n as [| n IH]; intros start s Hs; cbn.
  - rewrite Nat.add_0_r. exact Hs.
  - replace (start + S n)%nat with (S start + n)%nat by lia.
    apply IH, Hb, Hs.
Qed.

Lemma steerTarget_flownFrom dt p k t : flownFrom (fst (steerTarget dt p k t)) t.
Proof. unfold steerTarget, flownFrom. cbn. repeat split. Qed.

Lemma env_updateEnemies_flight dt g :
  Forall2 flownFrom (env_targets (env (env_updateEnemies dt g)))
                    (env_targets (env g)).
Proof.
  unfold env_updateEnemies.
  pose (I := fun (k : nat) (g' : Game) =>
    length (env_targets (env g')) = length (env_targets (env g)) /\
    (forall i t' t, (i < k)%nat -> env_targets (env g') !! i = Some t' ->
       env_targets (env g) !! i = Some t -> flownFrom t' t) /\
    (forall i, (k <= i)%nat ->
       env_targets (env g') !! i = env_targets (env g) !! i)).
  assert (HI : I (0 + length (env_targets (env g)))%nat
                 (for_up (length (env_targets (env g))) 0
                    (env_updateEnemy_at dt) g)).
  { apply (for_up_indexed I).
    - intros k s (L & Hlt & Hge). unfold I, env_updateEnemy_at.
      destruct (env_targets (env s) !! k) as [t0 |] eqn:Hk.
      + pose proof (steerTarget_flownFrom dt (position (shipState s))
                      (randCalls s) t0) as Hf.
        destruct (steerTarget _ _ _ _) as [t' r]. cbn [fst] in Hf.
        cbn [env set_env set_randCalls env_targets set_env_targets].
        split; [rewrite length_insert; exact L |]. split.
        * intros i x y Hi Hx Hy.
          destruct (Nat.eq_dec i k) as [-> | Hne].
          -- rewrite list_lookup_insert_eq in Hx
               by (apply lookup_lt_Some in Hk; exact Hk).
             injection Hx as <-.
             rewrite (Hge k (Nat.le_refl k)) in Hk.
             assert (y = t0) as -> by congruence. exact Hf.
          -- rewrite list_lookup_insert_ne in Hx by congruence.
             apply (Hlt i x y); [lia | exact Hx | exact Hy].
        * intros i Hi. rewrite list_lookup_insert_ne by lia.
          apply Hge. lia.
      + split; [exact L |]. split.
        * intros i x y Hi Hx Hy.
          destruct (Nat.eq_dec i k) as [-> | Hne]; [congruence |].
          apply (Hlt i x y); [lia | exact Hx | exact Hy].
        * intros i Hi. apply Hge. lia.
    - unfold I. split; [reflexivity |]. split; [intros; lia | reflexivity]. }
  destruct HI as (L & Hlt & _).
  apply Forall2_same_length_lookup_2; [exact L |].
  intros i x y Hx Hy. apply (Hlt i x y); [| exact Hx | exact Hy].
  apply lookup_lt_Some in Hy. lia.
Qed.

(** X23. The fighters fly and never fire.  [EnvironmentManager.updateEnemies],
    the one a frame calls, moves every fighter by its velocity and spins it,
    keeps the fighters, their order, their health and their radius, and
    touches nothing else but the random counter: no projectile is created,
    the ship, the score, the hazards and the interface stay as they are. *)
Theorem fighters_fly_and_never_fire (deltaTime : Q) (g : Game) :
  Forall2 (fun t' t =>
             t_position t' = V.add (t_position t) (t_velocity t) /\
             t_health t' = t_health t /\ t_radius t' = t_radius t)
          (env_targets (env (env_updateEnemies deltaTime g)))
          (env_targets (env g)) /\
  lasers (env_updateEnemies deltaTime g) = lasers g /\
  shipState (env_updateEnemies deltaTime g) = shipState g /\
  gameState (env_updateEnemies deltaTime g) = gameState g /\
  ui (env_updateEnemies deltaTime g) = ui g /\
  explosions (env_updateEnemies deltaTime g) = explosions g /\
  planets (env (env_updateEnemies deltaTime g)) = planets (env g) /\
  asteroids (env (env_updateEnemies deltaTime g)) = asteroids (env g) /\
  collisionObjects (env (env_updateEnemies deltaTime g)) =
    collisionObjects (env g) /\
  meshPosition (env (env_updateEnemies deltaTime g)) = meshPosition (env g).
Proof.
  split.
  { eapply Forall2_impl; [apply env_updateEnemies_flight |].
    intros t' t (E1 & _ & E3 & E4 & _). auto. }
  destruct (env_updateEnemies_cabin deltaTime g) as (C & _).
  unfold cabin in C. injection C as C1 C2 _ _ C5 C6 _ C8 _.
  pose proof (env_updateEnemies_hazards deltaTime g) as Hh.
  unfold hazards in Hh. injection Hh as H1 H2 H3 _ _.
  destruct (env_updateEnemies_store deltaTime g) as [_ Em].
  repeat split; assumption.
Qed.

(** ** The speed display *)

Lemma round_bounds (x : Q) (lo hi : Z) :
  inject_Z lo <= x + 0.5 -> x + 0.5 < inject_Z (hi + 1) ->
  (lo <= round x <= hi)%Z.
Proof.
  intros Hlo Hhi. unfold round. split.
  - rewrite <- (Qfloor_Z lo). apply Qfloor_resp_le. exact Hlo.
  - assert (Hlt : inject_Z (Qfloor (x + 0.5)) < inject_Z (hi + 1)).
    { eapply Qle_lt_trans; [apply Qfloor_le | exact Hhi]. }
    rewrite <- Zlt_Qlt in Hlt. lia.
Qed.

(** X24. The speed meter stays inside its frame.  With the interface built
    and the speed within its limits, the fill of the meter is between 0 and
    50 percent wide and lies within the meter; forward it starts at the
    middle, in reverse it ends there; the number shown is between 0 and 100;
    and colour and direction are those of forward exactly when the speed is
    not negative.  Before the interface is built nothing is written. *)
Theorem speed_meter_stays_in_its_frame (g : Game) :
  speedInRange g ->
  (gameOverScreen (ui g) = false -> updateSpeedDisplay g = None) /\
  (gameOverScreen (ui g) = true ->
   exists m, updateSpeedDisplay g = Some m /\
     0 <= sm_width m <= 50 /\ 0 <= sm_left m /\
     sm_left m + sm_width m <= 100 /\
     (0 <= sm_value m <= 100)%Z /\
     (0 <= currentSpeed (shipState g) ->
        sm_left m = 50 /\ sm_color m = "#00ff00"%string /\
        sm_direction m = "FORWARD"%string) /\
     (currentSpeed (shipState g) < 0 ->
        sm_left m + sm_width m == 50 /\ sm_color m = "#ff3300"%string /\
        sm_direction m = "REVERSE"%string)).
Proof.
  intros [Hlo Hhi]. unfold updateSpeedDisplay. split.
  - intros ->. reflexivity.
  - intros ->. cbn [negb]. eexists. split; [reflexivity |].
    cbn [sm_width sm_left sm_color sm_value sm_direction].
    unfold maxReverseSpeed, maxForwardSpeed in *.
    set (v := currentSpeed (shipState g)) in *.
    assert (Ep : v / 1.5 == v * (2 # 3))
      by (unfold Qdiv; change (/ 1.5) with (10 # 15); lra).
    assert (Hv : (-20 <= round (v / 1.5 * 100) <= 100)%Z).
    { apply round_bounds; rewrite Ep.
      - change (inject_Z (-20)) with (-20). lra.
      - change (inject_Z (100 + 1)) with 101. lra. }
    destruct (Qle_bool 0 (v / 1.5)) eqn:E.
    + apply Qle_bool_iff in E. rewrite Ep in E.
      repeat split; try (rewrite ?Ep; lra); try lia.
    + assert (Hn : v / 1.5 < 0).
      { apply Qnot_le_lt. intros Hle. apply Qle_bool_iff in Hle. congruence. }
      assert (Ea : Qabs (v / 1.5) == - (v / 1.5))
        by (apply Qabs_neg; lra).
      rewrite Ep in Hn.
      repeat split; try (rewrite ?Ea, ?Ep; lra); try lia.
Qed.

(** ** The music *)

Lemma audio_step_inTune ev p : Audio.inTune p -> Audio.inTune (Audio.step ev p).
Proof.
  destruct p as [[[[] |] []] []]; destruct ev; unfold Audio.inTune; cbn;
    intros [H1 H2]; try discriminate; split; reflexivity.
Qed.

(** X25. The music follows the mute flag.  After any sequence of clicks on
    the music icon and completions of the load, the icon shows the muted
    loudspeaker exactly when [isMusicMuted] is set, and the music, once it is
    loaded, plays exactly when it is not muted.  Until it is loaded a click
    changes nothing: the flag stays unset. *)
Theorem music_follows_the_mute_flag (evs : list Audio.Event) :
  let p := Audio.run evs Audio.start in
  Audio.iconMuted p = Audio.isMusicMuted (Audio.manager p) /\
  match Audio.music (Audio.manager p) with
  | Some playing => playing = negb (Audio.isMusicMuted (Audio.manager p))
  | None => Audio.isMusicMuted (Audio.manager p) = false
  end.
Proof.
  cbv zeta. change (Audio.inTune (Audio.run evs Audio.start)).
  assert (Hrun : forall p, Audio.inTune p -> Audio.inTune (Audio.run evs p)).
  { induction evs as [| ev evs IH]; intros p Hp; [exact Hp |].
    cbn. apply IH, audio_step_inTune, Hp. }
  apply Hrun. split; reflexivity.
Qed.

(** ** The bank of the ship *)

Lemma updateTilt_bank k speed r :
  -0.5 <= ez r <= 0.5 -> -0.5 <= ez (updateTilt k speed r) <= 0.5.
Proof.
  intros [Hlo Hhi]. unfold updateTilt. cbn [ez].
  pose proof (Qmin'_spec (ez r + 0.01) 0.5) as (Hm1 & Hm2 & Hm3).
  pose proof (Qmax'_spec (ez r - 0.01) (- (0.5))) as (HM1 & HM2 & HM3).
  destruct (k_a k || k_ArrowLeft k).
  - revert Hm1 Hm2 Hm3. generalize (Qmin' (ez r + 0.01) 0.5).
    intros q Hm1 Hm2 Hm3. destruct Hm3 as [Hm3 | Hm3]; split; lra.
  - destruct (k_d k || k_ArrowRight k).
    + revert HM1 HM2 HM3. generalize (Qmax' (ez r - 0.01) (- (0.5))).
      intros q HM1 HM2 HM3. destruct HM3 as [HM3 | HM3]; split; lra.
    + split; lra.
Qed.

Lemma checks_xw_rotation g :
  xw_rotation (xwing (checkEnemyLasers (checkCollisions g))) =
  xw_rotation (xwing g).
Proof.
  assert (Ec : xw_rotation (xwing (checkCollisions g)) = xw_rotation (xwing g)).
  { destruct (checkCollisions_cases g) as [E' | (obj & _ & _ & _ & E')];
      rewrite E'; [reflexivity |].
    unfold handleCollision.
    destruct (c_type obj); rewrite gameOver_xw_rotation; reflexivity. }
  destruct (checkEnemyLasers_cases (checkCollisions g))
    as [E | (i & l & _ & _ & _ & _ & E)]; rewrite E; [exact Ec |].
  unfold hitShip. cbv zeta.
  match goal with |- context [if ?c then _ else _] => destruct c end;
    [rewrite gameOver_xw_rotation |]; exact Ec.
Qed.

Lemma checks_barrelRoll g :
  barrelRoll (shipState (checkEnemyLasers (checkCollisions g))) =
  barrelRoll (shipState g).
Proof.
  destruct (checkEnemyLasers_shipState (checkCollisions g)) as (h & b & E).
  destruct (checkCollisions_shipState g) as (h' & E').
  rewrite E, E'. reflexivity.
Qed.

Lemma beforeChecks_banked t g : banked g -> banked (beforeChecks t g).
Proof.
  intros Hb. unfold beforeChecks.
  set (g2 := if k_f (keys (moveShip g)) then fireLaser t (moveShip g)
             else moveShip g).
  assert (E2 : xw_rotation (xwing g2) = xw_rotation (xwing (moveShip g)) /\
               barrelRoll (shipState g2) = barrelRoll (shipState g)).
  { unfold g2. destruct (k_f _); [| split; reflexivity].
    unfold fireLaser. destruct (Qltb _ _); split; reflexivity. }
  destruct E2 as [Ex Eb]. unfold banked, updateBarrelRoll. rewrite Eb.
  destruct (br_active (barrelRoll (shipState g))) eqn:Ha.
  - destruct (Qle_bool _ _); cbn; [intros _; lra | discriminate].
  - intros _. rewrite Ex. unfold moveShip. cbn. rewrite Ha.
    apply updateTilt_bank. cbn. apply Hb. exact Ha.
Qed.

Lemma animate_banked dt t g : banked g -> banked (animate dt t g).
Proof.
  intros Hb. unfold animate. destruct (isGameOver (gameState g)); [exact Hb |].
  pose proof (rest_of_frame_pilot dt (updateShipPhysics dt t g)) as Ep.
  set (g' := match updateEnvironment dt (updateShipPhysics dt t g) with
             | (g2, Thrown) => g2 | (g2, Normal) => _ end) in *.
  assert (Ex : xw_rotation (xwing g') =
               xw_rotation (xwing (updateShipPhysics dt t g)))
    by exact (f_equal snd Ep).
  assert (Es : shipState g' = shipState (updateShipPhysics dt t g))
    by exact (f_equal (fun c => fst (fst (fst (fst (fst (fst c)))))) Ep).
  unfold banked. rewrite Ex, Es. unfold updateShipPhysics.
  fold (beforeChecks t g). rewrite checks_xw_rotation, checks_barrelRoll.
  apply beforeChecks_banked. exact Hb.
Qed.

Lemma step_banked ev g : banked g -> banked (step ev g).
Proof.
  intros Hb. destruct ev as [dt t | k t | k | k b | t |]; cbn.
  - apply animate_banked. exact Hb.
  - unfold onKeyDown. destruct k; try exact Hb.
    + cbn. destruct (br_active _) eqn:Ha; [exact Hb | discriminate].
    + cbn. destruct (br_active _) eqn:Ha; [exact Hb | discriminate].
    + unfold fireLaser. destruct (Qltb _ _); exact Hb.
  - exact Hb.
  - exact Hb.
  - unfold fireLaser. destruct (Qltb _ _); exact Hb.
  - unfold onGraceTimeout. destruct (graceTimers g); exact Hb.
Qed.

(** X26. Outside a barrel roll the ship banks half a radian at most.  In
    every state that can be reached from [init] in which no roll is active,
    the roll angle of the mesh lies between -0.5 and 0.5: the tilt of a turn
    is clamped, and a completed roll leaves the mesh level. *)
Theorem bank_is_limited_outside_a_roll (evs : list Event) :
  br_active (barrelRoll (shipState (run evs init))) = false ->
  -0.5 <= ez (xw_rotation (xwing (run evs init))) <= 0.5.
Proof.
  apply (run_invariant banked step_banked evs init).
  intros _. pose proof init_cockpit as E.
  assert (E4 : xwing init = xwing emptyGame)
    by exact (f_equal (fun c => snd (fst (fst (fst (fst c))))) E).
  rewrite E4. cbn. lra.
Qed.

(** ** Projectiles in flight *)

Lemma inRange_expires (deltaTime : Q) (l : Laser) :
  inRange deltaTime l = false <-> expires deltaTime l.
Proof.
  rewrite <- distGe_expires. unfold V.distGe, inRange. cbn.
  rewrite negb_true_iff. reflexivity.
Qed.

Lemma inRange_within (deltaTime : Q) (l : Laser) :
  inRange deltaTime l = true ->
  within (l_position (advanceLaser deltaTime l))
         (l_startPosition (advanceLaser deltaTime l))
         (l_maxDistance (advanceLaser deltaTime l)).
Proof. intros E. apply distLt_within. exact E. Qed.

Lemma laserTargets_loop_miss (n i : nat) (laser : Laser) (g : Game) :
  Forall (fun t => ~ within (l_position laser) (t_position t) (t_radius t))
         (env_targets (env g)) ->
  laserTargets_loop n i laser g = g.
Proof.
  intros Hall. induction n as [| j IH]; cbn [laserTargets_loop]; [reflexivity |].
  destruct (env_targets (env g) !! j) as [t |] eqn:Ht; [| exact IH].
  rewrite Forall_lookup in Hall. specialize (Hall j t Ht).
  apply distLt_not_within in Hall. rewrite Hall. exact IH.
Qed.

Lemma laserAsteroids_loop_miss (n j i : nat) (laser : Laser) (g : Game) :
  Forall (fun a => ~ within (l_position laser) (deref (env g) (a_mesh a))
                      (a_radius a))
         (asteroids (env g)) ->
  laserAsteroids_loop n j i laser g = g.
Proof.
  intros Hall. revert j.
  induction n as [| n IH]; intros j; cbn [laserAsteroids_loop]; [reflexivity |].
  destruct (asteroids (env g) !! j) as [a |] eqn:Ha; [| reflexivity].
  rewrite Forall_lookup in Hall. specialize (Hall j a Ha).
  apply distLt_not_within in Hall. rewrite Hall. apply IH.
Qed.

(** The loop body on a projectile that neither expires nor hits: it is moved
    and nothing else happens, whatever else is in the world. *)
Lemma updateLaser_at_no_hit (deltaTime : Q) (i : nat) (g : Game) (l : Laser) :
  lasers g !! i = Some l -> ~ expires deltaTime l ->
  hitsNothing deltaTime g l ->
  updateLaser_at deltaTime i g =
    set_lasers (fun ls => <[i := advanceLaser deltaTime l]> ls) g.
Proof.
  intros Hl Hexp [Ht Ha]. unfold updateLaser_at. rewrite Hl.
  destruct (V.distGe _ _ _) eqn:E.
  - apply distGe_expires in E. contradiction.
  - cbv zeta. rewrite laserTargets_loop_miss by exact Ht.
    rewrite laserAsteroids_loop_miss by exact Ha. reflexivity.
Qed.

Lemma for_down_indexed {St : Type} (I : nat -> St -> Prop)
    (body : nat -> St -> St) :
  (forall i s, I (S i) s -> I i (body i s)) ->
  forall n s, I n s -> I O (for_down n body s).
Proof.
  intros Hbody n. induction n as [| n IH]; intros s Hs; cbn; [exact Hs |].
  apply IH, Hbody, Hs.
Qed.

Lemma delete_length_app {A : Type} (l1 l2 : list A) :
  delete (length l1) (l1 ++ l2) = l1 ++ delete O l2.
Proof. induction l1 as [| x l1 IH]; cbn; [reflexivity | f_equal; exact IH]. Qed.

Lemma insert_length_app {A : Type} (l1 l2 : list A) (x y : A) :
  <[length l1 := y]> (l1 ++ x :: l2) = l1 ++ y :: l2.
Proof. induction l1 as [| z l1 IH]; cbn; [reflexivity | f_equal; exact IH]. Qed.

Lemma length_succ_snoc {A : Type} (l : list A) (i : nat) :
  length l = S i -> exists l' x, l = l' ++ [x] /\ length l' = i.
Proof.
  intros E. destruct l as [| y l] using rev_ind; [discriminate |].
  exists l, y. split; [reflexivity |].
  rewrite length_app in E. cbn in E. lia.
Qed.

(** A tick in which no projectile hits anything: the projectiles short of
    their range are advanced, the others are dropped, and nothing else
    changes. *)
Lemma updateLasers_no_hit (deltaTime : Q) (g : Game) :
  Forall (hitsNothing deltaTime g) (lasers g) ->
  updateLasers deltaTime g =
    set_lasers (fun ls => map (advanceLaser deltaTime)
                            (filter (fun l => inRange deltaTime l = true) ls)) g.
Proof.
  intros Hall. unfold updateLasers.
  pose (I := fun (i : nat) (s : Game) =>
    exists pre post, lasers g = pre ++ post /\ length pre = i /\
      s = set_lasers (fun _ => pre ++ map (advanceLaser deltaTime)
             (filter (fun l => inRange deltaTime l = true) post)) g).
  assert (Hend : I O (for_down (length (lasers g)) (updateLaser_at deltaTime) g)).
  { apply (for_down_indexed I).
    - intros i s (pre & post & Els & Elen & ->).
      destruct (length_succ_snoc pre i Elen) as (pre' & l & -> & Elen').
      assert (Hl : hitsNothing deltaTime g l).
      { rewrite Forall_forall in Hall. apply Hall. rewrite Els.
        apply elem_of_app. left. apply elem_of_app. right. constructor. }
      exists pre', (l :: post). split; [rewrite Els, <- app_assoc; reflexivity |].
      split; [exact Elen' |].
      set (rest := map _ (filter _ post)).
      assert (Hlook : lasers (set_lasers (fun _ => (pre' ++ [l]) ++ rest) g) !! i
                      = Some l).
      { cbn. rewrite <- app_assoc. cbn. rewrite <- Elen'.
        apply list_lookup_middle. reflexivity. }
      destruct (inRange deltaTime l) eqn:Er.
      + rewrite (updateLaser_at_no_hit deltaTime i _ l Hlook).
        * unfold set_lasers. cbn. f_equal.
          rewrite <- app_assoc. cbn. rewrite <- Elen'.
          rewrite insert_length_app. f_equal.
          destruct (decide _) as [_ | Hn]; [reflexivity | congruence].
        * intros Hexp. apply inRange_expires in Hexp. congruence.
        * exact Hl.
      + rewrite (updateLaser_at_expired deltaTime i _ l Hlook).
        * unfold set_lasers. cbn. f_equal.
          rewrite <- app_assoc. cbn. rewrite <- Elen'.
          rewrite delete_middle. f_equal.
          destruct (decide _) as [Hy | _]; [congruence | reflexivity].
        * apply inRange_expires. exact Er.
    - exists (lasers g), []. split; [symmetry; apply app_nil_r |].
      split; [reflexivity |]. cbn. rewrite app_nil_r.
      destruct g; reflexivity. }
  destruct Hend as (pre & post & Els & Elen & ->).
  destruct pre; [| discriminate]. cbn in Els. unfold set_lasers. cbn.
  rewrite <- Els. reflexivity.
Qed.

(** A tick in any world: every projectile that is left was short of its
    range after the advance, and has been advanced exactly once; the order is
    kept. *)
Lemma updateLasers_survivors (deltaTime : Q) (g : Game) :
  exists kept,
    sublist kept (filter (fun l => inRange deltaTime l = true) (lasers g)) /\
    lasers (updateLasers deltaTime g) = map (advanceLaser deltaTime) kept.
Proof.
  unfold updateLasers.
  pose (I := fun (i : nat) (s : Game) =>
    exists pre post kept, lasers g = pre ++ post /\ length pre = i /\
      sublist kept (filter (fun l => inRange deltaTime l = true) post) /\
      lasers s = pre ++ map (advanceLaser deltaTime) kept).
  assert (Hend : I O (for_down (length (lasers g)) (updateLaser_at deltaTime) g)).
  { apply (for_down_indexed I).
    - intros i s (pre & post & kept & Els & Elen & Hsub & Es).
      destruct (length_succ_snoc pre i Elen) as (pre' & l & -> & Elen').
      rewrite <- app_assoc in Es. cbn in Es.
      assert (Hlook : lasers s !! i = Some l).
      { rewrite Es, <- Elen'. apply list_lookup_middle. reflexivity. }
      exists pre', (l :: post).
      destruct (inRange deltaTime l) eqn:Er.
      + destruct (updateLaser_at_lasers deltaTime i s l Hlook) as [E | [E | E]].
        * exists (l :: kept). split; [rewrite Els, <- app_assoc; reflexivity |].
          split; [exact Elen' |]. split.
          { rewrite filter_cons_True by exact Er. constructor. exact Hsub. }
          rewrite E, Es, <- Elen'. rewrite insert_length_app. reflexivity.
        * exists kept. split; [rewrite Els, <- app_assoc; reflexivity |].
          split; [exact Elen' |]. split.
          { rewrite filter_cons_True by exact Er. constructor. exact Hsub. }
          rewrite E, Es, <- Elen'. rewrite insert_length_app, delete_middle.
          reflexivity.
        * exists (drop 1 kept). split; [rewrite Els, <- app_assoc; reflexivity |].
          split; [exact Elen' |]. split.
          { rewrite filter_cons_True by exact Er. constructor.
            etransitivity; [apply sublist_drop | exact Hsub]. }
          rewrite E, Es, <- Elen'.
          rewrite insert_length_app, delete_middle, delete_length_app.
          f_equal. destruct kept; reflexivity.
      + exists kept. split; [rewrite Els, <- app_assoc; reflexivity |].
        split; [exact Elen' |]. split.
        { rewrite filter_cons_False by congruence. exact Hsub. }
        rewrite (updateLaser_at_expired deltaTime i s l Hlook)
          by (apply inRange_expires; exact Er).
        cbn. rewrite Es, <- Elen', delete_middle. reflexivity.
    - exists (lasers g), [], []. split; [symmetry; apply app_nil_r |].
      split; [reflexivity |]. split; [constructor |].
      cbn. symmetry. apply app_nil_r. }
  destruct Hend as (pre & post & kept & Els & Elen & Hsub & Es).
  destruct pre; [| discriminate]. cbn in Els, Es. rewrite <- Els in Hsub.
  exists kept. split; assumption.
Qed.

Lemma fresh_inFlight (l : Laser) :
  l_position l = l_startPosition l -> 0 < l_maxDistance l -> inFlight l.
Proof.
  intros E Hpos. split; [apply fresh_onRay; exact E |].
  split; [exact Hpos |]. rewrite E.
  unfold V.distanceSq, V.lengthSq, V.sub. cbn.
  assert (E0 : forall a : Q, (a - a) * (a - a) == 0) by (intros a; ring).
  rewrite !E0. nra.
Qed.

Lemma fireLaser_inFlight (t : Q) (g : Game) :
  Forall inFlight (lasers g) -> Forall inFlight (lasers (fireLaser t g)).
Proof.
  intros Hl. unfold fireLaser. destruct (Qltb _ _); [exact Hl |]. cbn.
  apply Forall_app. split; [exact Hl |]. constructor; [| constructor].
  apply fresh_inFlight; [reflexivity |]. reflexivity.
Qed.

Lemma advanceLaser_inFlight (deltaTime : Q) (l : Laser) :
  0 <= deltaTime -> onRay l -> inRange deltaTime l = true ->
  inFlight (advanceLaser deltaTime l).
Proof.
  intros Hd Hray Hr. split.
  - apply advanceLaser_onRay; assumption.
  - apply inRange_within. exact Hr.
Qed.

Lemma updateLasers_inFlight (deltaTime : Q) (g : Game) :
  0 <= deltaTime -> Forall inFlight (lasers g) ->
  Forall inFlight (lasers (updateLasers deltaTime g)).
Proof.
  intros Hd Hall.
  destruct (updateLasers_survivors deltaTime g) as (kept & Hsub & ->).
  apply Forall_fmap. apply Forall_forall. intros l Hl.
  assert (Hin : l ∈ filter (fun l => inRange deltaTime l = true) (lasers g)).
  { eapply elem_of_sublist; [exact Hl | exact Hsub]. }
  apply list_elem_of_filter in Hin as [Hr Hin].
  rewrite Forall_forall in Hall.
  apply advanceLaser_inFlight; [exact Hd | apply (Hall l Hin) | exact Hr].
Qed.

Lemma updateShipPhysics_inFlight (deltaTime t : Q) (g : Game) :
  Forall inFlight (lasers g) ->
  Forall inFlight (lasers (updateShipPhysics deltaTime t g)).
Proof.
  intros Hl. unfold updateShipPhysics.
  set (g2 := if k_f (keys (moveShip g)) then fireLaser t (moveShip g)
             else moveShip g).
  assert (H2 : Forall inFlight (lasers g2)).
  { unfold g2. destruct (k_f _); [apply fireLaser_inFlight |]; exact Hl. }
  assert (H3 : Forall inFlight (lasers (checkCollisions (updateBarrelRoll g2)))).
  { rewrite checkCollisions_lasers.
    destruct (updateBarrelRoll_frame g2) as (_ & _ & _ & _ & E & _).
    rewrite E. exact H2. }
  destruct (checkEnemyLasers_cases (checkCollisions (updateBarrelRoll g2)))
    as [E | (i & l & _ & _ & _ & _ & E)]; rewrite E; [exact H3 |].
  destruct (hitShip_frame i l (checkCollisions (updateBarrelRoll g2)))
    as (_ & E2 & _). rewrite E2. apply Forall_delete. exact H3.
Qed.

Lemma animate_inFlight (deltaTime t : Q) (g : Game) :
  0 <= deltaTime -> Forall inFlight (lasers g) ->
  Forall inFlight (lasers (animate deltaTime t g)).
Proof.
  intros Hd Hl. unfold animate.
  destruct (isGameOver (gameState g)); [exact Hl |].
  pose proof (updateShipPhysics_inFlight deltaTime t g Hl) as H1.
  destruct (updateEnvironment_cabin deltaTime (updateShipPhysics deltaTime t g))
    as (C1 & _).
  destruct (updateEnvironment deltaTime (updateShipPhysics deltaTime t g))
    as [g2 o].
  cbn in C1.
  assert (H2 : Forall inFlight (lasers g2))
    by (rewrite (cabin_lasers _ _ C1); exact H1).
  destruct o; [| exact H2].
  destruct (env_updateEnemies_cabin deltaTime g2) as (D1 & _).
  assert (H3 : Forall inFlight (lasers (env_updateEnemies deltaTime g2)))
    by (rewrite (cabin_lasers _ _ D1); exact H2).
  apply (updateLasers_inFlight deltaTime _ Hd) in H3. exact H3.
Qed.

Lemma step_inFlight (ev : Event) (g : Game) :
  forwardInTime ev -> Forall inFlight (lasers g) ->
  Forall inFlight (lasers (step ev g)).
Proof.
  intros Hev Hl. destruct ev as [dt t | k t | k | k b | t |]; cbn.
  - apply animate_inFlight; assumption.
  - unfold onKeyDown. destruct k; try exact Hl.
    + cbn. destruct (br_active _); exact Hl.
    + cbn. destruct (br_active _); exact Hl.
    + apply fireLaser_inFlight. exact Hl.
  - exact Hl.
  - exact Hl.
  - apply fireLaser_inFlight. exact Hl.
  - unfold onGraceTimeout. destruct (graceTimers g); exact Hl.
Qed.

Lemma run_inFlight (evs : list Event) (g : Game) :
  Forall forwardInTime evs -> Forall inFlight (lasers g) ->
  Forall inFlight (lasers (run evs g)).
Proof.
  intros Hevs. revert g. induction Hevs as [| ev evs Hev _ IH]; intros g Hl;
    [exact Hl |].
  change (run (ev :: evs) g) with (run evs (step ev g)).
  apply IH. apply step_inFlight; assumption.
Qed.

(** Across a tick the distance to the start of a projectile that is left
    has not decreased. *)
Lemma updateLasers_monotone (deltaTime : Q) (g : Game) :
  0 <= deltaTime -> Forall onRay (lasers g) ->
  exists kept,
    sublist kept (lasers g) /\
    lasers (updateLasers deltaTime g) = map (advanceLaser deltaTime) kept /\
    Forall (fun l => inRange deltaTime l = true /\
                     traveledSq l <= traveledSq (advanceLaser deltaTime l))
           kept.
Proof.
  intros Hd Hall.
  destruct (updateLasers_survivors deltaTime g) as (kept & Hsub & E).
  exists kept. split; [| split; [exact E |]].
  - etransitivity; [exact Hsub | apply sublist_filter].
  - apply Forall_forall. intros l Hl.
    assert (Hin : l ∈ filter (fun l => inRange deltaTime l = true) (lasers g)).
    { eapply elem_of_sublist; [exact Hl | exact Hsub]. }
    apply list_elem_of_filter in Hin as [Hr Hin]. split; [exact Hr |].
    rewrite Forall_forall in Hall.
    apply advanceLaser_onRay; [exact Hd | apply (Hall l Hin)].
Qed.

Lemma init_lasers : lasers init = [].
Proof. exact (f_equal (fun c => snd (fst (fst (fst c)))) init_cockpit). Qed.

(** C8. A projectile is created at its start position, by the player and by
    a fighter alike.  A tick moves it by [advanceLaser], which on the ray
    from the start along the velocity, and for a frame time that is not
    negative, never brings it closer to the start.  The loop body of
    [updateLasers] tests the range first: a projectile that has reached
    [maxDistance] after its advance is removed with nothing else changed,
    whatever fighters and asteroids are at that point, and one that is short
    of it and inside no fighter and no asteroid is moved and stays.  Over a
    whole tick, in any world, the projectiles that are left are projectiles
    of before, in their order, that were short of their range, each advanced
    once; when nothing is hit they are all of those, and when all expire the
    list is emptied.  So across a tick the distance to the start of a
    projectile that is left has not decreased, and in every state the game
    reaches, with frame times that are not negative, every projectile in
    flight is on its ray and short of its range. *)
Theorem range_expiry_precedes_hits :
  (forall t g l, lasers (fireLaser t g) = lasers g ++ [l] ->
     l_position l = l_startPosition l /\ l_maxDistance l = laserRange) /\
  (forall target g, exists l,
     lasers (createEnemyLaser target g) = lasers g ++ [l] /\
     l_position l = l_startPosition l) /\
  (forall deltaTime l,
     0 <= deltaTime -> onRay l ->
     onRay (advanceLaser deltaTime l) /\
     traveledSq l <= traveledSq (advanceLaser deltaTime l)) /\
  (forall l deltas deltaTime,
     l_position l = l_startPosition l ->
     Forall (fun d => 0 <= d) deltas -> 0 <= deltaTime ->
     traveledSq (flight deltas l) <=
       traveledSq (flight (deltas ++ [deltaTime]) l)) /\
  (forall deltaTime l, inRange deltaTime l = false <-> expires deltaTime l) /\
  (forall deltaTime i g l,
     lasers g !! i = Some l -> expires deltaTime l ->
     updateLaser_at deltaTime i g = set_lasers (delete i) g) /\
  (forall deltaTime i g l,
     lasers g !! i = Some l -> ~ expires deltaTime l ->
     hitsNothing deltaTime g l ->
     updateLaser_at deltaTime i g =
       set_lasers (fun ls => <[i := advanceLaser deltaTime l]> ls) g) /\
  (forall deltaTime g, exists kept,
     sublist kept (filter (fun l => inRange deltaTime l = true) (lasers g)) /\
     lasers (updateLasers deltaTime g) = map (advanceLaser deltaTime) kept) /\
  (forall deltaTime g,
     Forall (hitsNothing deltaTime g) (lasers g) ->
     updateLasers deltaTime g =
       set_lasers (fun ls => map (advanceLaser deltaTime)
                     (filter (fun l => inRange deltaTime l = true) ls)) g) /\
  (forall deltaTime g,
     Forall (expires deltaTime) (lasers g) ->
     updateLasers deltaTime g = set_lasers (fun _ => []) g) /\
  (forall deltaTime g,
     0 <= deltaTime -> Forall onRay (lasers g) ->
     exists kept,
       sublist kept (lasers g) /\
       lasers (updateLasers deltaTime g) = map (advanceLaser deltaTime) kept /\
       Forall (fun l => inRange deltaTime l = true /\
                        traveledSq l <= traveledSq (advanceLaser deltaTime l))
              kept) /\
  (forall evs,
     Forall forwardInTime evs -> Forall inFlight (lasers (run evs init))).
Proof.
  split; [exact fireLaser_fresh |].
  split; [intros target g; eexists; split; reflexivity |].
  split; [exact advanceLaser_onRay |].
  split.
  { intros l deltas deltaTime Hfresh Hall Hd.
    unfold flight. rewrite fold_left_app. cbn.
    apply advanceLaser_onRay; [exact Hd |].
    apply flight_onRay; [exact Hall |]. apply fresh_onRay. exact Hfresh. }
  split; [exact inRange_expires |].
  split; [exact updateLaser_at_expired |].
  split; [exact updateLaser_at_no_hit |].
  split; [exact updateLasers_survivors |].
  split; [exact updateLasers_no_hit |].
  split.
  { intros deltaTime g Hall. unfold updateLasers.
    apply (for_down_all_expire deltaTime (lasers g) Hall g). reflexivity. }
  split; [exact updateLasers_monotone |].
  intros evs Hevs. apply run_inFlight; [exact Hevs |].
  rewrite init_lasers. constructor.
Qed.

End Properties.

(** ** The theorems at concrete inputs *)

Lemma fireLaser_cooldown_witness :
  lastShotTime (shipState bareGame) == 0 /\
  @fireLaser (examplePlatform 0.5) 0.1 bareGame = bareGame /\
  length (lasers (@fireLaser (examplePlatform 0.5) 0.3 bareGame)) = 1%nat.
Proof.
  split; [reflexivity |].
  destruct (@fireLaser_cooldown (examplePlatform 0.5) 0.1 bareGame)
    as (_ & _ & H3).
  destruct (@fireLaser_cooldown (examplePlatform 0.5) 0.3 bareGame)
    as (_ & H2 & _).
  split.
  - apply H3. reflexivity.
  - apply H2. vm_compute. discriminate.
Defined.

Lemma asteroid_collision_is_fatal_witness :
  health (shipState (@checkCollisions (examplePlatform 0.5) asteroidAhead)) = 0%Z /\
  isGameOver (gameState (@checkCollisions (examplePlatform 0.5) asteroidAhead)) = true /\
  gameOverMessage (ui (@checkCollisions (examplePlatform 0.5) asteroidAhead)) =
    "Your X-Wing was destroyed by an asteroid!"%string.
Proof.
  destruct (@asteroid_collision_is_fatal (examplePlatform 0.5) asteroidAhead
              [] [] (mkCollisionObject 0%nat 0%nat 2 asteroid))
    as (_ & Hh & Ho & Hm).
  - reflexivity.
  - reflexivity.
  - constructor.
  - reflexivity.
  - split; vm_compute; reflexivity.
  - split; [exact Hh |]. split; [exact Ho |]. apply Hm. reflexivity.
Defined.

Lemma invulnerable_suppresses_damage_witness :
  @checkCollisions (examplePlatform 0.5) shielded = shielded /\
  @checkEnemyLasers (examplePlatform 0.5) shielded = shielded /\
  health (shipState (@updateShipPhysics (examplePlatform 0.5) 0.016 1 shielded)) =
    100%Z.
Proof.
  destruct (@invulnerable_suppresses_damage (examplePlatform 0.5) shielded)
    as (Hc & Hl & Hf).
  - reflexivity.
  - split; [exact Hc |]. split; [exact Hl |].
    destruct (Hf 0.016 1) as (_ & Hh & _).
    + intros [Ha _]. discriminate Ha.
    + exact Hh.
Defined.

Lemma fighters_are_not_collidable_witness :
  within (position (shipState insideFighter)) (mkV 1 0 0) (collisionRadius + 8) /\
  @checkCollisions (examplePlatform 0.5) insideFighter = insideFighter /\
  health (shipState (@animate (examplePlatform 0.5) 0.016 1 insideFighter)) =
    100%Z /\
  gameState (@animate (examplePlatform 0.5) 0.016 1 insideFighter) =
    mkGameState false 0 /\
  map t_health
    (env_targets (env (@animate (examplePlatform 0.5) 0.016 1 insideFighter))) =
    [50%Z].
Proof.
  split; [split; vm_compute; reflexivity |].
  destruct (@fighters_are_not_collidable (examplePlatform 0.5) insideFighter)
    as (_ & _ & _ & _ & Hclear & Hframe).
  split; [apply Hclear; constructor |].
  apply (Hframe 0.016 1); try reflexivity. constructor.
Defined.

Lemma currentSpeed_stays_in_range_witness :
  speedInRange (@run (examplePlatform 0.5) thrustThenCoast bareGame).
Proof.
  destruct (@currentSpeed_stays_in_range (examplePlatform 0.5)
              thrustThenCoast bareGame) as (_ & Hr & _).
  - reflexivity.
  - exact Hr.
Defined.

Lemma frozen_after_game_over_witness :
  simulated (@run (examplePlatform 0.5)
               [Frame 0.016 1; KeyDown Kf 1; Frame 0.016 1.016; GraceTimeout]
               overWithLaser) = simulated overWithLaser.
Proof.
  destruct (@frozen_after_game_over (examplePlatform 0.5)
              [Frame 0.016 1; KeyDown Kf 1; Frame 0.016 1.016; GraceTimeout]
              overWithLaser) as (_ & Hs & _).
  - reflexivity.
  - exact Hs.
Defined.

Lemma range_expiry_precedes_hits_witness :
  @updateLaser_at (examplePlatform 0.5) 0.4 0 expiryScenario =
    set_lasers (delete 0%nat) expiryScenario /\
  @updateLasers (examplePlatform 0.5) 0.4 expiryScenario =
    set_lasers (fun _ => []) expiryScenario /\
  traveledSq (flight [0.1; 0.1]
                (playerLaser (mkV 0 0 (-3)) (mkV 0 0 (-500)))) <=
  traveledSq (flight ([0.1; 0.1] ++ [0.1])
                (playerLaser (mkV 0 0 (-3)) (mkV 0 0 (-500)))) /\
  lasers (@updateLasers (examplePlatform 0.5) 0.1 expiryScenario) =
    [advanceLaser 0.1 (playerLaser (mkV 0 0 (-3)) (mkV 0 0 (-500)))] /\
  Forall inFlight
    (lasers (@run (examplePlatform 0.5) [KeyDown Kf 1; Frame 0.016 1.016]
               (@init (examplePlatform 0.5)))).
Proof.
  destruct (@range_expiry_precedes_hits (examplePlatform 0.5))
    as (_ & _ & _ & Hmono & _ & Hbody & _ & _ & Hmiss & Hall & _ & Hrun).
  assert (Hexp : expires 0.4 (playerLaser (mkV 0 0 (-3)) (mkV 0 0 (-500)))).
  { right. vm_compute. discriminate. }
  split; [| split; [| split; [| split]]].
  - apply (Hbody 0.4 0%nat expiryScenario
             (playerLaser (mkV 0 0 (-3)) (mkV 0 0 (-500)))).
    + reflexivity.
    + exact Hexp.
  - apply Hall. constructor; [exact Hexp | constructor].
  - apply Hmono.
    + reflexivity.
    + repeat constructor; vm_compute; discriminate.
    + vm_compute; discriminate.
  - rewrite (Hmiss 0.1 expiryScenario); [reflexivity |].
    constructor; [| constructor]. split; [| constructor].
    constructor; [| constructor].
    intros [_ Hlt]. vm_compute in Hlt. discriminate Hlt.
  - apply Hrun. constructor; [exact I |]. constructor; [| constructor].
    vm_compute. discriminate.
Defined.

(** ** Where the code departs from the specification *)

(** C1 as stated fails.  [overWithLaser] is over, yet a call of
    [updateLasers] takes 25 health from the fighter, a call of
    [updateShipPhysics] moves the ship, and a call of [checkCollisions] on
    [asteroidAhead] once it is over sets the health to 0.  And in the frame
    in which the ship dies ([dyingFrame]) the game is over after
    [updateShipPhysics], with the score at 0 and the fighter alive, while at
    the end of that same frame the fighter is destroyed and the score is
    100. *)
Lemma game_over_does_not_stop_the_functions :
  isGameOver (gameState overWithLaser) = true /\
  simulated (@updateLasers (examplePlatform 0.5) 0.001 overWithLaser) <>
    simulated overWithLaser /\
  simulated (@updateShipPhysics (examplePlatform 0.5) 0.001 1 overWithLaser) <>
    simulated overWithLaser /\
  simulated (@checkCollisions (examplePlatform 0.5)
               (set_gameState (fun gs => mkGameState true (score gs))
                  asteroidAhead)) <>
    simulated (set_gameState (fun gs => mkGameState true (score gs))
                 asteroidAhead) /\
  isGameOver (gameState dyingFrame) = false /\
  isGameOver (gameState
    (@updateShipPhysics (examplePlatform 0.5) 0.001 1 dyingFrame)) = true /\
  score (gameState
    (@updateShipPhysics (examplePlatform 0.5) 0.001 1 dyingFrame)) = 0%Z /\
  map t_health (env_targets (env
    (@updateShipPhysics (examplePlatform 0.5) 0.001 1 dyingFrame))) = [25%Z] /\
  score (gameState (@animate (examplePlatform 0.5) 0.001 1 dyingFrame)) = 100%Z /\
  env_targets (env (@animate (examplePlatform 0.5) 0.001 1 dyingFrame)) = [].
Proof.
  split; [reflexivity |].
  split.
  { intros E.
    apply (f_equal (fun x => map t_health (env_targets (snd x)))) in E.
    vm_compute in E. discriminate E. }
  split.
  { intros E.
    apply (f_equal (fun x => Qeq_bool (vy (snd (fst (fst (fst x))))) 0)) in E.
    vm_compute in E. discriminate E. }
  split.
  { intros E.
    apply (f_equal (fun x => fst (fst (fst (fst x))))) in E.
    vm_compute in E. discriminate E. }
  repeat split; vm_compute; reflexivity.
Qed.

(** C2 on [twoLasers], with a random source that makes the destroy roll
    succeed.  The first laser steps into a point inside both the fighter and
    the asteroid.  The [break] after the fighter hit leaves the fighter loop
    only: the asteroid loop runs for the same laser, so the fighter loses 25
    health and the asteroid is destroyed, for 25 points; and the second
    [splice] at the same index removes the other laser, which on its own
    stays in flight. *)
Lemma one_laser_two_hits :
  length (lasers twoLasers) = 2%nat /\
  length (lasers (@updateLasers (examplePlatform 0) 0.01
                    (set_lasers (drop 1) twoLasers))) = 1%nat /\
  map t_health (env_targets (env twoLasers)) = [50%Z] /\
  length (asteroids (env twoLasers)) = 1%nat /\
  lasers (@updateLasers (examplePlatform 0) 0.01 twoLasers) = [] /\
  map t_health (env_targets (env
    (@updateLasers (examplePlatform 0) 0.01 twoLasers))) = [25%Z] /\
  asteroids (env (@updateLasers (examplePlatform 0) 0.01 twoLasers)) = [] /\
  collisionObjects (env (@updateLasers (examplePlatform 0) 0.01 twoLasers)) = [] /\
  score (gameState (@updateLasers (examplePlatform 0) 0.01 twoLasers)) = 25%Z /\
  length (env_explosions (env
    (@updateLasers (examplePlatform 0) 0.01 twoLasers))) = 3%nat.
Proof. repeat split; vm_compute; reflexivity. Qed.

(** ** The enemy-fire code, which no run reaches *)

(** [updateLasers] does not read [isEnemy]; only the test of the ship in
    [updateShipPhysics] does.  No run from [init] puts an enemy projectile in
    [lasers], but handed one, as in [enemyHasFired] and
    [enemyFiresInAsteroid], [updateLasers] treats it like any other.  The
    projectile of [createEnemyLaser] starts at the fighter's position, inside
    its sphere, so it takes 10 health from the fighter that fired it, here
    destroying it for 100 points.  Fired from inside an asteroid, it triggers
    the destroy roll and, when the roll succeeds, scores 25. *)
Lemma enemy_laser_hits_fighter_and_asteroid :
  map l_isEnemy (lasers enemyHasFired) = [true] /\
  map t_health (env_targets (env enemyHasFired)) = [10%Z] /\
  score (gameState enemyHasFired) = 0%Z /\
  env_targets (env (@updateLasers (examplePlatform 0.5) 0.016 enemyHasFired)) = [] /\
  score (gameState
    (@updateLasers (examplePlatform 0.5) 0.016 enemyHasFired)) = 100%Z /\
  lasers (@updateLasers (examplePlatform 0.5) 0.016 enemyHasFired) = [] /\
  map l_isEnemy (lasers enemyFiresInAsteroid) = [true] /\
  length (asteroids (env enemyFiresInAsteroid)) = 1%nat /\
  asteroids (env
    (@updateLasers (examplePlatform 0) 0.016 enemyFiresInAsteroid)) = [] /\
  score (gameState
    (@updateLasers (examplePlatform 0) 0.016 enemyFiresInAsteroid)) = 25%Z.
Proof. repeat split; vm_compute; reflexivity. Qed.

(** The callback of the grace timer clears [invulnerable] whether or not a
    roll is active.  [underFire] has two enemy projectiles in front of the
    ship, which no run from [init] produces; from there, with the events
    [hitThenRoll], the first frame ends with the ship hit, invulnerable, and
    one grace timer pending.  The roll starts before the timer fires.  When
    it fires, it clears the flag: the roll is active, no timer is pending and
    the ship is not invulnerable.  The next frame, the second enemy
    projectile hits the rolling ship. *)
Lemma grace_timer_ends_roll_invulnerability :
  (let g := @run (examplePlatform 0.5) (take 1 hitThenRoll) underFire in
   health (shipState g) = 90%Z /\ invulnerable (shipState g) = true /\
   graceTimers g = 1%nat /\ br_active (barrelRoll (shipState g)) = false) /\
  (let g := @run (examplePlatform 0.5) (take 2 hitThenRoll) underFire in
   invulnerable (shipState g) = true /\ graceTimers g = 1%nat /\
   br_active (barrelRoll (shipState g)) = true) /\
  (let g := @run (examplePlatform 0.5) hitThenRoll underFire in
   invulnerable (shipState g) = false /\ graceTimers g = 0%nat /\
   br_active (barrelRoll (shipState g)) = true /\
   health (shipState g) = 90%Z) /\
  (let g := @run (examplePlatform 0.5) (hitThenRoll ++ [Frame 0.016 1.6])
              underFire in
   br_active (barrelRoll (shipState g)) = true /\
   health (shipState g) = 80%Z).
Proof. repeat split; vm_compute; reflexivity. Qed.

(** ** More theorems at concrete inputs *)

Lemma updateVertical_never_clamps_witness :
  updateVertical (setKey Kspace true (keys bareGame)) 0.49 = (0.49 + 0.01) * drag /\
  updateVertical (keys bareGame) 0 = (0 - 0.002) * drag.
Proof.
  split.
  - apply (updateVertical_never_clamps (setKey Kspace true (keys bareGame)) 0.49).
    split; vm_compute; discriminate.
  - apply (updateVertical_never_clamps (keys bareGame) 0).
    split; vm_compute; discriminate.
Defined.

Lemma barrel_roll_takes_126_frames_witness :
  rolling 2 (@run (examplePlatform 0.5) rollInterrupted rollStarted) /\
  br_direction (barrelRoll (shipState
    (@run (examplePlatform 0.5) rollInterrupted rollStarted))) = 1%Z.
Proof.
  destruct (@barrel_roll_takes_126_frames (examplePlatform 0.5) rollStarted
              rollInterrupted) as (H1 & H2 & _).
  - split; reflexivity.
  - reflexivity.
  - vm_compute. lia.
  - split; [exact H1 | exact H2].
Defined.

Lemma one_shot_per_cooldown_witness :
  length (lasers justFired) = 1%nat /\
  (length (lasers (@run (examplePlatform 0.5) hammeringFire justFired)) <= 1)%nat.
Proof.
  split; [reflexivity |].
  apply (@one_shot_per_cooldown (examplePlatform 0.5) justFired hammeringFire).
  repeat constructor.
Defined.

Lemma bursts_shown_for_their_lifetime_witness :
  Forall2 (agedBy (elapsed [0.05; 0.1])) (explosionsAfter [0.05; 0.1] twoBursts)
    [@newExplosion (examplePlatform 0.5) 0 V.zero 2 16711680%Z].
Proof.
  apply (bursts_shown_for_their_lifetime [0.05; 0.1] twoBursts).
  - repeat constructor; vm_compute; discriminate.
  - repeat constructor; vm_compute; discriminate.
Defined.

Lemma bursts_fade_within_bounds_witness :
  Forall (fun e => 0 <= e_materialOpacity e <= 1)
    (updateExplosionList 0.05 twoBursts).
Proof.
  destruct (bursts_fade_within_bounds 0.05 twoBursts) as [Hall _].
  - vm_compute. discriminate.
  - repeat constructor; vm_compute; discriminate.
  - eapply Forall_impl; [exact Hall |]. intros e He. apply He.
Defined.

Lemma createExplosionEffect_burst_witness :
  exists e,
    explosions (@createExplosionEffect (examplePlatform 0.5) V.zero 2
                  16711680%Z bareGame) = [e] /\
    length (e_particles e) = 50%nat /\
    Forall particleInBounds (e_particles e).
Proof.
  destruct (@createExplosionEffect_burst (examplePlatform 0.5) V.zero 2
              16711680%Z bareGame) as (e & He & _ & _ & _ & _ & _ & _ & Hn & Hb).
  - intros i. split; vm_compute; [discriminate | reflexivity].
  - exists e. split; [exact He |]. split; [exact Hn | exact Hb].
Defined.

Lemma updateEnvironment_keeps_the_collision_list_witness :
  snd (@updateEnvironment (examplePlatform 0.5) 0.016 asteroidAhead) = Normal /\
  collisionObjects (env (fst (@updateEnvironment (examplePlatform 0.5) 0.016
                                asteroidAhead))) =
    [mkCollisionObject 0%nat 0%nat 2 asteroid].
Proof.
  destruct (@updateEnvironment_keeps_the_collision_list (examplePlatform 0.5)
              0.016 asteroidAhead) as (H1 & _ & _ & H4 & _).
  - repeat split; cbn; repeat constructor. intros Hin. inversion Hin.
  - split; [exact H1 | exact H4].
Defined.

Lemma destroyAsteroid_removes_its_collision_object_witness :
  asteroids (destroyAsteroid 0 (env asteroidAhead)) = [] /\
  collisionObjects (destroyAsteroid 0 (env asteroidAhead)) = [] /\
  destroyAsteroid 1 (env asteroidAhead) = env asteroidAhead.
Proof.
  destruct (destroyAsteroid_removes_its_collision_object 0 (env asteroidAhead))
    as (_ & _ & H0).
  { repeat split; cbn; repeat constructor. intros Hin. inversion Hin. }
  destruct (destroyAsteroid_removes_its_collision_object 1 (env asteroidAhead))
    as (_ & H1 & _).
  { repeat split; cbn; repeat constructor. intros Hin. inversion Hin. }
  destruct (H0 (mkAsteroid 0%nat 2 V.zero V.zero) eq_refl) as (Ha & Hc & _).
  split; [exact Ha |]. split; [exact Hc |]. apply H1. reflexivity.
Defined.

Lemma first_hazard_in_reach_decides_witness :
  isGameOver (gameState (@checkCollisions (examplePlatform 0.5) deathStarAhead)) =
    true /\
  health (shipState (@checkCollisions (examplePlatform 0.5) deathStarAhead)) =
    100%Z /\
  gameOverMessage (ui (@checkCollisions (examplePlatform 0.5) deathStarAhead)) =
    "Mission Complete! You've reached the Death Star!"%string.
Proof.
  destruct (@first_hazard_in_reach_decides (examplePlatform 0.5) deathStarAhead
              [mkCollisionObject 0%nat 0%nat 100 planet] []
              (mkCollisionObject 1%nat 1%nat 300 deathstar))
    as (_ & Ho & Hh & Hm & _).
  - reflexivity.
  - reflexivity.
  - constructor; [| constructor]. intros [_ Hd]. vm_compute in Hd. discriminate.
  - split; vm_compute; reflexivity.
  - split; [exact Ho |]. split; [exact Hh |]. apply Hm. reflexivity.
Defined.

Lemma examplePlatform_fair : @fairPlatform (examplePlatform 0.5).
Proof.
  split.
  - intros x. reflexivity.
  - intros n. split; vm_compute; [discriminate | reflexivity].
Qed.

Lemma asteroids_stay_in_the_field_witness :
  Forall (fun a =>
            V.distGt (deref (env (fst (@updateEnvironment (examplePlatform 0.5)
                                         0.016 asteroidAhead)))
                            (a_mesh a)) (mkV 0 0 (-500)) 500 = false)
         (asteroids (env (fst (@updateEnvironment (examplePlatform 0.5) 0.016
                                 asteroidAhead)))).
Proof.
  apply (@asteroids_stay_in_the_field (examplePlatform 0.5) 0.016 asteroidAhead).
  - exact examplePlatform_fair.
  - repeat split; cbn; repeat constructor. intros Hin. inversion Hin.
Defined.

Lemma asteroids_never_leave_the_field_witness :
  Forall (fun a =>
            V.distGt (deref (env (@run (examplePlatform 0.5) thrustThenCoast
                                    (@init (examplePlatform 0.5))))
                            (a_mesh a)) (mkV 0 0 (-500)) 500 = false)
         (asteroids (env (@run (examplePlatform 0.5) thrustThenCoast
                            (@init (examplePlatform 0.5))))).
Proof.
  apply (@asteroids_never_leave_the_field (examplePlatform 0.5) thrustThenCoast).
  exact examplePlatform_fair.
Defined.

Lemma speed_meter_stays_in_its_frame_witness :
  exists m, updateSpeedDisplay
              (set_shipState (set_currentSpeed (-0.3)) bareGame) = Some m /\
    sm_width m == 10 /\ sm_left m == 40 /\ sm_value m = 20%Z /\
    sm_direction m = "REVERSE"%string.
Proof.
  destruct (speed_meter_stays_in_its_frame
              (set_shipState (set_currentSpeed (-0.3)) bareGame)) as [_ Hm].
  - split; vm_compute; discriminate.
  - destruct (Hm eq_refl) as (m & Em & _).
    exists m. split; [exact Em |].
    vm_compute in Em. injection Em as <-. repeat split.
Defined.

Lemma bank_is_limited_outside_a_roll_witness :
  -0.5 <= ez (xw_rotation (xwing (@run (examplePlatform 0.5)
                                    [KeyDown Ka 0.1; KeyUp Ka]
                                    (@init (examplePlatform 0.5))))) <= 0.5.
Proof.
  apply (@bank_is_limited_outside_a_roll (examplePlatform 0.5)
           [KeyDown Ka 0.1; KeyUp Ka]).
  reflexivity.
Defined.
